(** * Taskforce chat timeline: the message store of ChatTerminal.jsx

    A shallow embedding of the reconciliation code of
    [frontend/src/components/ChatTerminal.jsx] ([upsertMessages],
    [fetchAgentResponses], [handleSubmit], [handlePasswordSubmit]) and
    of the helpers it imports from [frontend/src/utils/chatUtils.js]
    ([ensureDate], [buildAgentMessage], [normalizePercent],
    [formatPercentLabel]).

    - JavaScript values that reach this code are modelled by [value].
      A Number is an integer that a double holds (ids, task ids and
      millisecond times are integers); [parseInt] rounds what it reads
      to a double, and reads a Number from [10^21] on through its
      exponent notation.
    - A string is the sequence of bytes of its UTF-8 encoding; [trim]
      and [parseInt] strip the white space and line terminators of the
      language, which take one to three bytes.
    - A [Date] is its millisecond count; the only producers in this code
      are [new Date()] and [ensureDate], which never hand out an invalid
      date.
    - A JS [Map] is an association list in insertion order, because the
      order of [map.values()] is what the stable sort breaks ties with.
    - [new Date()] and [Date.now()] read a clock: the environment is a
      function [clock] from the number of the reading to the time read,
      and the number of readings made so far is threaded through the
      code by the small monad [Clock]. *)

From Stdlib Require Import ZArith String Ascii List Bool Lia.
From Stdlib Require Import DecimalString Sorted Permutation.
From Stdlib Require Import DecimalPos QArith Qround.
Import ListNotations.
Local Open Scope Z_scope.

(** ** JavaScript values *)

Inductive value : Type :=
| Undefined
| Null
| Bool (b : bool)
| Num (n : Z)
| Str (s : string)
| Date (ms : Z).

Definition value_eq_dec (a b : value) : {a = b} + {a <> b}.
Proof.
  decide equality;
    [apply Bool.bool_dec | apply Z.eq_dec | apply string_dec | apply Z.eq_dec].
Defined.

(** [a === b], also the key equality of [Map] on the primitive ids used
    here. *)
Definition strict_eq (a b : value) : bool :=
  if value_eq_dec a b then true else false.

(** [!!v] *)
Definition truthy (v : value) : bool :=
  match v with
  | Undefined | Null => false
  | Bool b => b
  | Num n => negb (n =? 0)
  | Str s => negb (String.eqb s "")
  | Date _ => true
  end.

(** [a || b] *)
Definition js_or (a b : value) : value := if truthy a then a else b.

(** [v === undefined || v === null] *)
Definition nullish (v : value) : bool :=
  match v with
  | Undefined | Null => true
  | _ => false
  end.

(** ** Strings and white space

    A string is the sequence of bytes of its UTF-8 encoding, which is
    what a string literal of this file holds.  [trim] and [parseInt]
    strip the code points that the language calls WhiteSpace or
    LineTerminator; all of them lie in the Basic Multilingual Plane, so
    they take one, two or three bytes. *)

(** A continuation byte of UTF-8. *)
Definition continuation (b : N) : bool := (128 <=? b)%N && (b <=? 191)%N.

(** The code point of which [bytes] is the UTF-8 encoding, for a code
    point of one, two or three bytes. *)
Definition utf8_codePoint (bytes : list ascii) : option N :=
  match List.map N_of_ascii bytes with
  | [b0] => if (b0 <? 128)%N then Some b0 else None
  | [b0; b1] =>
      if (194 <=? b0)%N && (b0 <=? 223)%N && continuation b1
      then Some ((b0 - 192) * 64 + (b1 - 128))%N
      else None
  | [b0; b1; b2] =>
      if (224 <=? b0)%N && (b0 <=? 239)%N && continuation b1
         && continuation b2
      then
        let cp := ((b0 - 224) * 4096 + (b1 - 128) * 64 + (b2 - 128))%N in
        if (2048 <=? cp)%N then Some cp else None
      else None
  | _ => None
  end.

(** The WhiteSpace and LineTerminator code points: TAB, LF, VT, FF, CR,
    SP, NBSP, the other space separators U+1680, U+2000 to U+200A,
    U+202F, U+205F and U+3000, the separators U+2028 and U+2029, and
    U+FEFF. *)
Definition isStrWhiteSpace (cp : N) : bool :=
  ((9 <=? cp) && (cp <=? 13)
   || (cp =? 32) || (cp =? 160) || (cp =? 5760)
   || (8192 <=? cp) && (cp <=? 8202)
   || (cp =? 8232) || (cp =? 8233) || (cp =? 8239) || (cp =? 8287)
   || (cp =? 12288) || (cp =? 65279))%N.

(** [bytes] encode one code point, and it is white space. *)
Definition isWhiteSpace (bytes : list ascii) : bool :=
  match utf8_codePoint bytes with
  | Some cp => isStrWhiteSpace cp
  | None => false
  end.

(** The text without the white space it starts with. *)
Fixpoint dropWhiteSpace (l : list ascii) : list ascii :=
  match l with
  | c1 :: r1 =>
      if isWhiteSpace [c1] then dropWhiteSpace r1
      else
        match r1 with
        | c2 :: r2 =>
            if isWhiteSpace [c1; c2] then dropWhiteSpace r2
            else
              match r2 with
              | c3 :: r3 =>
                  if isWhiteSpace [c1; c2; c3] then dropWhiteSpace r3
                  else l
              | [] => l
              end
        | [] => l
        end
  | [] => l
  end.

(** The same from the end, on the bytes in reverse order. *)
Fixpoint dropWhiteSpaceEnd (l : list ascii) : list ascii :=
  match l with
  | c1 :: r1 =>
      if isWhiteSpace [c1] then dropWhiteSpaceEnd r1
      else
        match r1 with
        | c2 :: r2 =>
            if isWhiteSpace [c2; c1] then dropWhiteSpaceEnd r2
            else
              match r2 with
              | c3 :: r3 =>
                  if isWhiteSpace [c3; c2; c1] then dropWhiteSpaceEnd r3
                  else l
              | [] => l
              end
        | [] => l
        end
  | [] => l
  end.

(** [s.trim()] *)
Definition trim (s : string) : string :=
  string_of_list_ascii
    (rev (dropWhiteSpaceEnd
            (rev (dropWhiteSpace (list_ascii_of_string s))))).

(** ** Numbers

    A Number of this model is an integer that a double holds: the
    integers of absolute value below 2^53 and, beyond, the results of
    [toNumber].  The infinities, which only [parseInt] of a numeral of
    more than 308 digits produces, are written [2^1024] and [- 2^1024],
    the values the rounding reaches before it overflows. *)

(** The Number value of an integer: the nearest double, a tie going to
    the even significand, and an infinity from [2^1024] on. *)
Definition toNumber (z : Z) : Z :=
  let m := Z.abs z in
  let e := Z.log2 m - 52 in
  if e <=? 0 then z
  else
    let q := Z.shiftr m e in
    let r := m - Z.shiftl q e in
    let half := Z.shiftl 1 (e - 1) in
    let q' := if (half <? r) || ((half =? r) && Z.odd q) then q + 1
              else q in
    Z.sgn z * Z.min (Z.shiftl q' e) (2 ^ 1024).

(** [Number.isSafeInteger(n)] on an integer. *)
Definition isSafeInteger (n : Z) : bool := Z.abs n <? 2 ^ 53.

(** The decimal numeral of an integer, as a template literal prints a
    safe integer. *)
Definition numeral (n : Z) : string := NilZero.string_of_int (Z.to_int n).

(** [String(x)] for a Number [x] from [10^21] on is [d.ddde+k], with as
    few digits as read back as [x] and, among those, the nearest ones
    (Number::toString).  [shortestWith k m] is the value of the [k]
    digits printed for [m], if [k] digits are enough. *)
Definition decimalDigits (m : Z) : Z :=
  Z.of_nat (String.length (numeral m)).

Definition shortestWith (k : Z) (m : Z) : option Z :=
  let p := 10 ^ (decimalDigits m - k) in
  let lo := m / p * p in
  let hi := lo + p in
  let okLo := toNumber lo =? m in
  let okHi := toNumber hi =? m in
  if okLo && okHi
  then Some (if m - lo <? hi - m then lo
             else if hi - m <? m - lo then hi
             else if Z.even (lo / p) then lo else hi)
  else if okLo then Some lo
  else if okHi then Some hi
  else None.

Fixpoint shortest (tries : nat) (k : Z) (m : Z) : Z :=
  match tries with
  | O => m
  | S tries =>
      match shortestWith k m with
      | Some s => s
      | None => shortest tries (k + 1) m
      end
  end.

(** The digit before the point in [String(x)], for [x >= 10^21]; a
    double is read back from 17 digits. *)
Definition leadingDigit (m : Z) : Z :=
  let s := shortest 17 1 m in
  s / 10 ^ (decimalDigits s - 1).

(** ** [parseInt] with no radix argument

    The argument is converted to a string; leading white space is
    skipped, a sign is read, a [0x]/[0X] prefix selects radix 16, and the
    longest prefix of digits is read as an integer, whose Number value is
    the result.  [None] is [NaN]. *)

Definition skipWhiteSpace (s : string) : string :=
  string_of_list_ascii (dropWhiteSpace (list_ascii_of_string s)).

Definition digitValue (c : ascii) : option Z :=
  let n := Z.of_nat (nat_of_ascii c) in
  if (48 <=? n) && (n <=? 57) then Some (n - 48)
  else if (97 <=? n) && (n <=? 122) then Some (n - 87)
  else if (65 <=? n) && (n <=? 90) then Some (n - 55)
  else None.

Fixpoint readDigits (radix : Z) (s : string) (acc : option Z) : option Z :=
  match s with
  | String c rest =>
      match digitValue c with
      | Some d =>
          if d <? radix
          then readDigits radix rest
                 (Some (match acc with Some a => a * radix + d | None => d end))
          else acc
      | None => acc
      end
  | EmptyString => acc
  end.

Definition parseIntString (s : string) : option Z :=
  let s1 := skipWhiteSpace s in
  let '(sign, s2) :=
    match s1 with
    | String "-" rest => (-1, rest)
    | String "+" rest => (1, rest)
    | _ => (1, s1)
    end in
  let '(radix, s3) :=
    match s2 with
    | String "0" (String "x" rest) => (16, rest)
    | String "0" (String "X" rest) => (16, rest)
    | _ => (10, s2)
    end in
  match readDigits radix s3 None with
  | Some n => Some (sign * toNumber n)
  | None => None
  end.

(** [parseInt(v)].  A Number prints as its digits below [10^21], which
    read back as the Number, and as [d.ddde+k] from there on, of which
    [d] is read; an infinity, [undefined], [null], booleans and dates
    print as text that starts with a letter.  An integer that no double
    holds stands for the nearest double, as when JSON is parsed. *)
Definition parseInt (v : value) : option Z :=
  match v with
  | Num n =>
      let x := toNumber n in
      if 2 ^ 1024 <=? Z.abs x then None
      else if Z.abs x <? 10 ^ 21 then Some x
      else Some (Z.sgn x * leadingDigit (Z.abs x))
  | Str s => parseIntString s
  | Undefined | Null | Bool _ | Date _ => None
  end.

(** [n || 0] on a number: [NaN] and [0] both give [0]. *)
Definition or_zero (n : option Z) : Z :=
  match n with
  | Some k => k
  | None => 0
  end.

(** ** Messages *)

Record message : Type := mkMessage {
  id : value;
  agentId : value;
  sender : value;
  text : value;
  timestamp : value;
  progressPercent : value;
  taskId : value;
  taskTitle : value;
  taskStatus : value;
  isThinking : value;
  isError : value
}.

(** [{ ...msg, timestamp }] *)
Definition with_timestamp (msg : message) (ts : value) : message :=
  mkMessage (id msg) (agentId msg) (sender msg) (text msg) ts
    (progressPercent msg) (taskId msg) (taskTitle msg) (taskStatus msg)
    (isThinking msg) (isError msg).

(** [{ ...msg, id }] *)
Definition with_id (msg : message) (i : value) : message :=
  mkMessage i (agentId msg) (sender msg) (text msg) (timestamp msg)
    (progressPercent msg) (taskId msg) (taskTitle msg) (taskStatus msg)
    (isThinking msg) (isError msg).

(** ** [Map]: insertion-ordered, one entry per key *)

Definition Map : Type := list (value * message).

Fixpoint map_get (k : value) (m : Map) : option message :=
  match m with
  | [] => None
  | (k', v) :: rest => if strict_eq k k' then Some v else map_get k rest
  end.

(** [map.set(k, v)]: an existing key keeps its place, a new key goes to
    the end. *)
Fixpoint map_set (k : value) (v : message) (m : Map) : Map :=
  match m with
  | [] => [(k, v)]
  | (k', v') :: rest =>
      if strict_eq k k' then (k, v) :: rest else (k', v') :: map_set k v rest
  end.

(** [new Map(entries)] *)
Definition Map_new (entries : list (value * message)) : Map :=
  fold_left (fun m e => map_set (fst e) (snd e) m) entries [].

(** [prev.map((msg) => [msg.id, msg])] *)
Definition entries (prev : list message) : list (value * message) :=
  List.map (fun msg => (id msg, msg)) prev.

(** [Array.from(map.values())] *)
Definition map_values (m : Map) : list message := List.map snd m.

Definition map_keys (m : Map) : list value := List.map fst m.

(** ** [Array.prototype.sort] and [slice]

    [sort] is stable; for a consistent comparator its result is fixed by
    the specification, and insertion from the right computes it. *)

Section Sorting.
Context {A : Type}.
Variable compareFn : A -> A -> Z.

Fixpoint sort_insert (x : A) (l : list A) : list A :=
  match l with
  | [] => [x]
  | y :: rest =>
      if compareFn x y <=? 0 then x :: l else y :: sort_insert x rest
  end.

Fixpoint sort (l : list A) : list A :=
  match l with
  | [] => []
  | x :: rest => sort_insert x (sort rest)
  end.
End Sorting.

(** [l.slice(-n)] *)
Definition slice_last {A : Type} (n : nat) (l : list A) : list A :=
  skipn (length l - n) l.

(** The comparator of the sort in [upsertMessages].  The difference is
    taken over the integers: it is the difference of the two Numbers
    whenever that is a safe integer, and has its sign otherwise, which
    is what [sort] reads ([NaN], the difference of two equal infinities,
    is read as 0). *)
Definition compareTaskId (a b : message) : Z :=
  let taskIdA := or_zero (parseInt (taskId a)) in
  let taskIdB := or_zero (parseInt (taskId b)) in
  taskIdA - taskIdB.

(** The comparator of the earlier revision of the component, which
    sorted by time: [a.timestamp.getTime() - b.timestamp.getTime()].
    Stored timestamps are dates; on another value [getTime] does not
    exist, and the default below is never reached from the store. *)
Definition getTime (v : value) : Z :=
  match v with
  | Date ms => ms
  | _ => 0
  end.

Definition compareTimestamp (a b : message) : Z :=
  getTime (timestamp a) - getTime (timestamp b).

(** The key that comparator sorts by: [compareTaskId a b] is
    [taskKey a - taskKey b]. *)
Definition taskKey (a : message) : Z := or_zero (parseInt (taskId a)).

Definition compareBy {A : Type} (key : A -> Z) (a b : A) : Z := key a - key b.

Definition keyLe {A : Type} (key : A -> Z) (a b : A) : Prop :=
  key a <= key b.

(** ** The clock *)

Definition Clock (A : Type) : Type := nat -> A * nat.

Definition ret {A : Type} (a : A) : Clock A := fun t => (a, t).

Definition bind {A B : Type} (c : Clock A) (k : A -> Clock B) : Clock B :=
  fun t => let '(a, t') := c t in k a t'.

Notation "x <- c ;; k" := (bind c (fun x => k))
  (at level 61, c at next level, right associativity).

Fixpoint forEach {A S : Type} (l : list A) (f : A -> S -> Clock S) (s : S)
  : Clock S :=
  match l with
  | [] => ret s
  | a :: rest => s' <- f a s ;; forEach rest f s'
  end.

(** ** Network results

    What the two awaits of a request, [fetch(url)] and
    [response.json()], deliver.  A body that parses is a JSON object, as
    both endpoints answer. *)

Record exn : Type := mkExn {
  exn_name : string;
  exn_message : string
}.

(** [new Error(message)] *)
Definition Error (message : string) : exn := mkExn "Error" message.

(** [String(error)] *)
Definition exn_toString (e : exn) : string :=
  if String.eqb (exn_message e) "" then exn_name e
  else if String.eqb (exn_name e) "" then exn_message e
  else (exn_name e ++ ": " ++ exn_message e)%string.

Inductive json (A : Type) : Type :=
| JsonError (e : exn)
| JsonData (data : A).
Arguments JsonError {A} e.
Arguments JsonData {A} data.

Inductive fetched (A : Type) : Type :=
| Rejected (e : exn)
| Responded (contentTypeJson : bool) (ok : bool) (body : json A).
Arguments Rejected {A} e.
Arguments Responded {A} contentTypeJson ok body.

(** An item of [data.messages]. *)
Record task_ref : Type := mkTask {
  task_id_ : value;
  task_title : value;
  task_status : value
}.

Record raw_item : Type := mkItem {
  item_id : value;
  item_agent_id : value;
  item_message : value;
  item_timestamp : value;
  item_progress_percent : value;
  item_task : option task_ref;
  item_task_id : value
}.

(** The body of [GET /chat/agent-responses]; [data_messages] is [None]
    when [data.messages] is not an array, and an element is [None] when it
    is [null]. *)
Record poll_data : Type := mkPollData {
  poll_detail : option string;
  data_messages : option (list (option raw_item))
}.

(** The body of [POST /chat/send]. *)
Record send_data : Type := mkSendData {
  send_detail : option string;
  message_id : value
}.

(** [detail || fallback] on a string detail. *)
Definition detail_or (detail : option string) (fallback : string) : string :=
  match detail with
  | Some s => if String.eqb s "" then fallback else s
  | None => fallback
  end.

(** ** Component state *)

Record state : Type := mkState {
  messages : list message;
  lastFetchTimeRef : option Z;
  historyError : option string;
  historyLoading : bool;
  abortRef : bool;
  isLoading : bool;
  isAuthenticated : bool;
  inputValue : string
}.

Definition initial_state : state :=
  mkState [] None None true false false false "".

Definition setMessages (f : list message -> list message) (st : state)
  : state :=
  mkState (f (messages st)) (lastFetchTimeRef st) (historyError st)
    (historyLoading st) (abortRef st) (isLoading st) (isAuthenticated st)
    (inputValue st).

Definition set_lastFetchTimeRef (c : option Z) (st : state) : state :=
  mkState (messages st) c (historyError st) (historyLoading st) (abortRef st)
    (isLoading st) (isAuthenticated st) (inputValue st).

Definition setHistoryError (e : option string) (st : state) : state :=
  mkState (messages st) (lastFetchTimeRef st) e (historyLoading st)
    (abortRef st) (isLoading st) (isAuthenticated st) (inputValue st).

Definition setHistoryLoading (b : bool) (st : state) : state :=
  mkState (messages st) (lastFetchTimeRef st) (historyError st) b
    (abortRef st) (isLoading st) (isAuthenticated st) (inputValue st).

Definition set_abortRef (b : bool) (st : state) : state :=
  mkState (messages st) (lastFetchTimeRef st) (historyError st)
    (historyLoading st) b (isLoading st) (isAuthenticated st) (inputValue st).

Definition setIsLoading (b : bool) (st : state) : state :=
  mkState (messages st) (lastFetchTimeRef st) (historyError st)
    (historyLoading st) (abortRef st) b (isAuthenticated st) (inputValue st).

Definition setIsAuthenticated (b : bool) (st : state) : state :=
  mkState (messages st) (lastFetchTimeRef st) (historyError st)
    (historyLoading st) (abortRef st) (isLoading st) b (inputValue st).

Definition setInputValue (s : string) (st : state) : state :=
  mkState (messages st) (lastFetchTimeRef st) (historyError st)
    (historyLoading st) (abortRef st) (isLoading st) (isAuthenticated st) s.

(** [array.filter(Boolean)] on results that are an object or [null]. *)
Fixpoint filter_Boolean {A : Type} (l : list (option A)) : list A :=
  match l with
  | [] => []
  | Some a :: rest => a :: filter_Boolean rest
  | None :: rest => filter_Boolean rest
  end.

(** [prev.filter((msg) => !msg.isThinking)] *)
Definition dropThinking (prev : list message) : list message :=
  filter (fun msg => negb (truthy (isThinking msg))) prev.

(** The state update of the acknowledged branch of [handleSubmit]:
    placeholders are filtered out and the optimistic message takes the
    server's id. *)
Definition acknowledge (userMessage : message) (data : send_data)
    (prev : list message) : list message :=
  let filtered := dropThinking prev in
  List.map
    (fun msg =>
       if strict_eq (id msg) (id userMessage)
       then with_id msg (js_or (message_id data) (id msg))
       else msg)
    filtered.

(** The three messages [handleSubmit] builds, from the readings of the
    clock that go into them. *)
Definition new_userMessage (now : Z) (taskText : string) (ts : value)
  : message :=
  mkMessage (Str ("user-" ++ numeral now)) Undefined (Str "user")
    (Str taskText) ts Undefined Undefined Undefined Undefined Undefined
    Undefined.

Definition new_thinkingMessage (now : Z) (ts : value) : message :=
  mkMessage (Str ("thinking-" ++ numeral now)) Undefined (Str "system")
    (Str "Sending task to agents...") ts Undefined Undefined Undefined
    Undefined (Bool true) Undefined.

Definition new_errorMessage (now : Z) (error : exn) (ts : value) : message :=
  mkMessage (Str ("error-" ++ numeral now)) Undefined (Str "system")
    (Str ("Error: " ++ (if String.eqb (exn_message error) ""
                        then exn_toString error
                        else exn_message error)))
    ts Undefined Undefined Undefined Undefined Undefined (Bool true).

(** ** What happens to the component

    A settled poll, a direct upsert, the two halves of a submission, and
    the events that change the guards. *)

Inductive action : Type :=
| Poll (isInitial : bool) (response : fetched poll_data)
| Upsert (incoming : list (option message)) (restampNew : bool)
| SubmitBegin
| SubmitResume (userMessage : message) (response : fetched send_data)
| TypeInput (s : string)
| PasswordAccepted
| Unmount
| Mount.

(** ** Failed requests

    A request fails when [fetch] rejects, when the content type is not
    JSON, when the body does not parse, or when the status is not a
    success. *)

Definition requestFails {A : Type} (response : fetched A) : bool :=
  match response with
  | Rejected _ => true
  | Responded contentTypeJson ok body =>
      negb contentTypeJson
      || match body with
         | JsonError _ => true
         | JsonData _ => negb ok
         end
  end.

(** ** Sample data for the worked cases *)

(** A clock that starts at 1000 ms and advances by one at each reading. *)
Definition wall (n : nat) : Z := 1000 + Z.of_nat n.

(** A [Date.parse] that accepts no string. *)
Definition no_parse (s : string) : option Z := None.

(** A normalized agent message. *)
Definition agentMsg (i ts task : value) : message :=
  mkMessage i (Str "unknown") (Str "agent") (Str "") ts Undefined task
    Undefined Undefined Undefined Undefined.

(** [count] agent messages with ids [first], [first + 1], ..., all of
    task [task] and time [ts]. *)
Definition agentMsgs (first : nat) (count : nat) (ts task : value)
  : list message :=
  List.map (fun i => agentMsg (Num (Z.of_nat i)) ts task) (seq first count).

(** Two agent messages without a task id: ["a"] observed at 20 ms, ["b"]
    at 10 ms. *)
Definition late_a : message := agentMsg (Str "a") (Date 20) Undefined.
Definition early_b : message := agentMsg (Str "b") (Date 10) Undefined.

(** Two events of the same time, and two events with task ids whose
    times run the other way. *)
Definition same_time_b : message := agentMsg (Str "b") (Date 10) Undefined.
Definition same_time_a : message := agentMsg (Str "a") (Date 10) Undefined.
Definition task2_at_10 : message := agentMsg (Str "x") (Date 10) (Num 2).
Definition task1_at_20 : message := agentMsg (Str "y") (Date 20) (Num 1).

(** A store of 49 agent messages of task 5, and a batch of two messages
    that have no task id. *)
Definition store49 : list message := agentMsgs 0 49 (Date 1) (Num 5).
Definition batch2 : list (option message) :=
  [Some (agentMsg (Num 100) (Date 2) Undefined);
   Some (agentMsg (Num 101) (Date 3) Undefined)].

(** A full store: 50 agent messages of task 5, with the ids 0 to 49. *)
Definition store50 : list message := agentMsgs 0 50 (Date 1) (Num 5).

(** A session: the user signs in, types ["hi"] and submits. *)
Definition submit_hi : list action :=
  [PasswordAccepted; TypeInput "hi"; SubmitBegin].

(** The optimistic message of that submission under the clock [wall]. *)
Definition optimistic_hi : message :=
  new_userMessage 1001 "hi" (Date 1002).

(** The server's answer to it, and a poll that delivers the same id. *)
Definition ack_m500 : send_data := mkSendData None (Str "m-500").

Definition poll_m500 : poll_data :=
  mkPollData None
    (Some [Some (mkItem (Str "m-500") Undefined (Str "hi") (Num 990)
                   Undefined None Undefined)]).

(** A poll body with two items, the older one first. *)
Definition poll_10_20 : poll_data :=
  mkPollData None
    (Some [Some (mkItem (Num 1) Undefined (Str "one") (Num 10) Undefined
                   None Undefined);
           Some (mkItem (Num 2) Undefined (Str "two") (Num 20) Undefined
                   None Undefined)]).

Definition failed_to_fetch : exn := mkExn "TypeError" "Failed to fetch".

(** ** The ordering policy of the specification

    The policy as the specification words it, to compare the code's view
    with: the task ordinal when both events have one, then the
    timestamp, then the id as text. *)

Definition id_text (v : value) : string :=
  match v with
  | Str s => s
  | Num n => numeral n
  | _ => ""
  end.

Definition spec_time_then_id (a b : message) : bool :=
  match timestamp a, timestamp b with
  | Date ta, Date tb =>
      if ta <? tb then true
      else if tb <? ta then false
      else String.ltb (id_text (id a)) (id_text (id b))
  | _, _ => String.ltb (id_text (id a)) (id_text (id b))
  end.

(** [spec_precedes a b]: the specification's policy puts [a] strictly
    before [b]. *)
Definition spec_precedes (a b : message) : bool :=
  match parseInt (taskId a), parseInt (taskId b) with
  | Some ka, Some kb =>
      if ka <? kb then true
      else if kb <? ka then false
      else spec_time_then_id a b
  | _, _ => spec_time_then_id a b
  end.

(** The element of [incoming] that the loop body stores, if it does. *)
Definition stored (msg : option message) : option message :=
  match msg with
  | Some m => if nullish (id m) then None else Some m
  | None => None
  end.

(** The last element of [incoming] that the loop stores under the key
    [k]. *)
Fixpoint last_with_id (incoming : list (option message)) (k : value)
  : option message :=
  match incoming with
  | [] => None
  | x :: rest =>
      match last_with_id rest k with
      | Some m => Some m
      | None =>
          match x with
          | Some m =>
              if negb (nullish (id m)) && strict_eq (id m) k
              then Some m else None
          | None => None
          end
      end
  end.

(** Every value of the map sits under its own id. *)
Definition keyed (m : Map) : Prop :=
  Forall (fun e => id (snd e) = fst e) m.

Section Client.
(** The readings of the wall clock, in milliseconds. *)
Variable clock : nat -> Z.
(** [Date.parse]: the time a string denotes, [None] when it gives an
    invalid date. *)
Variable Date_parse : string -> option Z.

(** [new Date()] *)
Definition new_Date : Clock value := fun t => (Date (clock t), S t).

(** [Date.now()] *)
Definition Date_now : Clock Z := fun t => (clock t, S t).

(** chatUtils.js, [ensureDate] *)
Definition ensureDate (val : value) : Clock value :=
  match val with
  | Date _ => ret val
  | Str s =>
      match Date_parse s with
      | Some ms => ret (Date ms)
      | None => new_Date
      end
  | Num n =>
      if Z.abs n <=? 8640000000000000 then ret (Date n) else new_Date
  | Undefined | Null | Bool _ => new_Date
  end.

(** The values on which [ensureDate] does not fall back to
    [new Date()]. *)
Definition carriesTime (val : value) : bool :=
  match val with
  | Date _ => true
  | Str s => match Date_parse s with Some _ => true | None => false end
  | Num n => Z.abs n <=? 8640000000000000
  | Undefined | Null | Bool _ => false
  end.

(** An element of [incoming] that the loop skips or that carries a
    time. *)
Definition clockFree (msg : option message) : bool :=
  match msg with
  | None => true
  | Some m => nullish (id m) || carriesTime (timestamp m)
  end.

(** The body of [incoming.forEach] in [upsertMessages]; [None] is a
    falsy element of the array. *)
Definition mergeIncoming (restampNew : bool) (msg : option message)
    (map : Map) : Clock Map :=
  match msg with
  | None => ret map
  | Some msg =>
      if nullish (id msg) then ret map
      else
        ts <- ensureDate (timestamp msg) ;;
        ts' <- (if restampNew
                then match map_get (id msg) map with
                     | Some existing => ret (timestamp existing)
                     | None => new_Date
                     end
                else ret ts) ;;
        ret (map_set (id msg) (with_timestamp msg ts') map)
  end.

(** The map after the [forEach] of [upsertMessages]. *)
Definition mergedMap (incoming : list (option message)) (restampNew : bool)
    (prev : list message) : Clock Map :=
  forEach incoming (mergeIncoming restampNew) (Map_new (entries prev)).

Definition sortedMessages (map : Map) : list message :=
  sort compareTaskId (map_values map).

(** [upsertMessages(incoming, { restampNew })] as the state update it
    queues: the new value of [messages] from the previous one. *)
Definition upsertMessages (incoming : list (option message))
    (restampNew : bool) (prev : list message) : Clock (list message) :=
  match incoming with
  | [] => ret prev
  | _ :: _ =>
      map <- mergedMap incoming restampNew prev ;;
      ret (slice_last 50 (sortedMessages map))
  end.

(** chatUtils.js, [buildAgentMessage]; [None] is [null]. *)
Definition buildAgentMessage (item : option raw_item)
  : Clock (option message) :=
  match item with
  | None => ret None
  | Some item =>
      if negb (truthy (item_id item)) then ret None
      else
        ts <- ensureDate (item_timestamp item) ;;
        ret (Some
          (mkMessage
             (item_id item)
             (js_or (item_agent_id item) (Str "unknown"))
             (Str "agent")
             (js_or (item_message item) (Str ""))
             ts
             (item_progress_percent item)
             (js_or (match item_task item with
                     | Some t => task_id_ t
                     | None => Undefined
                     end)
                    (item_task_id item))
             (match item_task item with
              | Some t => task_title t
              | None => Undefined
              end)
             (match item_task item with
              | Some t => task_status t
              | None => Undefined
              end)
             Undefined Undefined))
  end.

(** [items.map(buildAgentMessage)] *)
Fixpoint map_buildAgentMessage (items : list (option raw_item))
  : Clock (list (option message)) :=
  match items with
  | [] => ret []
  | item :: rest =>
      m <- buildAgentMessage item ;;
      ms <- map_buildAgentMessage rest ;;
      ret (m :: ms)
  end.

(** The [since] parameter of the request URL of
    [fetchAgentResponses(isInitial)]; the cursor is the ISO rendering of
    a time, kept here as the time. *)
Definition since_parameter (isInitial : bool) (st : state) : option Z :=
  if negb isInitial then lastFetchTimeRef st else None.

(** The [try] block of [fetchAgentResponses] from the first await on:
    the state it leaves and the exception it throws, if any. *)
Definition fetchAgentResponses_try (isInitial : bool)
    (response : fetched poll_data) (st : state)
  : Clock (state * option exn) :=
  match response with
  | Rejected e => ret (st, Some e)
  | Responded contentTypeJson ok body =>
      if negb contentTypeJson
      then ret (st, Some (Error "Received non-JSON response from server"))
      else
        match body with
        | JsonError e => ret (st, Some e)
        | JsonData data =>
            if negb ok
            then ret (st, Some (Error (detail_or (poll_detail data)
                                         "Failed to load agent responses")))
            else if abortRef st then ret (st, None)
            else
              mapped <- map_buildAgentMessage
                          (match data_messages data with
                           | Some items => items
                           | None => []
                           end) ;;
              let normalized := filter_Boolean mapped in
              st1 <- match normalized with
                     | [] => ret st
                     | latest :: _ =>
                         ms <- upsertMessages
                                 (List.map Some normalized)
                                 (negb isInitial) (messages st) ;;
                         let st' := setMessages (fun _ => ms) st in
                         ret (match timestamp latest with
                              | Date ms => set_lastFetchTimeRef (Some ms) st'
                              | _ => st'
                              end)
                     end ;;
              ret (setHistoryError None st1, None)
        end
  end.

(** [fetchAgentResponses(isInitial)] once its request has settled with
    [response]: [try], [catch], [finally]. *)
Definition fetchAgentResponses (isInitial : bool)
    (response : fetched poll_data) (st : state) : Clock state :=
  r <- fetchAgentResponses_try isInitial response st ;;
  let '(st1, thrown) := r in
  let st2 :=
    match thrown with
    | None => st1
    | Some error =>
        if abortRef st1 then st1
        else setHistoryError
               (Some (if String.eqb (exn_message error) ""
                      then "Unable to load agent responses"%string
                      else exn_message error))
               st1
    end in
  ret (if negb (abortRef st2) then setHistoryLoading false st2 else st2).

(** [handleSubmit] up to its await: the guards, the optimistic user
    message and the placeholder.  The second component is the
    [userMessage] the continuation closes over, [None] when a guard
    returned. *)
Definition handleSubmit_begin (st : state)
  : Clock (state * option message) :=
  if negb (isAuthenticated st) then ret (st, None)
  else if String.eqb (trim (inputValue st)) "" || isLoading st
  then ret (st, None)
  else
    let taskText := trim (inputValue st) in
    _taskTimestamp <- new_Date ;;
    userNow <- Date_now ;;
    userTs <- new_Date ;;
    let userMessage := new_userMessage userNow taskText userTs in
    ms1 <- upsertMessages [Some userMessage] false
             (messages st) ;;
    let st1 := setIsLoading true
                 (setInputValue "" (setMessages (fun _ => ms1) st)) in
    thinkingNow <- Date_now ;;
    thinkingTs <- new_Date ;;
    let thinkingMessage := new_thinkingMessage thinkingNow thinkingTs in
    ms2 <- upsertMessages [Some thinkingMessage] false
             (messages st1) ;;
    ret (setMessages (fun _ => ms2) st1, Some userMessage).

(** The [try] block of [handleSubmit] from its await on. *)
Definition handleSubmit_try (userMessage : message)
    (response : fetched send_data) (st : state) : state * option exn :=
  match response with
  | Rejected e => (st, Some e)
  | Responded contentTypeJson ok body =>
      if negb contentTypeJson
      then (st, Some (Error "Received non-JSON response from server"))
      else
        match body with
        | JsonError e => (st, Some e)
        | JsonData data =>
            let st1 := setMessages (acknowledge userMessage data) st in
            if negb ok
            then (st1, Some (Error (detail_or (send_detail data)
                                      "Failed to send message")))
            else (st1, None)
        end
  end.

(** The [catch] block of [handleSubmit]. *)
Definition handleSubmit_catch (error : exn) (st : state) : Clock state :=
  let st1 := setMessages dropThinking st in
  errorNow <- Date_now ;;
  errorTs <- new_Date ;;
  let errorMessage := new_errorMessage errorNow error errorTs in
  ms <- upsertMessages [Some errorMessage] false
          (messages st1) ;;
  ret (setMessages (fun _ => ms) st1).

(** [handleSubmit] once its request has settled with [response]. *)
Definition handleSubmit_resume (userMessage : message)
    (response : fetched send_data) (st : state) : Clock state :=
  let '(st1, thrown) := handleSubmit_try userMessage response st in
  st2 <- match thrown with
         | None => ret st1
         | Some error => handleSubmit_catch error st1
         end ;;
  ret (setIsLoading false st2).

(** ** Sessions: the component's life, action by action *)

Definition step (a : action) (st : state) : Clock state :=
  match a with
  | Poll isInitial response => fetchAgentResponses isInitial response st
  | Upsert incoming restampNew =>
      ms <- upsertMessages incoming restampNew
              (messages st) ;;
      ret (setMessages (fun _ => ms) st)
  | SubmitBegin => r <- handleSubmit_begin st ;; ret (fst r)
  | SubmitResume userMessage response =>
      handleSubmit_resume userMessage response st
  | TypeInput s => ret (setInputValue s st)
  | PasswordAccepted => ret (setIsAuthenticated true st)
  | Unmount => ret (set_abortRef true st)
  | Mount => ret (set_abortRef false st)
  end.

Definition run (actions : list action) (st : state) : Clock state :=
  forEach actions step st.

(** ** The rest of the component and of chatUtils.js *)

(** The elements of [incoming] that the loop of [upsertMessages] stores,
    in order. *)
Definition storedOf (incoming : list (option message)) : list message :=
  filter_Boolean (List.map stored incoming).

(** An item of [data.messages] that [buildAgentMessage] keeps: an object
    with a truthy id. *)
Definition usableItem (item : option raw_item) : bool :=
  match item with
  | Some item => truthy (item_id item)
  | None => false
  end.

(** The items of a response that [buildAgentMessage] keeps, in order. *)
Fixpoint usableItems (items : list (option raw_item)) : list raw_item :=
  match items with
  | [] => []
  | Some item :: rest =>
      if truthy (item_id item) then item :: usableItems rest
      else usableItems rest
  | None :: rest => usableItems rest
  end.

(** ChatTerminal.jsx, [handlePasswordSubmit]: the password form and the
    component state it gates. *)
Record password_form : Type := mkForm {
  passwordInput : string;
  passwordError : string
}.

Definition handlePasswordSubmit (form : password_form) (st : state)
  : password_form * state :=
  if String.eqb (passwordInput form) "jubilee"
  then (mkForm "" "", setIsAuthenticated true st)
  else (mkForm "" "Incorrect password. Please try again.", st).

(** The user types [typed] into the password field and submits the
    form. *)
Definition attemptPassword (typed : string)
    (s : password_form * state) : password_form * state :=
  handlePasswordSubmit (mkForm typed (passwordError (fst s))) (snd s).

Definition attemptPasswords (attempts : list string)
    (s : password_form * state) : password_form * state :=
  fold_left (fun s typed => attemptPassword typed s) attempts s.

(** A string of white space only, the empty string included: nothing is
    left when the white space it starts with is dropped. *)
Definition blank (s : string) : bool :=
  match dropWhiteSpace (list_ascii_of_string s) with
  | [] => true
  | _ :: _ => false
  end.

(** ** chatUtils.js: percentages

    The numbers of this part are the values of doubles, which are
    rationals or an infinity; [None] is [NaN].  [Math.min], [Math.max] and
    [Math.round] are exact on them.  How [parseFloat] reads a string is
    the platform's, and is a parameter. *)

Inductive number : Type :=
| Finite (q : Q)
| PlusInfinity
| MinusInfinity.

Definition number_leb (a b : number) : bool :=
  match a, b with
  | MinusInfinity, _ => true
  | _, PlusInfinity => true
  | Finite p, Finite q => Qle_bool p q
  | _, _ => false
  end.

Definition Math_min (a b : number) : number :=
  if number_leb a b then a else b.

Definition Math_max (a b : number) : number :=
  if number_leb a b then b else a.

(** The results of [Math.round]: integers and the infinities. *)
Inductive integral : Type :=
| Whole (k : Z)
| WholePlusInfinity
| WholeMinusInfinity.

(** [Math.round(x)]: the nearest integer, a tie going up. *)
Definition Math_round (x : number) : integral :=
  match x with
  | Finite q => Whole (Qfloor (q + (1 # 2)))
  | PlusInfinity => WholePlusInfinity
  | MinusInfinity => WholeMinusInfinity
  end.

(** [`${k}`] *)
Definition integral_toString (k : integral) : string :=
  match k with
  | Whole k => numeral k
  | WholePlusInfinity => "Infinity"
  | WholeMinusInfinity => "-Infinity"
  end.

(** [parseFloat] on a string. *)
Variable parseFloat_string : string -> option number.

(** [parseFloat(v)] *)
Definition parseFloat (v : value) : option number :=
  match v with
  | Num n => Some (Finite (inject_Z n))
  | Str s => parseFloat_string s
  | Undefined | Null | Bool _ | Date _ => None
  end.

(** chatUtils.js, [normalizePercent] *)
Definition normalizePercent (val : value) : option number :=
  if nullish val || strict_eq val (Str "") then None
  else
    match parseFloat val with
    | None => None
    | Some num => Some (Math_max (Finite 0) (Math_min (Finite 100) num))
    end.

(** chatUtils.js, [formatPercentLabel] *)
Definition formatPercentLabel (val : value) : option string :=
  match normalizePercent val with
  | Some p => Some (integral_toString (Math_round p) ++ "%")%string
  | None => None
  end.


(** ** Sample data for the worked cases of this part *)

(** A [parseFloat] that reads the one string ["45.5"]. *)
Definition reads_45_5 (s : string) : option number :=
  if String.eqb s "45.5" then Some (Finite (91 # 2)) else None.

(** A no-break space (U+00A0) and a line separator (U+2028), in
    UTF-8. *)
Definition nbsp : string := String "194" (String "160" EmptyString).
Definition line_separator : string :=
  String "226" (String "128" (String "168" EmptyString)).

(** A component whose user has signed in and typed ["hi"] between a
    no-break space and a space. *)
Definition typed_hi : list action :=
  [PasswordAccepted; TypeInput (nbsp ++ "hi ")].

(** A component whose user has signed in and typed white space only: a
    space, a no-break space and a line separator. *)
Definition typed_blank : list action :=
  [PasswordAccepted; TypeInput (" " ++ nbsp ++ line_separator)].

(** A poll body without a usable item: a [null] and an item without
    id. *)
Definition poll_unusable : poll_data :=
  mkPollData None
    (Some [None;
           Some (mkItem Undefined Undefined (Str "lost") (Num 10) Undefined
                   None Undefined)]).

(** * Properties *)

(** ** Sorting by an integer key *)

Section SortByKey.
Context {A : Type}.
Variable key : A -> Z.

Lemma sort_insert_perm (x : A) (l : list A) :
  Permutation (x :: l) (sort_insert (compareBy key) x l).
Proof.
  induction l as [|y l IH]; simpl; [reflexivity|].
  destruct ((compareBy key) x y <=? 0); [reflexivity|].
  rewrite perm_swap. now constructor.
Qed.

Lemma sort_perm (l : list A) : Permutation l (sort (compareBy key) l).
Proof.
  induction l as [|x l IH]; simpl; [constructor|].
  rewrite <- sort_insert_perm. now constructor.
Qed.

Lemma sort_insert_sorted (x : A) (l : list A) :
  StronglySorted (keyLe key) l ->
  StronglySorted (keyLe key) (sort_insert (compareBy key) x l).
Proof.
  induction 1 as [|y l Hl IH Hy]; simpl.
  - repeat constructor.
  - destruct (Z.leb_spec ((compareBy key) x y) 0) as [Hxy|Hxy];
      unfold compareBy, keyLe in *.
    + constructor; [now constructor|].
      constructor; [lia|].
      rewrite Forall_forall in *. intros z Hz. specialize (Hy z Hz). lia.
    + constructor; [assumption|].
      rewrite Forall_forall in *. intros z Hz.
      apply (Permutation_in _ (Permutation_sym (sort_insert_perm x l))) in Hz.
      destruct Hz as [<-|Hz]; [lia|now apply Hy].
Qed.

Lemma sort_sorted (l : list A) :
  StronglySorted (keyLe key) (sort (compareBy key) l).
Proof.
  induction l as [|x l IH]; simpl; [constructor|].
  now apply sort_insert_sorted.
Qed.

(** Inserting in front of a list that is sorted and not below [x] puts
    [x] first. *)
Lemma sort_insert_head (x : A) (l : list A) :
  Forall ((keyLe key) x) l -> sort_insert (compareBy key) x l = x :: l.
Proof.
  destruct l as [|y l]; simpl; [reflexivity|].
  intros H. inversion_clear H as [|? ? Hxy _].
  unfold compareBy, keyLe in *.
  destruct (Z.leb_spec (key x - key y) 0); [reflexivity|lia].
Qed.

Lemma sort_of_sorted (l : list A) :
  StronglySorted (keyLe key) l -> sort (compareBy key) l = l.
Proof.
  induction 1 as [|x l Hl IH Hx]; simpl; [reflexivity|].
  rewrite IH. now apply sort_insert_head.
Qed.

Lemma sort_idempotent (l : list A) :
  sort (compareBy key) (sort (compareBy key) l) = sort (compareBy key) l.
Proof. apply sort_of_sorted, sort_sorted. Qed.

(** Stability: the elements of one key keep the order they came in. *)
Lemma sort_insert_stable (k : Z) (x : A) (l : list A) :
  StronglySorted (keyLe key) l ->
  filter (fun a => key a =? k) (sort_insert (compareBy key) x l)
  = filter (fun a => key a =? k) (x :: l).
Proof.
  induction 1 as [|y l Hl IH Hy]; [reflexivity|].
  cbn [sort_insert].
  destruct (Z.leb_spec ((compareBy key) x y) 0) as [Hxy|Hxy]; [reflexivity|].
  unfold compareBy, keyLe in *.
  cbn [filter] in *. rewrite IH.
  destruct (Z.eqb_spec (key y) k), (Z.eqb_spec (key x) k);
    try reflexivity; lia.
Qed.

Lemma sort_stable (k : Z) (l : list A) :
  filter (fun a => key a =? k) (sort (compareBy key) l)
  = filter (fun a => key a =? k) l.
Proof.
  induction l as [|x l IH]; [reflexivity|].
  cbn [sort]. rewrite sort_insert_stable by apply sort_sorted.
  cbn [filter]. now rewrite IH.
Qed.

Lemma sort_length (l : list A) :
  length (sort (compareBy key) l) = length l.
Proof. symmetry. apply Permutation_length, sort_perm. Qed.

Lemma sort_In (x : A) (l : list A) :
  In x (sort (compareBy key) l) <-> In x l.
Proof.
  split; apply Permutation_in; [symmetry|]; apply sort_perm.
Qed.
End SortByKey.

(** ** [slice(-n)] *)

Lemma slice_last_length {A : Type} (n : nat) (l : list A) :
  (length (slice_last n l) <= n)%nat.
Proof. unfold slice_last. rewrite length_skipn. lia. Qed.

Lemma slice_last_suffix {A : Type} (n : nat) (l : list A) :
  l = firstn (length l - n) l ++ slice_last n l.
Proof. unfold slice_last. now rewrite firstn_skipn. Qed.

Lemma slice_last_all {A : Type} (n : nat) (l : list A) :
  (length l <= n)%nat -> slice_last n l = l.
Proof.
  intros H. unfold slice_last.
  replace (length l - n)%nat with 0%nat by lia. reflexivity.
Qed.

Lemma slice_last_In {A : Type} (n : nat) (l : list A) (x : A) :
  In x (slice_last n l) -> In x l.
Proof.
  intros H. rewrite (slice_last_suffix n l). apply in_or_app. now right.
Qed.

(** ** The insertion-ordered map *)

Lemma strict_eq_refl (a : value) : strict_eq a a = true.
Proof. unfold strict_eq. now destruct (value_eq_dec a a). Qed.

Lemma strict_eq_spec (a b : value) : reflect (a = b) (strict_eq a b).
Proof. unfold strict_eq. destruct (value_eq_dec a b); now constructor. Qed.

Lemma map_get_set_same (k : value) (v : message) (m : Map) :
  map_get k (map_set k v m) = Some v.
Proof.
  induction m as [|[k' v'] m IH]; simpl.
  - now rewrite strict_eq_refl.
  - destruct (strict_eq_spec k k') as [->|Hne]; simpl.
    + now rewrite strict_eq_refl.
    + destruct (strict_eq_spec k k'); [contradiction|assumption].
Qed.

Lemma map_get_set_other (k k' : value) (v : message) (m : Map) :
  k <> k' -> map_get k' (map_set k v m) = map_get k' m.
Proof.
  intros Hne. induction m as [|[k0 v0] m IH]; simpl.
  - destruct (strict_eq_spec k' k); [congruence|reflexivity].
  - destruct (strict_eq_spec k k0) as [->|Hk]; simpl.
    + destruct (strict_eq_spec k' k0); [congruence|reflexivity].
    + now rewrite IH.
Qed.

Lemma map_get_None (k : value) (m : Map) :
  map_get k m = None <-> ~ In k (map_keys m).
Proof.
  induction m as [|[k' v'] m IH]; simpl; [tauto|].
  destruct (strict_eq_spec k k') as [->|Hne].
  - split; [discriminate|]. intros H. exfalso. apply H. now left.
  - rewrite IH. split; [|tauto]. intros H [Heq|Hin]; [congruence|tauto].
Qed.

Lemma map_get_Some_In (k : value) (v : message) (m : Map) :
  map_get k m = Some v -> In (k, v) m.
Proof.
  induction m as [|[k' v'] m IH]; simpl; [discriminate|].
  destruct (strict_eq_spec k k') as [->|Hne].
  - intros [= ->]. now left.
  - intros H. right. now apply IH.
Qed.

Lemma In_map_get (k : value) (v : message) (m : Map) :
  NoDup (map_keys m) -> In (k, v) m -> map_get k m = Some v.
Proof.
  induction m as [|[k' v'] m IH]; simpl; [contradiction|].
  intros Hnd [Heq|Hin].
  - injection Heq as -> ->. now rewrite strict_eq_refl.
  - inversion_clear Hnd as [|? ? Hnotin Hnd'].
    destruct (strict_eq_spec k k') as [->|Hne].
    + exfalso. apply Hnotin. change k' with (fst (k', v)).
      now apply in_map.
    + now apply IH.
Qed.

Lemma map_keys_set_in (k : value) (v : message) (m : Map) :
  In k (map_keys m) -> map_keys (map_set k v m) = map_keys m.
Proof.
  induction m as [|[k' v'] m IH]; simpl; [contradiction|].
  intros H. destruct (strict_eq_spec k k') as [->|Hne]; simpl.
  - reflexivity.
  - f_equal. apply IH. destruct H; [congruence|assumption].
Qed.

Lemma map_set_notin (k : value) (v : message) (m : Map) :
  ~ In k (map_keys m) -> map_set k v m = m ++ [(k, v)].
Proof.
  induction m as [|[k' v'] m IH]; simpl; [reflexivity|].
  intros H. destruct (strict_eq_spec k k') as [->|Hne].
  - exfalso. apply H. now left.
  - f_equal. apply IH. tauto.
Qed.

Lemma map_keys_set (k : value) (v : message) (m : Map) :
  map_keys (map_set k v m)
  = if in_dec value_eq_dec k (map_keys m) then map_keys m
    else map_keys m ++ [k].
Proof.
  destruct (in_dec value_eq_dec k (map_keys m)) as [Hin|Hnotin].
  - now apply map_keys_set_in.
  - rewrite map_set_notin by assumption.
    unfold map_keys. now rewrite map_app.
Qed.

Lemma In_map_keys_set (k k' : value) (v : message) (m : Map) :
  In k' (map_keys (map_set k v m)) <-> k' = k \/ In k' (map_keys m).
Proof.
  rewrite map_keys_set.
  destruct (in_dec value_eq_dec k (map_keys m)) as [Hin|Hnotin].
  - split; [tauto|]. intros [->|H]; assumption.
  - rewrite in_app_iff. simpl. split; intros H; intuition congruence.
Qed.

Lemma NoDup_map_keys_set (k : value) (v : message) (m : Map) :
  NoDup (map_keys m) -> NoDup (map_keys (map_set k v m)).
Proof.
  intros Hnd. rewrite map_keys_set.
  destruct (in_dec value_eq_dec k (map_keys m)) as [Hin|Hnotin];
    [assumption|].
  apply NoDup_app; [assumption|repeat constructor; simpl; tauto|].
  intros x Hx [<-|[]]. contradiction.
Qed.

Lemma map_set_length (k : value) (v : message) (m : Map) :
  (length (map_set k v m) <= S (length m))%nat.
Proof.
  induction m as [|[k' v'] m IH]; simpl; [lia|].
  destruct (strict_eq k k'); simpl; lia.
Qed.

Lemma keyed_map_set (k : value) (v : message) (m : Map) :
  id v = k -> keyed m -> keyed (map_set k v m).
Proof.
  intros Hv. unfold keyed. induction m as [|[k' v'] m IH]; simpl.
  - repeat constructor. assumption.
  - intros H. inversion_clear H as [|? ? He Hm].
    destruct (strict_eq k k'); constructor; auto.
Qed.

(** Two maps with the same keys in the same order and the same value
    under each key are the same map. *)
Lemma Map_ext (m1 m2 : Map) :
  NoDup (map_keys m1) ->
  map_keys m1 = map_keys m2 ->
  (forall k, In k (map_keys m1) -> map_get k m1 = map_get k m2) ->
  m1 = m2.
Proof.
  revert m2. induction m1 as [|[k v] m1 IH]; intros [|[k' v'] m2];
    simpl; try discriminate; [reflexivity|].
  intros Hnd [= <- Hkeys] Hget.
  inversion_clear Hnd as [|? ? Hnotin Hnd'].
  pose proof (Hget k (or_introl eq_refl)) as Hk.
  rewrite strict_eq_refl in Hk. injection Hk as <-.
  f_equal. apply IH; [assumption..|].
  intros k0 Hk0. specialize (Hget k0 (or_intror Hk0)).
  destruct (strict_eq_spec k0 k) as [Heq|Hne]; [|assumption].
  exfalso. apply Hnotin. now rewrite <- Heq.
Qed.

(** [new Map(entries)] *)

Lemma Map_new_from (es : list (value * message)) (acc : Map) :
  NoDup (map_keys acc) -> keyed acc ->
  Forall (fun e => id (snd e) = fst e) es ->
  let m := fold_left (fun m e => map_set (fst e) (snd e) m) es acc in
  NoDup (map_keys m) /\ keyed m /\
  (forall k, In k (map_keys m) <-> In k (map_keys acc) \/ In k (map fst es)) /\
  (length m <= length acc + length es)%nat.
Proof.
  revert acc. induction es as [|[k v] es IH]; intros acc Hnd Hk Hes; simpl.
  - repeat split; try assumption; try tauto; lia.
  - inversion_clear Hes as [|? ? He Hes'].
    destruct (IH (map_set k v acc)) as (H1 & H2 & H3 & H4);
      [now apply NoDup_map_keys_set|now apply keyed_map_set|assumption|].
    repeat split; try assumption.
    + intros H. apply H3 in H. rewrite In_map_keys_set in H.
      intuition auto.
    + intros H. apply H3. rewrite In_map_keys_set. intuition auto.
    + pose proof (map_set_length k v acc). lia.
Qed.

Lemma entries_keyed (prev : list message) :
  Forall (fun e => id (snd e) = fst e) (entries prev).
Proof.
  unfold entries. rewrite Forall_map. now apply Forall_forall.
Qed.

Lemma entries_keys (prev : list message) :
  map fst (entries prev) = map id prev.
Proof. unfold entries. rewrite map_map. reflexivity. Qed.

Lemma entries_values (prev : list message) :
  map_values (entries prev) = prev.
Proof.
  unfold entries, map_values. rewrite map_map. simpl. apply map_id.
Qed.

Lemma Map_new_entries (prev : list message) :
  let m := Map_new (entries prev) in
  NoDup (map_keys m) /\ keyed m /\
  (forall k, In k (map_keys m) <-> In k (map id prev)) /\
  (length m <= length prev)%nat.
Proof.
  destruct (Map_new_from (entries prev) []) as (H1 & H2 & H3 & H4);
    [constructor|constructor|apply entries_keyed|].
  repeat split; try assumption.
  - intros H. apply H3 in H. rewrite entries_keys in H. simpl in H. tauto.
  - intros H. apply H3. rewrite entries_keys. now right.
  - unfold entries in H4. rewrite length_map in H4. simpl in H4. exact H4.
Qed.

(** A store that already has one event per id is its own map. *)
Lemma Map_new_NoDup (prev : list message) :
  NoDup (map id prev) -> Map_new (entries prev) = entries prev.
Proof.
  intros Hnd. unfold Map_new.
  enough (H : forall acc,
             (forall k, In k (map_keys acc) -> ~ In k (map id prev)) ->
             fold_left (fun m e => map_set (fst e) (snd e) m) (entries prev) acc
             = acc ++ entries prev) by (apply (H []); simpl; tauto).
  induction prev as [|x prev IH]; intros acc Hacc; simpl.
  - now rewrite app_nil_r.
  - inversion_clear Hnd as [|? ? Hx Hnd'].
    rewrite map_set_notin.
    + rewrite IH; [now rewrite <- app_assoc|assumption|].
      intros k Hk Hin. unfold map_keys in Hk. rewrite map_app in Hk.
      apply in_app_or in Hk. destruct Hk as [Hk|[<-|[]]].
      * apply (Hacc k Hk). now right.
      * contradiction.
    + intros Hin. apply (Hacc _ Hin). now left.
Qed.

(** ** One pass of [incoming.forEach] *)

Lemma ensureDate_ticks (val : value) (t : nat) :
  (t <= snd (ensureDate val t) <= S t)%nat.
Proof.
  destruct val; simpl; try lia.
  - destruct (Z.abs n <=? 8640000000000000); simpl; lia.
  - destruct (Date_parse s); simpl; lia.
Qed.

Lemma ensureDate_is_Date (val : value) (t : nat) :
  exists ms, fst (ensureDate val t) = Date ms.
Proof.
  destruct val; simpl; eauto.
  - destruct (Z.abs n <=? 8640000000000000); simpl; eauto.
  - destruct (Date_parse s); simpl; eauto.
Qed.

(** What one step does to the map, in both modes. *)
Lemma mergeIncoming_cases (restampNew : bool) (msg : option message)
    (map : Map) (t : nat) :
  let '(map', t') := mergeIncoming restampNew msg map t in
  (t <= t')%nat /\
  match stored msg with
  | None => map' = map
  | Some m =>
      exists ts,
        map' = map_set (id m) (with_timestamp m ts) map /\
        (if restampNew
         then match map_get (id m) map with
              | Some existing => ts = timestamp existing
              | None => exists n, (t <= n < t')%nat /\ ts = Date (clock n)
              end
         else ts = fst (ensureDate (timestamp m) t))
  end.
Proof.
  destruct msg as [m|]; simpl; [|split; [lia|reflexivity]].
  destruct (nullish (id m)) eqn:Hid; simpl; [split; [lia|reflexivity]|].
  unfold bind. pose proof (ensureDate_ticks (timestamp m) t) as Ht.
  destruct (ensureDate (timestamp m) t) as [ts ta] eqn:Hts. simpl in Ht.
  destruct restampNew.
  - destruct (map_get (id m) map) as [existing|] eqn:Hget; simpl.
    + split; [lia|]. exists (timestamp existing). auto.
    + split; [lia|]. exists (Date (clock ta)). split; [reflexivity|].
      exists ta. split; [lia|reflexivity].
  - simpl. split; [lia|]. exists ts. auto.
Qed.

Lemma mergeIncoming_inv (restampNew : bool) (msg : option message)
    (map : Map) (t : nat) :
  NoDup (map_keys map) -> keyed map ->
  let '(map', t') := mergeIncoming restampNew msg map t in
  NoDup (map_keys map') /\ keyed map' /\
  (forall k, In k (map_keys map) -> In k (map_keys map')) /\
  (length map' <= S (length map))%nat /\ (t <= t')%nat.
Proof.
  intros Hnd Hk.
  pose proof (mergeIncoming_cases restampNew msg map t) as H.
  destruct (mergeIncoming restampNew msg map t) as [map' t'].
  destruct H as [Ht H].
  destruct (stored msg) as [m|]; [destruct H as (ts & -> & _)|subst map'].
  2: repeat split; auto.
  - repeat split; auto.
    + now apply NoDup_map_keys_set.
    + now apply keyed_map_set.
    + intros k Hin. apply In_map_keys_set. now right.
    + apply map_set_length.
Qed.

Lemma forEach_mergeIncoming_inv (restampNew : bool)
    (incoming : list (option message)) (map : Map) (t : nat) :
  NoDup (map_keys map) -> keyed map ->
  let '(map', t') := forEach incoming (mergeIncoming restampNew) map t in
  NoDup (map_keys map') /\ keyed map' /\
  (forall k, In k (map_keys map) -> In k (map_keys map')) /\
  (t <= t')%nat.
Proof.
  revert map t. induction incoming as [|msg rest IH]; intros map t Hnd Hk.
  - simpl. repeat split; auto.
  - simpl. unfold bind.
    pose proof (mergeIncoming_inv restampNew msg map t Hnd Hk) as H1.
    destruct (mergeIncoming restampNew msg map t) as [map1 t1].
    destruct H1 as (Hnd1 & Hk1 & Hin1 & _ & Ht1).
    specialize (IH map1 t1 Hnd1 Hk1).
    destruct (forEach rest (mergeIncoming restampNew) map1 t1) as [map' t'].
    destruct IH as (Hnd' & Hk' & Hin' & Ht').
    repeat split; auto. lia.
Qed.

Lemma mergedMap_inv (restampNew : bool) (incoming : list (option message))
    (prev : list message) (t : nat) :
  let '(map', t') := mergedMap incoming restampNew prev t in
  NoDup (map_keys map') /\ keyed map' /\
  (forall k, In k (map id prev) -> In k (map_keys map')) /\
  (t <= t')%nat.
Proof.
  unfold mergedMap.
  destruct (Map_new_entries prev) as (Hnd & Hk & Hkeys & _).
  pose proof (forEach_mergeIncoming_inv restampNew incoming _ t Hnd Hk) as H.
  destruct (forEach incoming _ _ t) as [map' t'].
  destruct H as (Hnd' & Hk' & Hin' & Ht').
  repeat split; auto. intros k Hin. apply Hin', Hkeys, Hin.
Qed.

(** With [restampNew], a step keeps the time of every key it finds and
    gives a key it does not find a reading of the clock. *)
Lemma mergeIncoming_restamp (msg : option message) (map : Map) (t : nat) :
  let '(map', t') := mergeIncoming true msg map t in
  forall i m', map_get i map' = Some m' ->
    (exists m, map_get i map = Some m /\ timestamp m' = timestamp m) \/
    (map_get i map = None /\
     exists n, (t <= n < t')%nat /\ timestamp m' = Date (clock n)).
Proof.
  pose proof (mergeIncoming_cases true msg map t) as H.
  destruct (mergeIncoming true msg map t) as [map' t'].
  destruct H as [Ht H]. intros i m' Hget.
  destruct (stored msg) as [m|]; [destruct H as (ts & -> & Hts)|subst map'].
  2: left; eauto.
  - destruct (value_eq_dec (id m) i) as [<-|Hne].
    + rewrite map_get_set_same in Hget. injection Hget as <-. simpl.
      destruct (map_get (id m) map) as [existing|]; [left|right]; eauto.
    + rewrite map_get_set_other in Hget by assumption. left. eauto.
Qed.

Lemma forEach_restamp (incoming : list (option message)) (map : Map)
    (t : nat) :
  NoDup (map_keys map) -> keyed map ->
  let '(map', t') := forEach incoming (mergeIncoming true) map t in
  forall i m', map_get i map' = Some m' ->
    (exists m, map_get i map = Some m /\ timestamp m' = timestamp m) \/
    (map_get i map = None /\
     exists n, (t <= n < t')%nat /\ timestamp m' = Date (clock n)).
Proof.
  revert map t. induction incoming as [|msg rest IH]; intros map t Hnd Hk.
  - simpl. intros i m' H. left. eauto.
  - simpl. unfold bind.
    pose proof (mergeIncoming_restamp msg map t) as H1.
    pose proof (mergeIncoming_inv true msg map t Hnd Hk) as H2.
    destruct (mergeIncoming true msg map t) as [map1 t1].
    destruct H2 as (Hnd1 & Hk1 & Hin1 & _ & Ht1).
    specialize (IH map1 t1 Hnd1 Hk1).
    pose proof (forEach_mergeIncoming_inv true rest map1 t1 Hnd1 Hk1) as H3.
    destruct (forEach rest (mergeIncoming true) map1 t1) as [map' t'].
    destruct H3 as (_ & _ & _ & Ht').
    intros i m' Hget.
    destruct (IH i m' Hget) as [(m1 & Hm1 & Hts)|(Hnone & n & Hn & Hts)].
    + destruct (H1 i m1 Hm1) as [(m & Hm & Hts1)|(Hnone & n & Hn & Hts1)].
      * left. exists m. split; [assumption|congruence].
      * right. split; [assumption|]. exists n. split; [lia|congruence].
    + right. split.
      * apply map_get_None. intros Hin. apply Hin1 in Hin.
        apply map_get_None in Hnone. contradiction.
      * exists n. split; [lia|assumption].
Qed.

(** After the loop, the key of every stored element of [incoming] holds
    the last such element up to its timestamp, and every other key is
    untouched. *)
Lemma forEach_last_with_id (restampNew : bool)
    (incoming : list (option message)) (map : Map) (t : nat) (k : value) :
  let map' := fst (forEach incoming (mergeIncoming restampNew) map t) in
  match last_with_id incoming k with
  | Some msg => exists v, map_get k map' = Some v /\
                          v = with_timestamp msg (timestamp v)
  | None => map_get k map' = map_get k map
  end.
Proof.
  revert map t. induction incoming as [|x rest IH]; intros map t.
  - reflexivity.
  - cbn [forEach last_with_id]. unfold bind.
    pose proof (mergeIncoming_cases restampNew x map t) as H1.
    destruct (mergeIncoming restampNew x map t) as [map1 t1].
    specialize (IH map1 t1). cbv zeta in IH.
    destruct (last_with_id rest k) as [msg|]; [exact IH|].
    cbv zeta. rewrite IH. clear IH.
    destruct H1 as [_ H1]. unfold stored in H1.
    destruct x as [m|]; [|now subst map1].
    destruct (nullish (id m)); simpl; [now subst map1|].
    destruct H1 as (ts & -> & _).
    destruct (strict_eq_spec (id m) k) as [<-|Hk].
    + rewrite map_get_set_same. eexists. split; reflexivity.
    + now apply map_get_set_other.
Qed.

Lemma sortedMessages_by_key (map : Map) :
  sortedMessages map = sort (compareBy taskKey) (map_values map).
Proof. reflexivity. Qed.

Lemma upsertMessages_nonempty (incoming : list (option message))
    (restampNew : bool) (prev : list message) (t : nat) :
  incoming <> [] ->
  upsertMessages incoming restampNew prev t
  = (slice_last 50
       (sortedMessages (fst (mergedMap incoming restampNew prev t))),
     snd (mergedMap incoming restampNew prev t)).
Proof.
  destruct incoming as [|msg rest]; [congruence|intros _].
  unfold upsertMessages, bind, ret.
  now destruct (mergedMap (msg :: rest) restampNew prev t).
Qed.

Lemma In_values_map_get (m : message) (map : Map) :
  NoDup (map_keys map) -> keyed map ->
  In m (map_values map) -> map_get (id m) map = Some m.
Proof.
  intros Hnd Hk Hin. unfold map_values in Hin.
  apply in_map_iff in Hin. destruct Hin as ([k v] & <- & Hin).
  unfold keyed in Hk. rewrite Forall_forall in Hk.
  pose proof (Hk _ Hin) as Hid. simpl in *. rewrite Hid.
  now apply In_map_get.
Qed.

Lemma map_get_In_values (k : value) (m : message) (map : Map) :
  map_get k map = Some m -> In m (map_values map).
Proof.
  intros H. apply map_get_Some_In in H. unfold map_values.
  apply in_map_iff. now exists (k, m).
Qed.

(** Whatever a non-empty upsert leaves in the store is what the merged
    map holds under that id. *)
Lemma upsertMessages_In (incoming : list (option message))
    (restampNew : bool) (prev : list message) (t : nat) (m : message) :
  incoming <> [] ->
  In m (fst (upsertMessages incoming restampNew prev t)) ->
  map_get (id m) (fst (mergedMap incoming restampNew prev t)) = Some m.
Proof.
  intros Hne Hin. rewrite upsertMessages_nonempty in Hin by assumption.
  simpl in Hin. apply slice_last_In in Hin.
  rewrite sortedMessages_by_key in Hin. apply sort_In in Hin.
  pose proof (mergedMap_inv restampNew incoming prev t) as H.
  destruct (mergedMap incoming restampNew prev t) as [map' t'].
  destruct H as (Hnd & Hk & _). now apply In_values_map_get.
Qed.

Lemma NoDup_map_eq {A B : Type} (f : A -> B) (l : list A) (a b : A) :
  NoDup (map f l) -> In a l -> In b l -> f a = f b -> a = b.
Proof.
  induction l as [|x l IH]; simpl; [contradiction|].
  intros Hnd Ha Hb Hf. inversion_clear Hnd as [|? ? Hx Hnd'].
  destruct Ha as [<-|Ha], Hb as [<-|Hb]; auto.
  - exfalso. apply Hx. rewrite Hf. now apply in_map.
  - exfalso. apply Hx. rewrite <- Hf. now apply in_map.
Qed.

Lemma map_get_entries (prev : list message) (m : message) :
  NoDup (map id prev) -> In m prev ->
  map_get (id m) (Map_new (entries prev)) = Some m.
Proof.
  intros Hnd Hin. rewrite Map_new_NoDup by assumption.
  apply In_map_get.
  - unfold map_keys. now rewrite entries_keys.
  - unfold entries. apply in_map_iff. now exists m.
Qed.

(** C1 (as amended).  With [restampNew] set, an upsert leaves the
    timestamp of every id that is in the store before and after the call
    as it was, whatever timestamp the incoming record for that id
    carries.  (Without [restampNew] the incoming timestamp replaces the
    stored one.) *)
Theorem upsert_restamp_keeps_timestamp
    (incoming : list (option message)) (prev : list message) (t : nat)
    (old new : message) :
  NoDup (map id prev) ->
  In old prev ->
  In new (fst (upsertMessages incoming true prev t)) ->
  id new = id old ->
  timestamp new = timestamp old.
Proof.
  intros Hnd Hold Hnew Hid.
  destruct incoming as [|msg rest].
  - simpl in Hnew. f_equal.
    apply (NoDup_map_eq id prev); assumption.
  - apply upsertMessages_In in Hnew; [|discriminate].
    unfold mergedMap in Hnew.
    destruct (Map_new_entries prev) as (Hnd0 & Hk0 & _).
    pose proof (forEach_restamp (msg :: rest) _ t Hnd0 Hk0)
      as H.
    destruct (forEach (msg :: rest) _ _ t) as [map' t']. simpl in Hnew.
    pose proof (map_get_entries prev old Hnd Hold) as Hget.
    rewrite <- Hid in Hget.
    destruct (H _ _ Hnew) as [(m & Hm & Hts)|(Hnone & _)]; congruence.
Qed.

(** C6 (as amended).  With [restampNew] set, an event whose id is new to
    the store is stamped with a reading of the client's clock taken
    during the call, whether or not the incoming record carries a
    time. *)
Theorem upsert_restamp_stamps_new_id
    (incoming : list (option message)) (prev : list message) (t : nat)
    (new : message) :
  In new (fst (upsertMessages incoming true prev t)) ->
  ~ In (id new) (map id prev) ->
  exists n,
    (t <= n < snd (upsertMessages incoming true prev t))%nat /\
    timestamp new = Date (clock n).
Proof.
  intros Hnew Hfresh.
  destruct incoming as [|msg rest].
  - simpl in Hnew. exfalso. apply Hfresh. now apply in_map.
  - pose proof Hnew as Hget.
    apply upsertMessages_In in Hget; [|discriminate].
    rewrite upsertMessages_nonempty by discriminate. simpl snd.
    unfold mergedMap in *.
    destruct (Map_new_entries prev) as (Hnd0 & Hk0 & Hkeys & _).
    pose proof (forEach_restamp (msg :: rest) _ t Hnd0 Hk0)
      as H.
    destruct (forEach (msg :: rest) _ _ t) as [map' t']. simpl in *.
    destruct (H _ _ Hget) as [(m & Hm & _)|(_ & n & Hn & Hts)].
    + exfalso. apply Hfresh, Hkeys.
      apply map_get_Some_In in Hm. unfold map_keys.
      apply in_map_iff. now exists (id new, m).
    + eauto.
Qed.

(** *** Upserting the same batch again *)

Lemma carriesTime_ensureDate (val : value) (t : nat) :
  carriesTime val = true ->
  ensureDate val t = (fst (ensureDate val 0%nat), t).
Proof.
  destruct val; simpl; try discriminate; try reflexivity.
  - destruct (Z.abs n <=? 8640000000000000); [reflexivity|discriminate].
  - destruct (Date_parse s); [reflexivity|discriminate].
Qed.

Lemma last_with_id_In (incoming : list (option message)) (m : message) :
  In (Some m) incoming -> nullish (id m) = false ->
  last_with_id incoming (id m) <> None.
Proof.
  induction incoming as [|x rest IH]; simpl; [contradiction|].
  intros [->|Hin] Hn.
  - destruct (last_with_id rest (id m)); [discriminate|].
    rewrite Hn, strict_eq_refl. discriminate.
  - specialize (IH Hin Hn).
    destruct (last_with_id rest (id m)); [discriminate|contradiction].
Qed.

Lemma last_with_id_Some (incoming : list (option message)) (k : value)
    (m : message) :
  last_with_id incoming k = Some m ->
  In (Some m) incoming /\ nullish (id m) = false /\ id m = k.
Proof.
  induction incoming as [|x rest IH]; simpl; [discriminate|].
  destruct (last_with_id rest k) as [m'|].
  - intros [= ->]. destruct IH as (H1 & H2 & H3); auto.
  - destruct x as [m'|]; [|discriminate].
    destruct (nullish (id m')) eqn:Hn; simpl; [discriminate|].
    destruct (strict_eq_spec (id m') k); [|discriminate].
    intros [= ->]. auto.
Qed.

(** Without [restampNew], a batch of elements that carry a time leaves
    under each of its keys the last element with that key, stamped with
    its own time. *)
Lemma forEach_plain_value (incoming : list (option message)) (map : Map)
    (t : nat) (k : value) (msg : message) :
  Forall (fun x => clockFree x = true) incoming ->
  last_with_id incoming k = Some msg ->
  map_get k (fst (forEach incoming (mergeIncoming false) map t))
  = Some (with_timestamp msg (fst (ensureDate (timestamp msg) 0%nat))).
Proof.
  revert map t. induction incoming as [|x rest IH]; intros map t Hcf Hlast.
  - discriminate.
  - inversion_clear Hcf as [|? ? Hx Hrest].
    cbn [forEach last_with_id] in *. unfold bind.
    pose proof (mergeIncoming_cases false x map t) as H1.
    destruct (mergeIncoming false x map t) as [map1 t1].
    pose proof (forEach_last_with_id false rest map1 t1 k) as H2.
    cbv zeta in H2.
    destruct (last_with_id rest k) as [m'|] eqn:Hl.
    + injection Hlast as ->. now apply IH.
    + rewrite H2. clear H2 IH.
      destruct x as [m|]; [|discriminate].
      destruct H1 as [_ H1]. unfold stored in H1. simpl in Hx.
      destruct (nullish (id m)); simpl in *; [discriminate|].
      destruct (strict_eq_spec (id m) k) as [<-|]; [|discriminate].
      injection Hlast as ->. destruct H1 as (ts & -> & ->).
      rewrite map_get_set_same.
      now rewrite (carriesTime_ensureDate _ t Hx).
Qed.

(** A batch whose keys are all in the map adds no key. *)
Lemma forEach_keys_present (restampNew : bool)
    (incoming : list (option message)) (map : Map) (t : nat) :
  (forall m, In (Some m) incoming -> nullish (id m) = false ->
             In (id m) (map_keys map)) ->
  map_keys (fst (forEach incoming (mergeIncoming restampNew) map t))
  = map_keys map.
Proof.
  revert map t. induction incoming as [|x rest IH]; intros map t Hin.
  - reflexivity.
  - cbn [forEach]. unfold bind.
    pose proof (mergeIncoming_cases restampNew x map t) as H1.
    destruct (mergeIncoming restampNew x map t) as [map1 t1].
    destruct H1 as [_ H1].
    assert (Hkeys : map_keys map1 = map_keys map).
    { unfold stored in H1. destruct x as [m|]; [|now subst].
      destruct (nullish (id m)) eqn:Hn; [now subst|].
      destruct H1 as (ts & -> & _). apply map_keys_set_in.
      apply Hin; [now left|assumption]. }
    rewrite IH; [assumption|].
    intros m Hm Hn. rewrite Hkeys. apply Hin; [now right|assumption].
Qed.

Lemma map_get_entries_In (l : list message) (k : value) (v : message) :
  map_get k (entries l) = Some v -> In v l /\ id v = k.
Proof.
  intros H. apply map_get_Some_In in H. unfold entries in H.
  apply in_map_iff in H. destruct H as (m & [= <- <-] & Hin). auto.
Qed.

Lemma keyed_ids (map : Map) :
  keyed map -> List.map id (map_values map) = map_keys map.
Proof.
  unfold keyed, map_values, map_keys. induction 1 as [|e m He Hm IH].
  - reflexivity.
  - simpl. now rewrite He, IH.
Qed.

Lemma sortedMessages_NoDup (map : Map) :
  NoDup (map_keys map) -> keyed map ->
  NoDup (List.map id (sortedMessages map)).
Proof.
  intros Hnd Hk. rewrite sortedMessages_by_key.
  eapply Permutation_NoDup.
  - apply Permutation_map, sort_perm.
  - now rewrite keyed_ids.
Qed.

Lemma forEach_has_key (restampNew : bool)
    (incoming : list (option message)) (map : Map) (t : nat) (m : message) :
  In (Some m) incoming -> nullish (id m) = false ->
  In (id m)
     (map_keys (fst (forEach incoming (mergeIncoming restampNew) map t))).
Proof.
  intros Hin Hn.
  pose proof (forEach_last_with_id restampNew incoming map t (id m)) as H.
  pose proof (last_with_id_In incoming m Hin Hn) as Hl. cbv zeta in H.
  destruct (last_with_id incoming (id m)); [|contradiction].
  destruct H as (v & Hv & _).
  destruct (in_dec value_eq_dec (id m) (map_keys
    (fst (forEach incoming (mergeIncoming restampNew) map t)))) as [|Hno];
    [assumption|].
  apply map_get_None in Hno. congruence.
Qed.

(** Running the loop again over the sorted values of the map it
    produced changes nothing. *)
Lemma forEach_again (restampNew : bool) (incoming : list (option message))
    (map0 : Map) (t t' : nat) :
  NoDup (map_keys map0) -> keyed map0 ->
  (restampNew = false ->
   Forall (fun x => clockFree x = true) incoming) ->
  let map1 := fst (forEach incoming (mergeIncoming restampNew) map0 t) in
  let store := sortedMessages map1 in
  fst (forEach incoming (mergeIncoming restampNew) (entries store) t')
  = entries store.
Proof.
  intros Hnd0 Hk0 Hcf map1 store.
  pose proof (forEach_mergeIncoming_inv restampNew incoming map0 t Hnd0 Hk0)
    as Hinv.
  fold mergeIncoming in Hinv.
  assert (Hmap1 : forEach incoming (mergeIncoming restampNew) map0 t
                  = (map1, snd (forEach incoming (mergeIncoming restampNew)
                                  map0 t)))
    by (subst map1; now destruct (forEach incoming _ map0 t)).
  rewrite Hmap1 in Hinv. destruct Hinv as (Hnd1 & Hk1 & _).
  assert (HndS : NoDup (List.map id store))
    by now apply sortedMessages_NoDup.
  assert (HkeysS : map_keys (entries store) = List.map id store)
    by (unfold map_keys; apply entries_keys).
  assert (HndE : NoDup (map_keys (entries store))) by now rewrite HkeysS.
  assert (HkE : keyed (entries store)) by apply entries_keyed.
  assert (Hin1 : forall v, In v store -> map_get (id v) map1 = Some v).
  { intros v Hv. apply In_values_map_get; auto.
    subst store. rewrite sortedMessages_by_key in Hv.
    now apply sort_In in Hv. }
  symmetry. apply Map_ext; [assumption| |].
  - symmetry. apply forEach_keys_present. intros m Hm Hn.
    rewrite HkeysS.
    pose proof (forEach_has_key restampNew incoming map0 t m Hm Hn) as Hkey.
    fold map1 in Hkey. rewrite <- (keyed_ids map1 Hk1) in Hkey.
    subst store. rewrite sortedMessages_by_key.
    eapply Permutation_in; [|exact Hkey].
    apply Permutation_map, sort_perm.
  - intros k Hk.
    destruct (map_get k (entries store)) as [v|] eqn:Hv;
      [|apply map_get_None in Hv; contradiction].
    destruct (map_get_entries_In _ _ _ Hv) as [HvS <-].
    pose proof (Hin1 v HvS) as Hv1.
    pose proof (forEach_last_with_id restampNew incoming (entries store) t'
                  (id v)) as H2.
    pose proof (forEach_last_with_id restampNew incoming map0 t (id v)) as H1.
    cbv zeta in H1, H2. fold map1 in H1.
    destruct (last_with_id incoming (id v)) as [msg|] eqn:Hlast;
      [|now rewrite H2].
    destruct restampNew.
    + destruct H1 as (v1 & Hg1 & Hv1'). destruct H2 as (v2 & Hg2 & Hv2').
      rewrite Hg2. f_equal.
      assert (v1 = v) by congruence. subst v1.
      pose proof (forEach_restamp incoming (entries store) t' HndE HkE)
        as Hr.
      fold mergeIncoming in Hr.
      destruct (forEach incoming (mergeIncoming true) (entries store) t')
        as [map2 t2]. simpl in Hg2.
      destruct (Hr _ _ Hg2) as [(m & Hm & Hts)|(Hnone & _)];
        [|congruence].
      assert (m = v) by congruence. subst m.
      rewrite Hv1', Hv2'. simpl. now rewrite Hts, Hv1' at 1.
    + specialize (Hcf eq_refl).
      rewrite (forEach_plain_value incoming (entries store) t' _ msg Hcf
                 Hlast).
      pose proof (forEach_plain_value incoming map0 t _ msg Hcf Hlast)
        as Hp.
      fold map1 in Hp. congruence.
Qed.

Lemma StronglySorted_app_r {A : Type} (R : A -> A -> Prop)
    (l1 l2 : list A) :
  StronglySorted R (l1 ++ l2) -> StronglySorted R l2.
Proof.
  induction l1 as [|x l1 IH]; simpl; [auto|].
  intros H. apply StronglySorted_inv in H. tauto.
Qed.

(** Running the loop again over a store that holds some of the values
    the first run left, those of all the keys of the batch among them,
    changes nothing. *)
Lemma forEach_again_kept (restampNew : bool)
    (incoming : list (option message)) (map0 : Map) (t t' : nat)
    (store : list message) :
  NoDup (map_keys map0) -> keyed map0 ->
  (restampNew = false ->
   Forall (fun x => clockFree x = true) incoming) ->
  let map1 := fst (forEach incoming (mergeIncoming restampNew) map0 t) in
  NoDup (List.map id store) ->
  (forall v, In v store -> map_get (id v) map1 = Some v) ->
  (forall m, In (Some m) incoming -> nullish (id m) = false ->
             In (id m) (List.map id store)) ->
  fst (forEach incoming (mergeIncoming restampNew) (entries store) t')
  = entries store.
Proof.
  intros Hnd0 Hk0 Hcf map1 HndS Hin1 Hkept.
  assert (HkeysS : map_keys (entries store) = List.map id store)
    by (unfold map_keys; apply entries_keys).
  assert (HndE : NoDup (map_keys (entries store))) by now rewrite HkeysS.
  assert (HkE : keyed (entries store)) by apply entries_keyed.
  symmetry. apply Map_ext; [assumption| |].
  - symmetry. apply forEach_keys_present. intros m Hm Hn.
    rewrite HkeysS. now apply Hkept.
  - intros k Hk.
    destruct (map_get k (entries store)) as [v|] eqn:Hv;
      [|apply map_get_None in Hv; contradiction].
    destruct (map_get_entries_In _ _ _ Hv) as [HvS <-].
    pose proof (Hin1 v HvS) as Hv1.
    pose proof (forEach_last_with_id restampNew incoming (entries store) t'
                  (id v)) as H2.
    pose proof (forEach_last_with_id restampNew incoming map0 t (id v)) as H1.
    cbv zeta in H1, H2. fold map1 in H1.
    destruct (last_with_id incoming (id v)) as [msg|] eqn:Hlast;
      [|now rewrite H2].
    destruct restampNew.
    + destruct H1 as (v1 & Hg1 & Hv1'). destruct H2 as (v2 & Hg2 & Hv2').
      rewrite Hg2. f_equal.
      assert (v1 = v) by congruence. subst v1.
      pose proof (forEach_restamp incoming (entries store) t' HndE HkE)
        as Hr.
      fold mergeIncoming in Hr.
      destruct (forEach incoming (mergeIncoming true) (entries store) t')
        as [map2 t2]. simpl in Hg2.
      destruct (Hr _ _ Hg2) as [(m & Hm & Hts)|(Hnone & _)];
        [|congruence].
      assert (m = v) by congruence. subst m.
      rewrite Hv1', Hv2'. simpl. now rewrite Hts, Hv1' at 1.
    + specialize (Hcf eq_refl).
      rewrite (forEach_plain_value incoming (entries store) t' _ msg Hcf
                 Hlast).
      pose proof (forEach_plain_value incoming map0 t _ msg Hcf Hlast)
        as Hp.
      fold map1 in Hp. congruence.
Qed.

(** C3 (as amended).  Upserting a batch a second time, right after the
    first, leaves the store as the first call left it, in both
    [restampNew] modes, provided the first call evicts no element of the
    batch (every id that the loop stores is in the store after the first
    call; other events may have been evicted) and, without [restampNew],
    every stored record of the batch carries a time, so that
    [ensureDate] does not read the clock. *)
Theorem upsert_again_is_noop
    (incoming : list (option message)) (restampNew : bool)
    (prev : list message) (t : nat) :
  let once := upsertMessages incoming restampNew prev t in
  (forall m, In (Some m) incoming -> nullish (id m) = false ->
             In (id m) (List.map id (fst once))) ->
  (restampNew = false ->
   Forall (fun x => clockFree x = true) incoming) ->
  fst (upsertMessages incoming restampNew (fst once) (snd once))
  = fst once.
Proof.
  intros once Hkept Hcf. subst once.
  destruct incoming as [|x rest]; [reflexivity|].
  set (incoming := x :: rest) in *.
  assert (Hne : incoming <> []) by discriminate.
  rewrite (upsertMessages_nonempty incoming restampNew prev t Hne) in *.
  cbn [fst snd] in *.
  set (map1 := fst (mergedMap incoming restampNew prev t)) in *.
  set (t1 := snd (mergedMap incoming restampNew prev t)).
  set (view := sortedMessages map1) in *.
  set (store := slice_last 50 view) in *.
  destruct (Map_new_entries prev) as (Hnd0 & Hk0 & _).
  pose proof (mergedMap_inv restampNew incoming prev t) as Hinv.
  assert (Hm1 : mergedMap incoming restampNew prev t = (map1, t1))
    by (subst map1 t1; now destruct (mergedMap incoming restampNew prev t)).
  rewrite Hm1 in Hinv. destruct Hinv as (Hnd1 & Hk1 & _).
  assert (Hview : view = firstn (length view - 50) view ++ store)
    by apply slice_last_suffix.
  assert (HndS : NoDup (List.map id store)).
  { pose proof (sortedMessages_NoDup map1 Hnd1 Hk1) as Hnd.
    fold view in Hnd. rewrite Hview, map_app in Hnd.
    now apply NoDup_app_remove_l in Hnd. }
  assert (Hsorted : StronglySorted (keyLe taskKey) store).
  { pose proof (sort_sorted taskKey (map_values map1)) as Hs.
    rewrite <- sortedMessages_by_key in Hs. fold view in Hs.
    rewrite Hview in Hs. now apply StronglySorted_app_r in Hs. }
  assert (Hin1 : forall v, In v store -> map_get (id v) map1 = Some v).
  { intros v Hv. apply In_values_map_get; auto.
    apply slice_last_In in Hv. subst view.
    rewrite sortedMessages_by_key in Hv. now apply sort_In in Hv. }
  rewrite upsertMessages_nonempty by assumption. cbn [fst].
  unfold mergedMap at 1. rewrite (Map_new_NoDup store HndS).
  pose proof (forEach_again_kept restampNew incoming
                (Map_new (entries prev)) t t1 store Hnd0 Hk0 Hcf) as Hagain.
  cbv zeta in Hagain. fold (mergedMap incoming restampNew prev t) in Hagain.
  fold map1 in Hagain. rewrite (Hagain HndS Hin1 Hkept).
  rewrite sortedMessages_by_key, entries_values.
  rewrite (sort_of_sorted taskKey store Hsorted).
  apply slice_last_all. apply slice_last_length.
Qed.

(** ** The ordered view and the retention window *)

Lemma StronglySorted_app_le {A : Type} (R : A -> A -> Prop)
    (l1 l2 : list A) :
  StronglySorted R (l1 ++ l2) ->
  forall a b, In a l1 -> In b l2 -> R a b.
Proof.
  induction l1 as [|x l1 IH]; simpl; [contradiction|].
  intros H a b Ha Hb. apply StronglySorted_inv in H. destruct H as [Hs Hx].
  destruct Ha as [<-|Ha].
  - rewrite Forall_forall in Hx. apply Hx, in_or_app. now right.
  - now apply IH.
Qed.

Lemma In_map_set (e : value * message) (k : value) (v : message) (m : Map) :
  In e (map_set k v m) -> e = (k, v) \/ In e m.
Proof.
  induction m as [|[k' v'] m IH]; simpl.
  - intros [<-|[]]. now left.
  - destruct (strict_eq k k'); simpl.
    + intros [<-|H]; auto.
    + intros [<-|H]; auto. destruct (IH H); auto.
Qed.

Lemma In_Map_new (e : value * message) (es : list (value * message)) :
  In e (Map_new es) -> In e es.
Proof.
  unfold Map_new.
  enough (H : forall acc,
             In e (fold_left (fun m e => map_set (fst e) (snd e) m) es acc) ->
             In e acc \/ In e es)
    by (intros H0; destruct (H [] H0) as [[]|]; assumption).
  induction es as [|[k v] es IH]; intros acc; simpl; [auto|].
  intros H. destruct (IH _ H) as [H1|H1]; [|auto].
  apply In_map_set in H1. destruct H1 as [->|H1]; auto.
Qed.

(** C2 (as amended).  The ordered view is the stable sort of the map's
    values by the single key [parseInt(taskId) || 0], ascending: it is a
    permutation of the values, sorted by that key, the events of one key
    (all those without a task id among them) stay in the map's insertion
    order, and sorting the view again returns it.  Neither the timestamp
    nor the id takes part in the comparison. *)
Theorem sortedMessages_stable_by_taskId (map : Map) :
  (forall a b, compareTaskId a b = taskKey a - taskKey b) /\
  Permutation (map_values map) (sortedMessages map) /\
  StronglySorted (keyLe taskKey) (sortedMessages map) /\
  (forall k,
     filter (fun a => taskKey a =? k) (sortedMessages map)
     = filter (fun a => taskKey a =? k) (map_values map)) /\
  sort compareTaskId (sortedMessages map) = sortedMessages map.
Proof.
  split; [reflexivity|]. rewrite sortedMessages_by_key.
  split; [apply sort_perm|].
  split; [apply sort_sorted|].
  split; [intros k; apply sort_stable|].
  apply (sort_idempotent taskKey).
Qed.

Lemma upsertMessages_length (incoming : list (option message))
    (restampNew : bool) (prev : list message) (t : nat) :
  (length prev <= 50)%nat ->
  (length (fst (upsertMessages incoming restampNew prev t)) <= 50)%nat.
Proof.
  intros H. destruct incoming as [|x rest]; [exact H|].
  rewrite upsertMessages_nonempty by discriminate. apply slice_last_length.
Qed.

Lemma upsertMessages_NoDup (x : option message)
    (rest : list (option message)) (restampNew : bool)
    (prev : list message) (t : nat) :
  NoDup (map id (fst (upsertMessages (x :: rest) restampNew prev t))).
Proof.
  rewrite upsertMessages_nonempty by discriminate. cbn [fst].
  pose proof (mergedMap_inv restampNew (x :: rest) prev t)
    as H.
  destruct (mergedMap (x :: rest) restampNew prev t) as [map' t'].
  destruct H as (Hnd & Hk & _). cbn [fst].
  pose proof (sortedMessages_NoDup map' Hnd Hk) as Hs.
  rewrite (slice_last_suffix 50 (sortedMessages map')) in Hs.
  rewrite map_app in Hs. now apply NoDup_app_remove_l in Hs.
Qed.

(** Where a stored event comes from: the previous store, or an element
    of the batch, of which it has every field but the timestamp. *)
Lemma upsertMessages_origin (incoming : list (option message))
    (restampNew : bool) (prev : list message) (t : nat) (m : message) :
  In m (fst (upsertMessages incoming restampNew prev t)) ->
  In m prev \/
  exists msg, In (Some msg) incoming /\
              m = with_timestamp msg (timestamp m).
Proof.
  intros Hin. destruct incoming as [|x rest]; [now left|].
  apply upsertMessages_In in Hin; [|discriminate].
  unfold mergedMap in Hin.
  pose proof (forEach_last_with_id restampNew (x :: rest)
                (Map_new (entries prev)) t (id m)) as H.
  cbv zeta in H.
  destruct (last_with_id (x :: rest) (id m)) as [msg|] eqn:Hl.
  - right. exists msg. destruct H as (v & Hv & Hvm).
    apply last_with_id_Some in Hl. split; [tauto|]. congruence.
  - left. rewrite H in Hin. apply map_get_Some_In, In_Map_new in Hin.
    unfold entries in Hin. apply in_map_iff in Hin.
    now destruct Hin as (m0 & [= _ ->] & Hin).
Qed.

(** ** The component: retention over a session *)

Local Arguments upsertMessages : simpl never.

Ltac case_abort st :=
  let H := fresh "Habort" in
  destruct (abortRef st) eqn:H; simpl; rewrite ?H; simpl.

Lemma dropThinking_length (prev : list message) :
  (length (dropThinking prev) <= length prev)%nat.
Proof. apply filter_length_le. Qed.

Lemma acknowledge_length (userMessage : message) (data : send_data)
    (prev : list message) :
  length (acknowledge userMessage data prev) = length (dropThinking prev).
Proof. unfold acknowledge. apply length_map. Qed.

(** A settled poll leaves the store alone or replaces it by the result
    of a non-empty upsert. *)
Lemma fetchAgentResponses_messages (isInitial : bool)
    (response : fetched poll_data) (st : state) (t : nat) :
  let st' := fst (fetchAgentResponses isInitial response st t) in
  messages st' = messages st \/
  exists x rest t1,
    messages st'
    = fst (upsertMessages (x :: rest) (negb isInitial) (messages st) t1).
Proof.
  unfold fetchAgentResponses, fetchAgentResponses_try, bind, ret.
  destruct response as [e|contentTypeJson ok body]; simpl.
  - left. now case_abort st.
  - destruct contentTypeJson; simpl; [|left; now case_abort st].
    destruct body as [e|data]; simpl; [left; now case_abort st|].
    destruct ok; simpl; [|left; now case_abort st].
    case_abort st; [now left|].
    destruct (map_buildAgentMessage _ t) as [mapped t1].
    destruct (filter_Boolean mapped) as [|latest others]; simpl.
    + left. rewrite ?Habort. reflexivity.
    + right. exists (Some latest), (List.map Some others), t1.
      destruct (upsertMessages
                  (Some latest :: List.map Some others) (negb isInitial)
                  (messages st) t1) as [ms t2].
      destruct (timestamp latest); simpl; rewrite ?Habort; reflexivity.
Qed.

Lemma handleSubmit_begin_messages (st : state) (t : nat) :
  let st' := fst (fst (handleSubmit_begin st t)) in
  messages st' = messages st \/
  exists t1 t2,
    let u := new_userMessage (clock (S t)) (trim (inputValue st))
               (Date (clock (S (S t)))) in
    let th := new_thinkingMessage (clock t1) (Date (clock (S t1))) in
    messages st'
    = fst (upsertMessages [Some th] false
             (fst (upsertMessages [Some u] false (messages st) (S (S (S t)))))
             t2).
Proof.
  unfold handleSubmit_begin.
  destruct (isAuthenticated st); cbn [negb]; [|now left].
  destruct (String.eqb (trim (inputValue st)) "" || isLoading st);
    [now left|].
  right. unfold bind, ret, new_Date, Date_now. cbv beta iota zeta.
  destruct (upsertMessages
              [Some (new_userMessage (clock (S t)) (trim (inputValue st))
                       (Date (clock (S (S t)))))] false
              (messages st) (S (S (S t)))) as [ms1 t1].
  cbv beta iota zeta. cbn [messages setIsLoading setInputValue setMessages].
  exists t1, (S (S t1)).
  cbn [fst].
  now destruct (upsertMessages _ false ms1
                  (S (S t1))).
Qed.

Lemma handleSubmit_catch_eq (error : exn) (st : state) (t : nat) :
  let e := new_errorMessage (clock t) error (Date (clock (S t))) in
  handleSubmit_catch error st t
  = (setMessages
       (fun _ => fst (upsertMessages [Some e] false
                        (dropThinking (messages st)) (S (S t))))
       (setMessages dropThinking st),
     snd (upsertMessages [Some e] false
            (dropThinking (messages st)) (S (S t)))).
Proof.
  unfold handleSubmit_catch, bind, ret, new_Date, Date_now.
  cbv beta iota zeta. cbn [messages setMessages].
  now destruct (upsertMessages _ false
                  (dropThinking (messages st)) (S (S t))).
Qed.

Lemma handleSubmit_resume_eq (userMessage : message)
    (response : fetched send_data) (st : state) (t : nat) :
  handleSubmit_resume userMessage response st t
  = match handleSubmit_try userMessage response st with
    | (st1, None) => (setIsLoading false st1, t)
    | (st1, Some error) =>
        (setIsLoading false (fst (handleSubmit_catch error st1 t)),
         snd (handleSubmit_catch error st1 t))
    end.
Proof.
  unfold handleSubmit_resume.
  destruct (handleSubmit_try userMessage response st) as [st1 [error|]];
    unfold bind, ret; [|reflexivity].
  now destruct (handleSubmit_catch error st1 t).
Qed.

(** The [try] block leaves the store alone or acknowledges. *)
Lemma handleSubmit_try_messages (userMessage : message)
    (response : fetched send_data) (st : state) :
  let st1 := fst (handleSubmit_try userMessage response st) in
  messages st1 = messages st \/
  exists data, messages st1 = acknowledge userMessage data (messages st).
Proof.
  unfold handleSubmit_try.
  destruct response as [e|contentTypeJson ok body]; [now left|].
  destruct contentTypeJson; [|now left].
  destruct body as [e|data]; [now left|].
  right. exists data. now destruct ok.
Qed.

Lemma step_bounded (a : action) (st : state) (t : nat) :
  (length (messages st) <= 50)%nat ->
  (length (messages (fst (step a st t))) <= 50)%nat.
Proof.
  intros H. destruct a; cbn [step]; unfold bind, ret;
    try exact H.
  - destruct (fetchAgentResponses_messages isInitial response st t)
      as [->|(x & rest & t1 & ->)]; [exact H|].
    now apply upsertMessages_length.
  - pose proof (upsertMessages_length incoming restampNew
                  (messages st) t H) as Hlen.
    now destruct (upsertMessages incoming
                    restampNew (messages st) t).
  - pose proof (handleSubmit_begin_messages st t) as Hb. cbv zeta in Hb.
    destruct (handleSubmit_begin st t) as [[st' u] t']. cbn [fst] in *.
    destruct Hb as [->|(t1 & t2 & ->)]; [exact H|].
    now apply upsertMessages_length, upsertMessages_length.
  - rewrite handleSubmit_resume_eq.
    pose proof (handleSubmit_try_messages userMessage response st) as Ht.
    cbv zeta in Ht.
    destruct (handleSubmit_try userMessage response st) as [st1 thrown].
    cbn [fst] in Ht.
    assert (H1 : (length (messages st1) <= 50)%nat).
    { destruct Ht as [->|(data & ->)]; [exact H|].
      rewrite acknowledge_length.
      pose proof (dropThinking_length (messages st)).
      lia. }
    destruct thrown as [error|]; cbn [fst]; [|exact H1].
    rewrite handleSubmit_catch_eq. cbv zeta. cbn [fst].
    cbn [messages setIsLoading setMessages].
    apply upsertMessages_length.
    pose proof (dropThinking_length (messages st1)). lia.
Qed.

Lemma run_bounded (actions : list action) (st : state) (t : nat) :
  (length (messages st) <= 50)%nat ->
  (length (messages (fst (run actions st t))) <= 50)%nat.
Proof.
  revert st t. induction actions as [|a rest IH]; intros st t H.
  - exact H.
  - unfold run in *. cbn [forEach]. unfold bind.
    pose proof (step_bounded a st t H) as Hs.
    destruct (step a st t) as [st1 t1]. now apply IH.
Qed.

(** C5.  A non-empty upsert leaves the last 50 entries of the ordered
    view of the merged map in the store and discards the entries before
    them, so the store holds at most 50 events; and over any session
    that starts from the empty store (polls, upserts and submissions in
    any order) the store holds at most 50 events after every step. *)
Theorem store_bounded_by_50 :
  (forall (x : option message) (rest : list (option message))
          (restampNew : bool) (prev : list message) (t : nat),
      let view :=
        sortedMessages (fst (mergedMap (x :: rest) restampNew prev t)) in
      let store := fst (upsertMessages (x :: rest) restampNew prev t) in
      store = slice_last 50 view /\
      view = firstn (length view - 50) view ++ store /\
      (length store <= 50)%nat) /\
  (forall (actions : list action) (t : nat),
      (length (messages (fst (run actions initial_state t))) <= 50)%nat).
Proof.
  split.
  - intros x rest restampNew prev t view store. subst store.
    rewrite upsertMessages_nonempty by discriminate. cbn [fst]. fold view.
    split; [reflexivity|]. split.
    + apply slice_last_suffix.
    + apply slice_last_length.
  - intros actions t. apply run_bounded. simpl. lia.
Qed.

Lemma skipn_In {A : Type} (n : nat) (l : list A) (x : A) :
  In x (skipn n l) -> In x l.
Proof.
  revert l. induction n as [|n IH]; intros l; [exact (fun H => H)|].
  destruct l as [|z l]; [contradiction|]. intros H. right. now apply IH.
Qed.

Lemma filter_length_lt {A : Type} (p : A -> bool) (l : list A) (m : A) :
  In m l -> p m = false -> (length (filter p l) < length l)%nat.
Proof.
  induction l as [|x l IH]; simpl; [contradiction|].
  intros [->|Hin] Hp.
  - rewrite Hp. pose proof (filter_length_le p l). lia.
  - specialize (IH Hin Hp). destruct (p x); simpl; lia.
Qed.

(** C10.  An event whose task id is absent or does not parse as an
    integer sorts with key 0 (so do the user message, the placeholder
    and the error event that [handleSubmit] builds); in the ordered view
    no such event comes after an event with a positive task id; the
    retention window never drops an event with a positive task id while
    it keeps one with key 0; when the merged map exceeds the cap, the
    store is cut to 50 events and an event of the lowest key is evicted;
    and an event with key 0 is evicted as soon as 50 events with a
    positive task id are in the map. *)
Theorem unparsed_taskId_sorts_first :
  (forall m : message, parseInt (taskId m) = None -> taskKey m = 0) /\
  (forall now taskText error ts,
      taskKey (new_userMessage now taskText ts) = 0 /\
      taskKey (new_thinkingMessage now ts) = 0 /\
      taskKey (new_errorMessage now error ts) = 0) /\
  (forall (map : Map) (pre post : list message) (m y : message),
      sortedMessages map = pre ++ y :: post ->
      taskKey m = 0 -> 0 < taskKey y -> ~ In m post) /\
  (forall (x : option message) (rest : list (option message))
          (restampNew : bool) (prev : list message) (t : nat)
          (m y : message),
      let view :=
        sortedMessages (fst (mergedMap (x :: rest) restampNew prev t)) in
      let store := fst (upsertMessages (x :: rest) restampNew prev t) in
      taskKey m = 0 -> In m store ->
      0 < taskKey y -> In y view -> In y store) /\
  (forall (x : option message) (rest : list (option message))
          (restampNew : bool) (prev : list message) (t : nat),
      let view :=
        sortedMessages (fst (mergedMap (x :: rest) restampNew prev t)) in
      let store := fst (upsertMessages (x :: rest) restampNew prev t) in
      (50 < length view)%nat ->
      length store = 50%nat /\
      exists d, In d view /\ ~ In d store /\
                forall y, In y view -> taskKey d <= taskKey y) /\
  (forall (x : option message) (rest : list (option message))
          (restampNew : bool) (prev : list message) (t : nat)
          (m : message),
      let view :=
        sortedMessages (fst (mergedMap (x :: rest) restampNew prev t)) in
      let store := fst (upsertMessages (x :: rest) restampNew prev t) in
      taskKey m = 0 ->
      (50 <= length (filter (fun y => (0 <? taskKey y)%Z) view))%nat ->
      ~ In m store).
Proof.
  split; [|split; [|split; [|split; [|split]]]].
  - intros m H. unfold taskKey. now rewrite H.
  - intros. repeat split.
  - intros map pre post m y Hview Hm Hy Hin.
    pose proof (sort_sorted taskKey (map_values map)) as Hs.
    rewrite <- sortedMessages_by_key, Hview in Hs.
    change (pre ++ y :: post) with (pre ++ [y] ++ post) in Hs.
    rewrite app_assoc in Hs.
    assert (Hy' : In y (pre ++ [y])) by (apply in_or_app; right; now left).
    pose proof (StronglySorted_app_le _ _ _ Hs y m Hy' Hin) as Hle.
    unfold keyLe in Hle. lia.
  - intros x rest restampNew prev t m y view store Hm Hin Hy Hview.
    subst store. rewrite upsertMessages_nonempty in * by discriminate.
    cbn [fst] in *. fold view in Hin |- *.
    pose proof (sort_sorted taskKey
                  (map_values (fst (mergedMap (x :: rest) restampNew prev t))))
      as Hs.
    rewrite <- sortedMessages_by_key in Hs. fold view in Hs.
    rewrite (slice_last_suffix 50 view) in Hs, Hview.
    apply in_app_or in Hview. destruct Hview as [Hpre|Hsuf]; [|exact Hsuf].
    pose proof (StronglySorted_app_le _ _ _ Hs y m Hpre Hin) as Hle.
    unfold keyLe in Hle. lia.
  - intros x rest restampNew prev t view store Hlen.
    subst store. rewrite upsertMessages_nonempty by discriminate.
    cbn [fst]. fold view.
    pose proof (sort_sorted taskKey
                  (map_values (fst (mergedMap (x :: rest) restampNew prev t))))
      as Hs.
    rewrite <- sortedMessages_by_key in Hs. fold view in Hs.
    pose proof (mergedMap_inv restampNew (x :: rest) prev t) as Hinv.
    destruct (mergedMap (x :: rest) restampNew prev t) as [map1 t1].
    cbn [fst] in *. destruct Hinv as (Hnd1 & Hk1 & _).
    pose proof (sortedMessages_NoDup map1 Hnd1 Hk1) as Hnd.
    fold view in Hnd.
    split; [unfold slice_last; rewrite length_skipn; lia|].
    unfold slice_last.
    destruct view as [|d view']; [simpl in Hlen; lia|].
    exists d. split; [now left|]. split.
    + intros Hin.
      replace (length (d :: view') - 50)%nat
        with (S (length view' - 50)) in Hin by (simpl in *; lia).
      cbn [skipn] in Hin. apply skipn_In in Hin.
      cbn [List.map] in Hnd. inversion_clear Hnd as [|? ? Hd _].
      apply Hd. now apply in_map.
    + intros y [<-|Hy]; [lia|].
      apply StronglySorted_inv in Hs. destruct Hs as [_ Hall].
      rewrite Forall_forall in Hall. exact (Hall y Hy).
  - intros x rest restampNew prev t m view store Hm Hpos Hin.
    subst store. rewrite upsertMessages_nonempty in Hin by discriminate.
    cbn [fst] in Hin. fold view in Hin.
    pose proof (sort_sorted taskKey
                  (map_values (fst (mergedMap (x :: rest) restampNew prev t))))
      as Hs.
    rewrite <- sortedMessages_by_key in Hs. fold view in Hs.
    rewrite (slice_last_suffix 50 view) in Hs, Hpos.
    set (ev := firstn (length view - 50) view) in *.
    set (store := slice_last 50 view) in *.
    assert (Hev : filter (fun y => 0 <? taskKey y) ev = []).
    { assert (Hle : forall d, In d ev -> taskKey d <= 0).
      { intros d Hd.
        pose proof (StronglySorted_app_le _ _ _ Hs d m Hd Hin) as Hle.
        unfold keyLe in Hle. lia. }
      clearbody ev. clear - Hle.
      induction ev as [|d ev IH]; [reflexivity|]. simpl.
      assert (Hd : taskKey d <= 0) by (apply Hle; now left).
      destruct (Z.ltb_spec 0 (taskKey d)); [lia|].
      apply IH. intros d' Hd'. apply Hle. now right. }
    rewrite filter_app, Hev in Hpos. cbn [app] in Hpos.
    assert (Hm' : (0 <? taskKey m) = false) by (rewrite Hm; reflexivity).
    pose proof (filter_length_lt (fun y => 0 <? taskKey y) store m Hin Hm').
    pose proof (slice_last_length 50 view). fold store in H0. lia.
Qed.

(** *** Polling *)

Lemma buildAgentMessage_Date (item : option raw_item) (t : nat)
    (m : message) :
  fst (buildAgentMessage item t) = Some m ->
  exists ms, timestamp m = Date ms.
Proof.
  unfold buildAgentMessage. destruct item as [item|]; [|discriminate].
  destruct (truthy (item_id item)); cbn [negb]; [|discriminate].
  unfold bind, ret.
  pose proof (ensureDate_is_Date (item_timestamp item) t)
    as [ms Hms].
  destruct (ensureDate (item_timestamp item) t) as [ts t1].
  cbn [fst] in *. intros [= <-]. exists ms. exact Hms.
Qed.

Lemma map_buildAgentMessage_Date (items : list (option raw_item)) (t : nat)
    (m : message) :
  In m (filter_Boolean (fst (map_buildAgentMessage items t))) ->
  exists ms, timestamp m = Date ms.
Proof.
  revert t. induction items as [|item rest IH]; intros t;
    cbn [map_buildAgentMessage]; [intros []|].
  unfold bind, ret.
  pose proof (buildAgentMessage_Date item t) as Hb.
  destruct (buildAgentMessage item t) as [b t1].
  specialize (IH t1).
  destruct (map_buildAgentMessage rest t1)
    as [bs t2].
  cbn [fst] in *. destruct b as [b|]; cbn [filter_Boolean]; [|exact IH].
  intros [<-|Hin]; [now apply Hb|now apply IH].
Qed.


(** A successful poll on a live component, spelled out. *)
Lemma fetchAgentResponses_ok (isInitial : bool) (data : poll_data)
    (st : state) (t : nat) :
  abortRef st = false ->
  let items := match data_messages data with
               | Some items => items
               | None => []
               end in
  let mapped := map_buildAgentMessage items t in
  let st' := fst (fetchAgentResponses isInitial
                    (Responded true true (JsonData data)) st t) in
  historyError st' = None /\
  match filter_Boolean (fst mapped) with
  | [] => messages st' = messages st /\
          lastFetchTimeRef st' = lastFetchTimeRef st
  | latest :: others =>
      messages st'
      = fst (upsertMessages (List.map Some (latest :: others))
               (negb isInitial) (messages st) (snd mapped)) /\
      forall ms, timestamp latest = Date ms ->
                 lastFetchTimeRef st' = Some ms
  end.
Proof.
  intros Habort.
  unfold fetchAgentResponses, fetchAgentResponses_try, bind, ret.
  cbn [negb]. rewrite Habort. cbv beta iota zeta.
  destruct (map_buildAgentMessage _ t)
    as [mapped t1].
  cbn [fst snd].
  destruct (filter_Boolean mapped) as [|latest others].
  - cbn. rewrite Habort. cbn. auto.
  - destruct (upsertMessages
                (List.map Some (latest :: others)) (negb isInitial)
                (messages st) t1) as [ms1 t2].
    cbv beta iota zeta.
    destruct (timestamp latest) eqn:Hts; cbn; rewrite Habort; cbn;
      (split; [reflexivity|]); (split; [reflexivity|]);
      intros ms' [=]; subst; reflexivity.
Qed.


(** What the cursor is after a successful poll on a live component that
    yields at least one normalized event: the timestamp of the first
    normalized event of that batch, [normalized[0]], which the next
    incremental fetch passes as [since]. *)
Lemma cursor_is_first_of_batch
    (isInitial : bool) (data : poll_data) (st : state) (t : nat)
    (latest : message) (others : list message) :
  abortRef st = false ->
  filter_Boolean
    (fst (map_buildAgentMessage
            (match data_messages data with
             | Some items => items
             | None => []
             end) t))
  = latest :: others ->
  let st' := fst (fetchAgentResponses isInitial
                    (Responded true true (JsonData data)) st t) in
  exists ms,
    timestamp latest = Date ms /\
    lastFetchTimeRef st' = Some ms /\
    since_parameter false st' = Some ms.
Proof.
  intros Habort Hnorm st'.
  pose proof (fetchAgentResponses_ok isInitial data st t Habort) as Hok.
  cbv zeta in Hok. fold st' in Hok. destruct Hok as [_ Hok].
  destruct (map_buildAgentMessage_Date
              (match data_messages data with
               | Some items => items
               | None => []
               end) t latest) as [ms Hms];
    [rewrite Hnorm; now left|].
  rewrite Hnorm in Hok. destruct Hok as [_ Hc].
  exists ms. split; [exact Hms|]. split; [now apply Hc|].
  unfold since_parameter. cbn [negb]. now apply Hc.
Qed.

(** *** Submitting *)

Lemma dropThinking_In (m : message) (prev : list message) :
  In m (dropThinking prev) <-> In m prev /\ truthy (isThinking m) = false.
Proof.
  unfold dropThinking. rewrite filter_In.
  now destruct (truthy (isThinking m)).
Qed.

Lemma dropThinking_NoDup (prev : list message) :
  NoDup (map id prev) -> NoDup (map id (dropThinking prev)).
Proof.
  unfold dropThinking. induction prev as [|x prev IH]; simpl; [auto|].
  intros H. inversion_clear H as [|? ? Hx Hnd].
  destruct (negb (truthy (isThinking x))); simpl; [|auto].
  constructor; [|auto]. intros Hin. apply Hx.
  apply in_map_iff in Hin. destruct Hin as (y & Hy & Hin).
  apply filter_In in Hin. rewrite <- Hy. apply in_map. tauto.
Qed.

Lemma acknowledge_id (userMessage : message) (data : send_data)
    (prev : list message) (m' : message) :
  truthy (message_id data) = true ->
  In m' (acknowledge userMessage data prev) ->
  exists m, In m (dropThinking prev) /\
            timestamp m' = timestamp m /\ taskKey m' = taskKey m /\
            id m' = if strict_eq (id m) (id userMessage)
                    then message_id data else id m.
Proof.
  intros Hc Hin. unfold acknowledge in Hin. apply in_map_iff in Hin.
  destruct Hin as (m & <- & Hin). exists m. split; [exact Hin|].
  destruct (strict_eq (id m) (id userMessage)); [|auto].
  unfold js_or. rewrite Hc. auto.
Qed.

(** The acknowledged branch of [handleSubmit].  When the server answers
    with an id of its own, the store holds no event under the temporary id
    any more; every event keeps its place among the events that are not
    placeholders, with its timestamp and sort key, the optimistic one now
    under the server's id; and the ids of the store stay distinct provided
    they were and the server's id was not in the store yet. *)
Theorem acknowledge_replaces_temporary_id
    (userMessage : message) (data : send_data) (prev : list message) :
  truthy (message_id data) = true ->
  message_id data <> id userMessage ->
  let store := acknowledge userMessage data prev in
  (forall st t,
      messages (fst (handleSubmit_resume userMessage
                       (Responded true true (JsonData data)) st t))
      = acknowledge userMessage data (messages st)) /\
  (forall m, In m store -> id m <> id userMessage) /\
  (forall n m,
      nth_error (dropThinking prev) n = Some m ->
      exists m',
        nth_error store n = Some m' /\
        timestamp m' = timestamp m /\ taskKey m' = taskKey m /\
        id m' = if strict_eq (id m) (id userMessage)
                then message_id data else id m) /\
  (NoDup (map id prev) -> ~ In (message_id data) (map id prev) ->
   NoDup (map id store)).
Proof.
  intros Hc Hne store. split; [|split; [|split]].
  - intros st t. rewrite handleSubmit_resume_eq. reflexivity.
  - intros m' Hin.
    destruct (acknowledge_id userMessage data prev m' Hc Hin)
      as (m & _ & _ & _ & ->).
    destruct (strict_eq_spec (id m) (id userMessage)); assumption.
  - intros n m Hn. subst store. unfold acknowledge.
    rewrite nth_error_map, Hn. cbn [option_map].
    eexists. split; [reflexivity|].
    destruct (strict_eq (id m) (id userMessage)); [|auto].
    unfold js_or. rewrite Hc. auto.
  - intros Hnd Hfresh. subst store. unfold acknowledge.
    apply dropThinking_NoDup in Hnd.
    assert (Hfresh' : ~ In (message_id data) (map id (dropThinking prev))).
    { intros Hin. apply Hfresh. apply in_map_iff in Hin.
      destruct Hin as (y & Hy & Hin). apply dropThinking_In in Hin.
      rewrite <- Hy. apply in_map. tauto. }
    clear Hfresh. induction (dropThinking prev) as [|x l IH];
      cbn [List.map]; [constructor|].
    cbn [List.map] in Hnd, Hfresh'. inversion_clear Hnd as [|? ? Hx Hnd'].
    constructor;
      [|apply IH; [assumption|intros H; apply Hfresh'; now right]].
    intros Hin. apply in_map_iff in Hin. destruct Hin as (y' & Hy' & Hin).
    apply in_map_iff in Hin. destruct Hin as (y & <- & Hin).
    assert (Hyl : In (id y) (map id l)) by now apply in_map.
    unfold js_or in Hy'. rewrite Hc in Hy'.
    destruct (strict_eq_spec (id y) (id userMessage)) as [Hy|Hy],
             (strict_eq_spec (id x) (id userMessage)) as [Hx'|Hx'];
      cbn [id with_id] in Hy'.
    + apply Hx. congruence.
    + apply Hfresh'. left. congruence.
    + apply Hfresh'. right. congruence.
    + apply Hx. congruence.
Qed.

Lemma mergedMap_singleton_length (msg : message) (restampNew : bool)
    (prev : list message) (t : nat) :
  (length (fst (mergedMap [Some msg] restampNew prev t))
   <= S (length prev))%nat.
Proof.
  unfold mergedMap. cbn [forEach]. unfold bind, ret.
  destruct (Map_new_entries prev) as (Hnd & Hk & _ & Hlen).
  pose proof (mergeIncoming_inv restampNew (Some msg)
                (Map_new (entries prev)) t Hnd Hk) as H.
  destruct (mergeIncoming restampNew (Some msg)
              (Map_new (entries prev)) t) as [map' t'].
  cbn [fst]. destruct H as (_ & _ & _ & H & _). lia.
Qed.

(** An upsert of one message that evicts nothing keeps every id of the
    store and holds the message, if it carries an id and a time. *)
Lemma upsert_one_keeps (msg : message) (prev : list message) (t : nat) :
  (length prev < 50)%nat ->
  let store := fst (upsertMessages [Some msg] false prev t) in
  (forall m, In m prev -> exists m', In m' store /\ id m' = id m) /\
  (nullish (id msg) = false -> forall ms, timestamp msg = Date ms ->
   In msg store).
Proof.
  intros Hlen store. subst store.
  rewrite upsertMessages_nonempty by discriminate. cbn [fst].
  pose proof (mergedMap_singleton_length msg false prev t) as Hl.
  pose proof (mergedMap_inv false [Some msg] prev t) as Hi.
  pose proof (forEach_plain_value [Some msg]
                (Map_new (entries prev)) t (id msg) msg) as Hv.
  fold (mergedMap [Some msg] false prev t) in Hv.
  destruct (mergedMap [Some msg] false prev t) as [map' t'].
  cbn [fst] in *. destruct Hi as (Hnd & Hk & Hkeys & _).
  rewrite slice_last_all
    by (rewrite sortedMessages_by_key, sort_length; unfold map_values;
        rewrite length_map; lia).
  split.
  - intros m Hm.
    assert (Hin : In (id m) (map_keys map')) by now apply Hkeys, in_map.
    destruct (map_get (id m) map') as [v|] eqn:Hget;
      [|apply map_get_None in Hget; contradiction].
    exists v. split.
    + rewrite sortedMessages_by_key. apply sort_In.
      now apply (map_get_In_values (id m)).
    + apply map_get_Some_In in Hget. unfold keyed in Hk.
      rewrite Forall_forall in Hk. now apply (Hk _ Hget).
  - intros Hid ms Hts.
    rewrite sortedMessages_by_key. apply sort_In.
    apply (map_get_In_values (id msg)). rewrite Hv.
    + rewrite Hts. cbn. f_equal. destruct msg; cbn in *. now subst.
    + constructor; [|constructor]. cbn. rewrite Hid, Hts. reflexivity.
    + cbn. rewrite Hid, strict_eq_refl. reflexivity.
Qed.

(** C8 (as amended).  When a submission fails, every placeholder is
    taken out of the store and an error event (sender [system],
    [isError], an id and a timestamp read from the clock at that moment)
    is upserted; it is in the store whenever fewer than 50 events remain
    once the placeholders are out.  The optimistic user event is not
    removed: in that case every event that is not a placeholder still
    has an event under its id, and after a failure that delivered no
    body that includes the temporary id itself. *)
Theorem failed_submission_reports_error
    (userMessage : message) (response : fetched send_data) (st : state)
    (t : nat) :
  requestFails response = true ->
  let st1 := fst (handleSubmit_try userMessage response st) in
  let st' := fst (handleSubmit_resume userMessage response st t) in
  exists error,
    snd (handleSubmit_try userMessage response st) = Some error /\
    let e := new_errorMessage (clock t) error (Date (clock (S t))) in
    (forall m, In m (messages st') -> truthy (isThinking m) = false) /\
    (isError e = Bool true /\ sender e = Str "system" /\
     timestamp e = Date (clock (S t))) /\
    ((length (dropThinking (messages st1)) < 50)%nat ->
     In e (messages st') /\
     forall m, In m (messages st1) -> truthy (isThinking m) = false ->
               exists m', In m' (messages st') /\ id m' = id m) /\
    ((forall data, response <> Responded true false (JsonData data)) ->
     messages st1 = messages st).
Proof.
  intros Hfail st1 st'.
  assert (Hthrown : exists error,
             snd (handleSubmit_try userMessage response st) = Some error).
  { unfold handleSubmit_try.
    destruct response as [e|contentTypeJson ok body]; [cbn; eauto|].
    destruct contentTypeJson; [|cbn; eauto].
    destruct body as [e|data]; [cbn; eauto|].
    destruct ok; [discriminate|cbn; eauto]. }
  destruct Hthrown as [error Herror]. exists error.
  split; [exact Herror|]. cbv zeta.
  assert (Hst' : messages st'
                 = fst (upsertMessages
                          [Some (new_errorMessage (clock t) error
                                   (Date (clock (S t))))]
                          false (dropThinking (messages st1)) (S (S t)))).
  { subst st' st1. rewrite handleSubmit_resume_eq.
    destruct (handleSubmit_try userMessage response st) as [s1 thrown].
    cbn [fst snd] in *. subst thrown.
    rewrite handleSubmit_catch_eq. reflexivity. }
  split; [|split; [|split]].
  - intros m Hin. rewrite Hst' in Hin.
    apply upsertMessages_origin in Hin.
    destruct Hin as [Hin|(msg & [[= <-]|[]] & ->)].
    + now apply dropThinking_In in Hin.
    + reflexivity.
  - repeat split.
  - intros Hlen.
    destruct (upsert_one_keeps
                (new_errorMessage (clock t) error (Date (clock (S t))))
                (dropThinking (messages st1)) (S (S t)) Hlen)
      as [Hkeep Hnew].
    rewrite Hst'. split.
    + now apply (Hnew eq_refl (clock (S t))).
    + intros m Hm Hth. apply Hkeep. now apply dropThinking_In.
  - intros Hnobody. subst st1. unfold handleSubmit_try.
    destruct response as [e|contentTypeJson ok body]; [reflexivity|].
    destruct contentTypeJson; [|reflexivity].
    destruct body as [e|data]; [reflexivity|].
    destruct ok; [discriminate|]. now contradiction (Hnobody data).
Qed.

(** * Further properties of the code *)

(** ** [upsertMessages]: ids *)

Lemma storedOf_cons (x : option message) (rest : list (option message)) :
  storedOf (x :: rest)
  = match stored x with
    | Some m => m :: storedOf rest
    | None => storedOf rest
    end.
Proof. unfold storedOf. simpl. now destruct (stored x). Qed.

Lemma In_storedOf (incoming : list (option message)) (m : message) :
  In m (storedOf incoming) <-> In (Some m) incoming /\ nullish (id m) = false.
Proof.
  induction incoming as [|x rest IH]; [simpl; tauto|].
  rewrite storedOf_cons. unfold stored at 1. destruct x as [m0|].
  - destruct (nullish (id m0)) eqn:Hn; simpl; rewrite IH.
    + split; [tauto|]. intros [[[= ->]|H] Hm]; [congruence|tauto].
    + split.
      * intros [->|H]; [auto|tauto].
      * intros [[[= ->]|H] Hm]; auto.
  - simpl. rewrite IH. split; [tauto|]. intros [[H|H] Hm]; [discriminate|tauto].
Qed.

(** The keys after the loop: those of the map and those of the stored
    elements of the batch. *)
Lemma forEach_keys (restampNew : bool) (incoming : list (option message))
    (map : Map) (t : nat) (k : value) :
  In k (map_keys (fst (forEach incoming (mergeIncoming restampNew) map t)))
  <-> In k (map_keys map) \/ In k (List.map id (storedOf incoming)).
Proof.
  revert map t. induction incoming as [|x rest IH]; intros map t.
  - simpl. tauto.
  - cbn [forEach]. unfold bind. rewrite storedOf_cons.
    pose proof (mergeIncoming_cases restampNew x map t) as H1.
    destruct (mergeIncoming restampNew x map t) as [map1 t1].
    destruct H1 as [_ H1]. rewrite IH.
    destruct (stored x) as [m|].
    + destruct H1 as (ts & -> & _). rewrite In_map_keys_set. simpl.
      intuition auto.
    + subst map1. tauto.
Qed.

Lemma mergedMap_keys (restampNew : bool) (incoming : list (option message))
    (prev : list message) (t : nat) (k : value) :
  In k (map_keys (fst (mergedMap incoming restampNew prev t)))
  <-> In k (List.map id prev) \/ In k (List.map id (storedOf incoming)).
Proof.
  unfold mergedMap. rewrite forEach_keys.
  destruct (Map_new_entries prev) as (_ & _ & Hkeys & _).
  now rewrite Hkeys.
Qed.

Lemma In_keys_values (map : Map) (k : value) :
  keyed map ->
  (In k (map_keys map) <-> In k (List.map id (map_values map))).
Proof. intros Hk. now rewrite keyed_ids. Qed.

(** After a non-empty upsert no two events of the store share an id,
    whatever the store held before, and every id of the store was in the
    store or on a stored element of the batch. *)
Theorem upsert_one_event_per_id
    (x : option message) (rest : list (option message)) (restampNew : bool)
    (prev : list message) (t : nat) :
  let store := fst (upsertMessages (x :: rest) restampNew prev t) in
  NoDup (List.map id store) /\
  forall m, In m store ->
            In (id m) (List.map id prev) \/
            In (id m) (List.map id (storedOf (x :: rest))).
Proof.
  intros store. split; [apply upsertMessages_NoDup|].
  intros m Hm. apply upsertMessages_In in Hm; [|discriminate].
  apply mergedMap_keys with (restampNew := restampNew) (t := t).
  destruct (in_dec value_eq_dec (id m)
              (map_keys (fst (mergedMap (x :: rest) restampNew prev t))))
    as [|Hno]; [assumption|].
  apply map_get_None in Hno. congruence.
Qed.

Lemma sortedMessages_ids (map : Map) (k : value) :
  keyed map ->
  (In k (List.map id (sortedMessages map)) <-> In k (map_keys map)).
Proof.
  intros Hk. rewrite sortedMessages_by_key, <- (keyed_ids map Hk).
  split; apply Permutation_in; [symmetry|]; apply Permutation_map, sort_perm.
Qed.

Lemma sortedMessages_length (map : Map) :
  length (sortedMessages map) = length map.
Proof.
  rewrite sortedMessages_by_key, sort_length. unfold map_values.
  apply length_map.
Qed.

(** While the merged map has at most 50 entries, the ids of the store
    after an upsert are exactly the ids it had and the ids of the stored
    elements of the batch: none is lost and none is invented. *)
Theorem upsert_ids_are_the_union
    (incoming : list (option message)) (restampNew : bool)
    (prev : list message) (t : nat) (i : value) :
  (length (fst (mergedMap incoming restampNew prev t)) <= 50)%nat ->
  (In i (List.map id (fst (upsertMessages incoming restampNew prev t)))
   <-> In i (List.map id prev) \/ In i (List.map id (storedOf incoming))).
Proof.
  intros Hlen. destruct incoming as [|x rest]; [simpl; tauto|].
  rewrite upsertMessages_nonempty by discriminate. cbn [fst].
  rewrite slice_last_all by now rewrite sortedMessages_length.
  pose proof (mergedMap_inv restampNew (x :: rest) prev t) as Hinv.
  pose proof (mergedMap_keys restampNew (x :: rest) prev t i) as Hkeys.
  destruct (mergedMap (x :: rest) restampNew prev t) as [map' t'].
  cbn [fst] in *. destruct Hinv as (_ & Hk & _).
  now rewrite sortedMessages_ids.
Qed.

(** ** [upsertMessages]: which record is stored *)

Lemma last_with_id_absent (incoming : list (option message)) (k : value) :
  (forall m, In m (storedOf incoming) -> id m <> k) ->
  last_with_id incoming k = None.
Proof.
  induction incoming as [|x rest IH]; [reflexivity|].
  intros H. cbn [last_with_id]. rewrite IH.
  - destruct x as [m|]; [|reflexivity].
    destruct (nullish (id m)) eqn:Hn; [reflexivity|]. simpl.
    destruct (strict_eq_spec (id m) k) as [Hk|]; [|reflexivity].
    exfalso. apply (H m); [|exact Hk]. apply In_storedOf. split; [now left|auto].
  - intros m Hm. apply H. apply In_storedOf in Hm. apply In_storedOf.
    split; [now right|tauto].
Qed.

Lemma last_with_id_split (pre post : list (option message)) (msg : message) :
  nullish (id msg) = false ->
  (forall m, In m (storedOf post) -> id m <> id msg) ->
  last_with_id (pre ++ Some msg :: post) (id msg) = Some msg.
Proof.
  intros Hn Hpost. induction pre as [|a pre IH].
  - cbn [app last_with_id]. rewrite (last_with_id_absent post _ Hpost).
    now rewrite Hn, strict_eq_refl.
  - cbn [app last_with_id]. now rewrite IH.
Qed.

(** When several records of a batch carry one id, the event stored under
    that id has the fields of the last of them, in both modes; only its
    timestamp is decided apart. *)
Theorem upsert_last_record_wins
    (pre post : list (option message)) (msg : message) (restampNew : bool)
    (prev : list message) (t : nat) (m : message) :
  nullish (id msg) = false ->
  (forall m', In m' (storedOf post) -> id m' <> id msg) ->
  In m (fst (upsertMessages (pre ++ Some msg :: post) restampNew prev t)) ->
  id m = id msg ->
  m = with_timestamp msg (timestamp m).
Proof.
  intros Hn Hpost Hin Hid.
  apply upsertMessages_In in Hin; [|now destruct pre].
  pose proof (forEach_last_with_id restampNew (pre ++ Some msg :: post)
                (Map_new (entries prev)) t (id msg)) as H.
  cbv zeta in H. rewrite (last_with_id_split pre post msg Hn Hpost) in H.
  destruct H as (v & Hv & Hvm). unfold mergedMap in Hin.
  rewrite Hid in Hin. congruence.
Qed.

Lemma forEach_plain_value_one (incoming : list (option message)) (map : Map)
    (t : nat) (k : value) (msg : message) :
  last_with_id incoming k = Some msg ->
  carriesTime (timestamp msg) = true ->
  map_get k (fst (forEach incoming (mergeIncoming false) map t))
  = Some (with_timestamp msg (fst (ensureDate (timestamp msg) 0%nat))).
Proof.
  revert map t. induction incoming as [|x rest IH]; intros map t Hlast Hct.
  - discriminate.
  - cbn [forEach last_with_id] in *. unfold bind.
    pose proof (mergeIncoming_cases false x map t) as H1.
    destruct (mergeIncoming false x map t) as [map1 t1].
    pose proof (forEach_last_with_id false rest map1 t1 k) as H2.
    cbv zeta in H2.
    destruct (last_with_id rest k) as [m'|] eqn:Hl.
    + injection Hlast as ->. now apply IH.
    + rewrite H2. clear H2 IH.
      destruct x as [m|]; [|discriminate].
      destruct H1 as [_ H1]. unfold stored in H1.
      destruct (nullish (id m)); simpl in *; [discriminate|].
      destruct (strict_eq_spec (id m) k) as [<-|]; [|discriminate].
      injection Hlast as ->. destruct H1 as (ts & -> & ->).
      rewrite map_get_set_same.
      now rewrite (carriesTime_ensureDate _ t Hct).
Qed.

(** Without [restampNew], the event stored under the id of a record that
    carries a time is that record with that time, whether the id was in
    the store or not; a record whose timestamp is a date is stored as it
    is. *)
Theorem upsert_plain_stores_carried_time
    (pre post : list (option message)) (msg : message)
    (prev : list message) (t : nat) (m : message) :
  nullish (id msg) = false ->
  carriesTime (timestamp msg) = true ->
  (forall m', In m' (storedOf post) -> id m' <> id msg) ->
  In m (fst (upsertMessages (pre ++ Some msg :: post) false prev t)) ->
  id m = id msg ->
  m = with_timestamp msg (fst (ensureDate (timestamp msg) t)) /\
  (forall ms, timestamp msg = Date ms -> m = msg).
Proof.
  intros Hn Hct Hpost Hin Hid.
  apply upsertMessages_In in Hin; [|now destruct pre].
  pose proof (forEach_plain_value_one (pre ++ Some msg :: post)
                (Map_new (entries prev)) t (id msg) msg
                (last_with_id_split pre post msg Hn Hpost) Hct) as H.
  unfold mergedMap in Hin. rewrite Hid in Hin. rewrite H in Hin.
  injection Hin as <-.
  split.
  - now rewrite (carriesTime_ensureDate _ t Hct).
  - intros ms Hms. rewrite Hms. simpl. destruct msg; simpl in *. now subst.
Qed.

(** An upsert does not alter the events whose id is not in the batch: such
    an event of the new store is an event of the old one, and while
    nothing is evicted every such event of a store with distinct ids is
    still there. *)
Theorem upsert_leaves_other_events
    (incoming : list (option message)) (restampNew : bool)
    (prev : list message) (t : nat) (m : message) :
  (forall msg, In msg (storedOf incoming) -> id msg <> id m) ->
  let store := fst (upsertMessages incoming restampNew prev t) in
  (In m store -> In m prev) /\
  (NoDup (List.map id prev) ->
   (length (fst (mergedMap incoming restampNew prev t)) <= 50)%nat ->
   In m prev -> In m store).
Proof.
  intros Hother store. subst store.
  destruct incoming as [|x rest]; [simpl; tauto|].
  pose proof (forEach_last_with_id restampNew (x :: rest)
                (Map_new (entries prev)) t (id m)) as H.
  cbv zeta in H. rewrite (last_with_id_absent _ _ Hother) in H.
  fold (mergedMap (x :: rest) restampNew prev t) in H.
  split.
  - intros Hin. apply upsertMessages_In in Hin; [|discriminate].
    rewrite H in Hin. apply map_get_Some_In, In_Map_new in Hin.
    unfold entries in Hin. apply in_map_iff in Hin.
    now destruct Hin as (m0 & [= _ ->] & Hin).
  - intros Hnd Hlen Hin.
    rewrite upsertMessages_nonempty by discriminate. cbn [fst].
    rewrite slice_last_all by now rewrite sortedMessages_length.
    rewrite sortedMessages_by_key. apply sort_In.
    apply (map_get_In_values (id m)). rewrite H.
    now apply map_get_entries.
Qed.

(** A batch without a usable element (every element falsy or without an
    id) leaves a store that is sorted, within the cap and has distinct ids
    exactly as it was, and reads no clock. *)
Theorem upsert_unusable_batch_changes_nothing
    (incoming : list (option message)) (restampNew : bool)
    (prev : list message) (t : nat) :
  Forall (fun x => stored x = None) incoming ->
  NoDup (List.map id prev) ->
  StronglySorted (keyLe taskKey) prev ->
  (length prev <= 50)%nat ->
  upsertMessages incoming restampNew prev t = (prev, t).
Proof.
  intros Hun Hnd Hs Hlen.
  destruct incoming as [|x rest]; [reflexivity|].
  assert (Hloop : forall map t0,
             forEach (x :: rest) (mergeIncoming restampNew) map t0
             = (map, t0)).
  { revert Hun. generalize (x :: rest). clear.
    induction l as [|y l IH]; intros Hun map t0; [reflexivity|].
    inversion_clear Hun as [|? ? Hy Hl]. cbn [forEach]. unfold bind.
    assert (Hstep : mergeIncoming restampNew y map t0 = (map, t0)).
    { unfold stored in Hy. destruct y as [m|]; [|reflexivity].
      simpl. now destruct (nullish (id m)). }
    rewrite Hstep. now apply IH. }
  unfold upsertMessages, bind, ret, mergedMap. rewrite Hloop.
  rewrite Map_new_NoDup by assumption.
  rewrite sortedMessages_by_key, entries_values.
  rewrite (sort_of_sorted taskKey prev Hs).
  now rewrite slice_last_all.
Qed.

(** ** [upsertMessages]: order and eviction *)

Lemma StronglySorted_filter {A : Type} (R : A -> A -> Prop)
    (p : A -> bool) (l : list A) :
  StronglySorted R l -> StronglySorted R (filter p l).
Proof.
  induction 1 as [|x l Hl IH Hx]; simpl; [constructor|].
  destruct (p x); [|assumption]. constructor; [assumption|].
  rewrite Forall_forall in *. intros y Hy. apply Hx.
  apply filter_In in Hy. tauto.
Qed.

Lemma StronglySorted_map_key {A : Type} (key : A -> Z) (f : A -> A)
    (l : list A) :
  (forall a, key (f a) = key a) ->
  StronglySorted (keyLe key) l -> StronglySorted (keyLe key) (List.map f l).
Proof.
  intros Hf. induction 1 as [|x l Hl IH Hx]; simpl; constructor;
    [assumption|].
  rewrite Forall_forall in *. intros y Hy. apply in_map_iff in Hy.
  destruct Hy as (y0 & <- & Hy0). unfold keyLe. rewrite !Hf.
  now apply Hx.
Qed.

Lemma upsertMessages_sorted (incoming : list (option message))
    (restampNew : bool) (prev : list message) (t : nat) :
  StronglySorted (keyLe taskKey) prev ->
  StronglySorted (keyLe taskKey)
    (fst (upsertMessages incoming restampNew prev t)).
Proof.
  intros Hprev. destruct incoming as [|x rest]; [exact Hprev|].
  rewrite upsertMessages_nonempty by discriminate. cbn [fst].
  set (view := sortedMessages _).
  assert (Hs : StronglySorted (keyLe taskKey) view)
    by (subst view; rewrite sortedMessages_by_key; apply sort_sorted).
  rewrite (slice_last_suffix 50 view) in Hs.
  now apply StronglySorted_app_r in Hs.
Qed.

Lemma acknowledge_sorted (userMessage : message) (data : send_data)
    (prev : list message) :
  StronglySorted (keyLe taskKey) prev ->
  StronglySorted (keyLe taskKey) (acknowledge userMessage data prev).
Proof.
  intros H. unfold acknowledge. apply StronglySorted_map_key.
  - intros a. now destruct (strict_eq (id a) (id userMessage)).
  - now apply StronglySorted_filter.
Qed.

Lemma step_sorted (a : action) (st : state) (t : nat) :
  StronglySorted (keyLe taskKey) (messages st) ->
  StronglySorted (keyLe taskKey) (messages (fst (step a st t))).
Proof.
  intros H. destruct a; cbn [step]; unfold bind, ret; try exact H.
  - destruct (fetchAgentResponses_messages isInitial response st t)
      as [->|(x & rest & t1 & ->)]; [exact H|].
    now apply upsertMessages_sorted.
  - pose proof (upsertMessages_sorted incoming restampNew (messages st) t H)
      as Hs.
    now destruct (upsertMessages incoming restampNew (messages st) t).
  - pose proof (handleSubmit_begin_messages st t) as Hb. cbv zeta in Hb.
    destruct (handleSubmit_begin st t) as [[st' u] t']. cbn [fst] in *.
    destruct Hb as [->|(t1 & t2 & ->)]; [exact H|].
    now apply upsertMessages_sorted, upsertMessages_sorted.
  - rewrite handleSubmit_resume_eq.
    pose proof (handleSubmit_try_messages userMessage response st) as Ht.
    cbv zeta in Ht.
    destruct (handleSubmit_try userMessage response st) as [st1 thrown].
    cbn [fst] in Ht.
    assert (H1 : StronglySorted (keyLe taskKey) (messages st1)).
    { destruct Ht as [->|(data & ->)]; [exact H|].
      now apply acknowledge_sorted. }
    destruct thrown as [error|]; cbn [fst]; [|exact H1].
    rewrite handleSubmit_catch_eq. cbv zeta. cbn [fst].
    cbn [messages setIsLoading setMessages].
    apply upsertMessages_sorted. now apply StronglySorted_filter.
Qed.

(** The store is sorted by task key after every non-empty upsert, and it
    stays sorted through every step of a session that starts from the
    empty store: acknowledging a submission and removing placeholders keep
    the order. *)
Theorem store_stays_sorted_by_task_key :
  (forall (x : option message) (rest : list (option message))
          (restampNew : bool) (prev : list message) (t : nat),
      StronglySorted (keyLe taskKey)
        (fst (upsertMessages (x :: rest) restampNew prev t))) /\
  (forall (actions : list action) (t : nat),
      StronglySorted (keyLe taskKey)
        (messages (fst (run actions initial_state t)))).
Proof.
  split.
  - intros x rest restampNew prev t.
    rewrite upsertMessages_nonempty by discriminate. cbn [fst].
    set (view := sortedMessages _).
    assert (Hs : StronglySorted (keyLe taskKey) view)
      by (subst view; rewrite sortedMessages_by_key; apply sort_sorted).
    rewrite (slice_last_suffix 50 view) in Hs.
    now apply StronglySorted_app_r in Hs.
  - intros actions t.
    assert (H : forall st t0,
               StronglySorted (keyLe taskKey) (messages st) ->
               StronglySorted (keyLe taskKey)
                 (messages (fst (run actions st t0)))).
    { induction actions as [|a rest IH]; intros st t0 Hst; [exact Hst|].
      unfold run in *. cbn [forEach]. unfold bind.
      pose proof (step_sorted a st t0 Hst) as Hs.
      destruct (step a st t0) as [st1 t1]. now apply IH. }
    apply H. constructor.
Qed.

(** The retention window keeps the events with the highest task keys: the
    store has [min 50 n] events when the merged map has [n], and no
    evicted event has a higher key than a kept one. *)
Theorem retention_keeps_highest_keys
    (x : option message) (rest : list (option message)) (restampNew : bool)
    (prev : list message) (t : nat) :
  let map := fst (mergedMap (x :: rest) restampNew prev t) in
  let view := sortedMessages map in
  let store := fst (upsertMessages (x :: rest) restampNew prev t) in
  let evicted := firstn (length view - 50) view in
  length store = Nat.min 50 (length map) /\
  Permutation (map_values map) (evicted ++ store) /\
  forall d k, In d evicted -> In k store -> taskKey d <= taskKey k.
Proof.
  intros map view store evicted. subst store.
  rewrite upsertMessages_nonempty by discriminate. cbn [fst].
  fold map. fold view. split; [|split].
  - unfold slice_last. rewrite length_skipn. subst view.
    rewrite sortedMessages_length. lia.
  - subst evicted. rewrite <- slice_last_suffix. subst view.
    rewrite sortedMessages_by_key. apply sort_perm.
  - intros d k Hd Hk.
    assert (Hs : StronglySorted (keyLe taskKey) view)
      by (subst view; rewrite sortedMessages_by_key; apply sort_sorted).
    rewrite (slice_last_suffix 50 view) in Hs.
    exact (StronglySorted_app_le _ _ _ Hs d k Hd Hk).
Qed.

(** ** chatUtils.js: [ensureDate] and [buildAgentMessage] *)

(** [ensureDate] always returns a date; applied to its own result it
    returns it again without reading the clock; and it reads the clock,
    once, exactly when the value carries no time. *)
Theorem ensureDate_settles (val : value) (t : nat) :
  let r := ensureDate val t in
  (exists ms, fst r = Date ms) /\
  ensureDate (fst r) (snd r) = r /\
  (if carriesTime val then snd r = t else r = (Date (clock t), S t)).
Proof.
  destruct val; simpl; try (repeat split; eauto; fail).
  - destruct (Z.abs n <=? 8640000000000000); simpl; repeat split; eauto.
  - destruct (Date_parse s); simpl; repeat split; eauto.
Qed.

Lemma truthy_not_nullish (v : value) : truthy v = true -> nullish v = false.
Proof. now destruct v. Qed.

Lemma buildAgentMessage_Some (item : option raw_item) (t : nat)
    (m : message) :
  fst (buildAgentMessage item t) = Some m ->
  exists it,
    item = Some it /\ truthy (item_id it) = true /\
    m = mkMessage (item_id it) (js_or (item_agent_id it) (Str "unknown"))
          (Str "agent") (js_or (item_message it) (Str ""))
          (fst (ensureDate (item_timestamp it) t))
          (item_progress_percent it)
          (js_or (match item_task it with
                  | Some task => task_id_ task
                  | None => Undefined
                  end) (item_task_id it))
          (match item_task it with
           | Some task => task_title task
           | None => Undefined
           end)
          (match item_task it with
           | Some task => task_status task
           | None => Undefined
           end)
          Undefined Undefined.
Proof.
  unfold buildAgentMessage. destruct item as [it|]; [|discriminate].
  destruct (truthy (item_id it)) eqn:Hid; cbn [negb]; [|discriminate].
  unfold bind, ret.
  destruct (ensureDate (item_timestamp it) t) as [ts t1] eqn:Hts. cbn [fst].
  intros [= <-]. exists it. rewrite Hts. repeat split. exact Hid.
Qed.

(** Every message [buildAgentMessage] returns is fit for the store: it has
    a truthy id, so the loop of [upsertMessages] stores it; its timestamp
    is a date, so the loop reads no clock for it; it is an agent message
    with a truthy agent id; and it is neither a placeholder nor an error
    event, so removing placeholders never removes it. *)
Theorem buildAgentMessage_fit_for_store
    (item : option raw_item) (t : nat) (m : message) :
  fst (buildAgentMessage item t) = Some m ->
  truthy (id m) = true /\
  stored (Some m) = Some m /\
  clockFree (Some m) = true /\
  (exists ms, timestamp m = Date ms) /\
  sender m = Str "agent" /\
  truthy (agentId m) = true /\
  isThinking m = Undefined /\ isError m = Undefined /\
  (forall l, In m l -> In m (dropThinking l)).
Proof.
  intros H. destruct (buildAgentMessage_Some item t m H) as (it & -> & Hid & ->).
  destruct (ensureDate_is_Date (item_timestamp it) t) as [ms Hms].
  cbn [id timestamp sender agentId isThinking isError].
  repeat split.
  - exact Hid.
  - unfold stored. cbn [id]. now rewrite (truthy_not_nullish _ Hid).
  - unfold clockFree. cbn [id timestamp]. rewrite Hms. cbn.
    apply orb_true_r.
  - eauto.
  - unfold js_or. destruct (truthy (item_agent_id it)) eqn:Ha; auto.
  - intros l Hl. apply dropThinking_In. auto.
Qed.

Lemma map_buildAgentMessage_cons (item : option raw_item)
    (rest : list (option raw_item)) (t : nat) :
  map_buildAgentMessage (item :: rest) t
  = (fst (buildAgentMessage item t)
       :: fst (map_buildAgentMessage rest (snd (buildAgentMessage item t))),
     snd (map_buildAgentMessage rest (snd (buildAgentMessage item t)))).
Proof.
  cbn [map_buildAgentMessage]. unfold bind, ret.
  destruct (buildAgentMessage item t) as [m t1]. cbn [fst snd].
  now destruct (map_buildAgentMessage rest t1).
Qed.

Lemma buildAgentMessage_None (item : option raw_item) (t : nat) :
  usableItem item = false -> buildAgentMessage item t = (None, t).
Proof.
  unfold buildAgentMessage, usableItem. destruct item as [it|]; [|reflexivity].
  now intros ->.
Qed.

(** Two messages that differ in their timestamp at most. *)
Lemma normalized_fields (it : raw_item) (t : nat) (m : message) :
  truthy (item_id it) = true ->
  fst (buildAgentMessage (Some it) t) = Some m ->
  id m = item_id it /\
  text m = js_or (item_message it) (Str "") /\
  timestamp m = fst (ensureDate (item_timestamp it) t).
Proof.
  intros Hid H. destruct (buildAgentMessage_Some _ t m H) as (it' & [= <-] & _ & ->).
  auto.
Qed.

(** Normalization drops exactly the items that are [null] or have a falsy
    id and keeps the others in their order: the normalized batch matches
    the usable items one to one, each message under the id and with the
    text of its item, and with the time its item carries when it carries
    one. *)
Theorem normalized_batch_matches_usable_items
    (items : list (option raw_item)) (t : nat) :
  Forall2
    (fun m it =>
       id m = item_id it /\
       text m = js_or (item_message it) (Str "") /\
       (carriesTime (item_timestamp it) = true ->
        timestamp m = fst (ensureDate (item_timestamp it) 0%nat)))
    (filter_Boolean (fst (map_buildAgentMessage items t)))
    (usableItems items).
Proof.
  revert t. induction items as [|item rest IH]; intros t; [constructor|].
  rewrite map_buildAgentMessage_cons. cbn [fst].
  destruct item as [it|].
  - cbn [usableItems]. destruct (truthy (item_id it)) eqn:Hid.
    + pose proof (normalized_fields it t) as Hf.
      destruct (fst (buildAgentMessage (Some it) t)) as [m|] eqn:Hb.
      * cbn [filter_Boolean]. constructor; [|apply IH].
        destruct (Hf m Hid eq_refl) as (H1 & H2 & H3).
        repeat split; auto. intros Hct.
        rewrite H3. now rewrite (carriesTime_ensureDate _ t Hct).
      * exfalso. unfold buildAgentMessage in Hb. rewrite Hid in Hb.
        cbn [negb] in Hb. unfold bind, ret in Hb.
        now destruct (ensureDate (item_timestamp it) t).
    + rewrite buildAgentMessage_None by (simpl; exact Hid).
      cbn [fst snd filter_Boolean]. apply IH.
  - rewrite buildAgentMessage_None by reflexivity.
    cbn [fst snd filter_Boolean usableItems]. apply IH.
Qed.

(** ** [fetchAgentResponses] *)

(** After teardown a poll that settles changes nothing, whatever the
    response, and reads no clock. *)
Theorem poll_after_teardown_is_inert
    (isInitial : bool) (response : fetched poll_data) (st : state)
    (t : nat) :
  abortRef st = true ->
  fetchAgentResponses isInitial response st t = (st, t).
Proof.
  intros Habort.
  unfold fetchAgentResponses, fetchAgentResponses_try, bind, ret.
  destruct response as [e|contentTypeJson ok body]; simpl.
  - repeat (rewrite Habort; simpl). reflexivity.
  - destruct contentTypeJson; simpl;
      [|repeat (rewrite Habort; simpl); reflexivity].
    destruct body as [e|data]; simpl;
      [repeat (rewrite Habort; simpl); reflexivity|].
    destruct ok; simpl; repeat (rewrite Habort; simpl); reflexivity.
Qed.

Lemma fetchAgentResponses_frame
    (isInitial : bool) (response : fetched poll_data) (st : state)
    (t : nat) :
  abortRef st = false ->
  let st' := fst (fetchAgentResponses isInitial response st t) in
  historyLoading st' = false /\
  abortRef st' = false /\
  isLoading st' = isLoading st /\
  isAuthenticated st' = isAuthenticated st /\
  inputValue st' = inputValue st.
Proof.
  intros Habort.
  unfold fetchAgentResponses, fetchAgentResponses_try, bind, ret.
  destruct response as [e|contentTypeJson ok body]; simpl.
  - rewrite Habort. simpl. rewrite Habort. simpl. auto.
  - destruct contentTypeJson; simpl;
      [|rewrite Habort; simpl; rewrite Habort; simpl; auto].
    destruct body as [e|data]; simpl;
      [rewrite Habort; simpl; rewrite Habort; simpl; auto|].
    destruct ok; simpl;
      [|rewrite Habort; simpl; rewrite Habort; simpl; auto].
    rewrite Habort. simpl.
    destruct (map_buildAgentMessage _ t) as [mapped t1].
    destruct (filter_Boolean mapped) as [|latest others]; simpl.
    + rewrite Habort. simpl. auto.
    + destruct (upsertMessages (Some latest :: List.map Some others)
                  (negb isInitial) (messages st) t1) as [ms t2].
      destruct (timestamp latest); simpl; rewrite Habort; simpl; auto.
Qed.

(** On a live component every poll that settles ends the loading state,
    and no poll touches what belongs to the submission form: the input,
    the in-flight flag and the authentication. *)
Theorem poll_ends_loading_and_keeps_form
    (isInitial : bool) (response : fetched poll_data) (st : state)
    (t : nat) :
  abortRef st = false ->
  let st' := fst (fetchAgentResponses isInitial response st t) in
  historyLoading st' = false /\
  abortRef st' = false /\
  isLoading st' = isLoading st /\
  isAuthenticated st' = isAuthenticated st /\
  inputValue st' = inputValue st.
Proof. exact (fetchAgentResponses_frame isInitial response st t). Qed.

Lemma map_buildAgentMessage_unusable (items : list (option raw_item))
    (t : nat) :
  usableItems items = [] ->
  filter_Boolean (fst (map_buildAgentMessage items t)) = [] /\
  snd (map_buildAgentMessage items t) = t.
Proof.
  revert t. induction items as [|item rest IH]; intros t H; [auto|].
  rewrite map_buildAgentMessage_cons. cbn [fst snd].
  assert (Hu : usableItem item = false /\ usableItems rest = []).
  { destruct item as [it|]; cbn [usableItems usableItem] in *; [|auto].
    destruct (truthy (item_id it)); [discriminate|auto]. }
  destruct Hu as [Hu Hrest]. rewrite buildAgentMessage_None by assumption.
  cbn [fst snd filter_Boolean]. now apply IH.
Qed.

(** A successful poll that brings no usable item ([messages] missing, not
    an array, empty, or holding only [null]s and items without id) leaves
    the store and the cursor as they are, clears the error indicator and
    reads no clock. *)
Theorem poll_without_usable_items
    (isInitial : bool) (data : poll_data) (st : state) (t : nat) :
  abortRef st = false ->
  usableItems (match data_messages data with
               | Some items => items
               | None => []
               end) = [] ->
  fetchAgentResponses isInitial (Responded true true (JsonData data)) st t
  = (setHistoryLoading false (setHistoryError None st), t).
Proof.
  intros Habort Hun.
  unfold fetchAgentResponses, fetchAgentResponses_try, bind, ret.
  cbn [negb]. rewrite Habort. cbv beta iota zeta.
  destruct (map_buildAgentMessage_unusable _ t Hun) as [Hf Ht].
  destruct (map_buildAgentMessage _ t) as [mapped t1].
  cbn [fst snd] in Hf, Ht. subst t1. rewrite Hf.
  cbn. rewrite Habort. reflexivity.
Qed.

Lemma upsertMessages_again (incoming : list (option message))
    (restampNew : bool) (prev : list message) (t t2 : nat) :
  (length (fst (mergedMap incoming restampNew prev t)) <= 50)%nat ->
  (restampNew = false ->
   Forall (fun x => clockFree x = true) incoming) ->
  fst (upsertMessages incoming restampNew
         (fst (upsertMessages incoming restampNew prev t)) t2)
  = fst (upsertMessages incoming restampNew prev t).
Proof.
  intros Hlen Hcf.
  destruct incoming as [|x rest]; [reflexivity|].
  set (incoming := x :: rest) in *.
  assert (Hne : incoming <> []) by discriminate.
  rewrite (upsertMessages_nonempty incoming restampNew prev t Hne).
  cbn [fst].
  set (map1 := fst (mergedMap incoming restampNew prev t)) in *.
  assert (Hlen1 : (length (sortedMessages map1) <= 50)%nat)
    by now rewrite sortedMessages_length.
  rewrite (slice_last_all 50 (sortedMessages map1) Hlen1).
  rewrite upsertMessages_nonempty by assumption. cbn [fst].
  destruct (Map_new_entries prev) as (Hnd0 & Hk0 & _).
  pose proof (mergedMap_inv restampNew incoming prev t) as Hinv.
  assert (Hm1 : mergedMap incoming restampNew prev t
                = (map1, snd (mergedMap incoming restampNew prev t)))
    by (subst map1; now destruct (mergedMap incoming restampNew prev t)).
  rewrite Hm1 in Hinv. destruct Hinv as (Hnd1 & Hk1 & _).
  unfold mergedMap at 1.
  rewrite (Map_new_NoDup (sortedMessages map1))
    by now apply sortedMessages_NoDup.
  pose proof (forEach_again restampNew incoming (Map_new (entries prev))
                t t2 Hnd0 Hk0 Hcf) as Hagain.
  cbv zeta in Hagain. fold (mergedMap incoming restampNew prev t) in Hagain.
  fold map1 in Hagain. rewrite Hagain.
  rewrite sortedMessages_by_key at 1. rewrite entries_values.
  rewrite sortedMessages_by_key, sort_idempotent.
  apply slice_last_all. now rewrite <- sortedMessages_by_key.
Qed.

Lemma map_buildAgentMessage_timed (items : list (option raw_item))
    (t : nat) :
  Forall (fun it => carriesTime (item_timestamp it) = true)
    (usableItems items) ->
  map_buildAgentMessage items t
  = (fst (map_buildAgentMessage items 0%nat), t).
Proof.
  revert t. induction items as [|item rest IH]; intros t H; [reflexivity|].
  rewrite !map_buildAgentMessage_cons.
  assert (Hb : buildAgentMessage item t
               = (fst (buildAgentMessage item 0%nat), t) /\
               snd (buildAgentMessage item 0%nat) = 0%nat /\
               Forall (fun it => carriesTime (item_timestamp it) = true)
                 (usableItems rest)).
  { destruct item as [it|]; cbn [usableItems] in H; [|auto].
    unfold buildAgentMessage.
    destruct (truthy (item_id it)); cbn [negb]; [|auto].
    inversion_clear H as [|? ? Hit Hrest]. unfold bind, ret.
    rewrite (carriesTime_ensureDate _ t Hit).
    rewrite (carriesTime_ensureDate _ 0%nat Hit). auto. }
  destruct Hb as (Hb & Hb0 & Hrest). rewrite Hb, Hb0. cbn [fst snd].
  rewrite (IH t Hrest). reflexivity.
Qed.

Lemma normalized_clockFree (items : list (option raw_item)) (t : nat) :
  Forall (fun x => clockFree x = true)
    (List.map Some (filter_Boolean (fst (map_buildAgentMessage items t)))).
Proof.
  rewrite Forall_map, Forall_forall. intros m Hm.
  destruct (map_buildAgentMessage_Date items t m Hm) as [ms Hms].
  unfold clockFree. rewrite Hms. cbn. apply orb_true_r.
Qed.

(** A response that is delivered again is absorbed: when every usable item
    carries a time and the first delivery evicted nothing, a second poll
    with the same response leaves the store and the cursor as the first
    left them, in the initial and in the incremental mode. *)
Theorem redelivered_poll_is_absorbed
    (isInitial : bool) (data : poll_data) (st : state) (t t' : nat) :
  let items := match data_messages data with
               | Some items => items
               | None => []
               end in
  let normalized := filter_Boolean (fst (map_buildAgentMessage items t)) in
  let response := Responded true true (JsonData data) in
  let st1 := fst (fetchAgentResponses isInitial response st t) in
  let st2 := fst (fetchAgentResponses isInitial response st1 t') in
  abortRef st = false ->
  Forall (fun it => carriesTime (item_timestamp it) = true)
    (usableItems items) ->
  (length (fst (mergedMap (List.map Some normalized) (negb isInitial)
                  (messages st) t)) <= 50)%nat ->
  messages st2 = messages st1 /\
  lastFetchTimeRef st2 = lastFetchTimeRef st1.
Proof.
  intros items normalized response st1 st2 Habort Htimed Hlen.
  pose proof (fetchAgentResponses_ok isInitial data st t Habort) as H1.
  cbv zeta in H1. fold items in H1. fold response in H1. fold st1 in H1.
  assert (Habort1 : abortRef st1 = false)
    by (apply (fetchAgentResponses_frame isInitial response st t Habort)).
  pose proof (fetchAgentResponses_ok isInitial data st1 t' Habort1) as H2.
  cbv zeta in H2. fold items in H2. fold response in H2. fold st2 in H2.
  rewrite (map_buildAgentMessage_timed items t' Htimed) in H2.
  rewrite (map_buildAgentMessage_timed items t Htimed) in H1.
  subst normalized.
  rewrite (map_buildAgentMessage_timed items t Htimed) in Hlen.
  cbn [fst snd] in *.
  destruct H1 as [_ H1]. destruct H2 as [_ H2].
  pose proof (normalized_clockFree items 0%nat) as Hcf.
  destruct (filter_Boolean (fst (map_buildAgentMessage items 0%nat)))
    as [|latest others] eqn:Hnorm.
  - destruct H2 as [-> ->]. auto.
  - destruct H1 as [Hm1 Hc1]. destruct H2 as [Hm2 Hc2].
    split.
    + rewrite Hm2, Hm1. apply upsertMessages_again; [exact Hlen|].
      intros _. exact Hcf.
    + destruct (map_buildAgentMessage_Date items 0%nat latest) as [ms Hms];
        [rewrite Hnorm; now left|].
      now rewrite (Hc1 ms Hms), (Hc2 ms Hms).
Qed.

(** ** [handleSubmit] *)

(** *** White space *)

Lemma isWhiteSpace_two (c1 c2 : ascii) :
  isWhiteSpace [c1; c2] = true -> isWhiteSpace [c1] = false.
Proof.
  unfold isWhiteSpace, utf8_codePoint. cbn [List.map].
  destruct (N.leb_spec 194 (N_of_ascii c1)) as [H|H];
    [|cbn [andb]; discriminate].
  intros _. destruct (N.ltb_spec (N_of_ascii c1) 128); [lia|reflexivity].
Qed.

Lemma isWhiteSpace_three (c1 c2 c3 : ascii) :
  isWhiteSpace [c1; c2; c3] = true ->
  isWhiteSpace [c1] = false /\ isWhiteSpace [c1; c2] = false.
Proof.
  unfold isWhiteSpace, utf8_codePoint. cbn [List.map].
  destruct (N.leb_spec 224 (N_of_ascii c1)) as [H|H];
    [|cbn [andb]; discriminate].
  intros _. split.
  - destruct (N.ltb_spec (N_of_ascii c1) 128); [lia|reflexivity].
  - destruct (N.leb_spec (N_of_ascii c1) 223) as [H'|H']; [lia|].
    now rewrite andb_false_r.
Qed.

(** Dropping white space removes one code point of white space and goes
    on, or stops. *)
Lemma dropWhiteSpace_step (l : list ascii) :
  dropWhiteSpace l = l \/
  exists g r, l = g ++ r /\ isWhiteSpace g = true /\ g <> [] /\
              dropWhiteSpace l = dropWhiteSpace r.
Proof.
  destruct l as [|c1 r1]; [now left|]. cbn [dropWhiteSpace].
  destruct (isWhiteSpace [c1]) eqn:H1;
    [right; exists [c1], r1; repeat split; auto; discriminate|].
  destruct r1 as [|c2 r2]; [now left|].
  destruct (isWhiteSpace [c1; c2]) eqn:H2;
    [right; exists [c1; c2], r2; repeat split; auto; discriminate|].
  destruct r2 as [|c3 r3]; [now left|].
  destruct (isWhiteSpace [c1; c2; c3]) eqn:H3;
    [right; exists [c1; c2; c3], r3; repeat split; auto; discriminate|].
  now left.
Qed.

Lemma dropWhiteSpaceEnd_step (l : list ascii) :
  dropWhiteSpaceEnd l = l \/
  exists g r, l = rev g ++ r /\ isWhiteSpace g = true /\ g <> [] /\
              dropWhiteSpaceEnd l = dropWhiteSpaceEnd r.
Proof.
  destruct l as [|c1 r1]; [now left|]. cbn [dropWhiteSpaceEnd].
  destruct (isWhiteSpace [c1]) eqn:H1;
    [right; exists [c1], r1; repeat split; auto; discriminate|].
  destruct r1 as [|c2 r2]; [now left|].
  destruct (isWhiteSpace [c2; c1]) eqn:H2;
    [right; exists [c2; c1], r2; repeat split; auto; discriminate|].
  destruct r2 as [|c3 r3]; [now left|].
  destruct (isWhiteSpace [c3; c2; c1]) eqn:H3;
    [right; exists [c3; c2; c1], r3; repeat split; auto; discriminate|].
  now left.
Qed.

Lemma dropWhiteSpace_group (g l : list ascii) :
  isWhiteSpace g = true -> dropWhiteSpace (g ++ l) = dropWhiteSpace l.
Proof.
  intros H. destruct g as [|c1 [|c2 [|c3 [|c4 g]]]]; try discriminate H.
  - cbn [app dropWhiteSpace]. now rewrite H.
  - cbn [app dropWhiteSpace].
    now rewrite (isWhiteSpace_two c1 c2 H), H.
  - cbn [app dropWhiteSpace].
    destruct (isWhiteSpace_three c1 c2 c3 H) as [-> ->]. now rewrite H.
Qed.

Lemma length_strong_ind (P : list ascii -> Prop) :
  (forall l, (forall r, (length r < length l)%nat -> P r) -> P l) ->
  forall l, P l.
Proof.
  intros H l.
  enough (Hn : forall n r, (length r < n)%nat -> P r)
    by (apply (Hn (S (length l))); lia).
  induction n as [|n IH]; intros r Hr; [lia|].
  apply H. intros r' Hr'. apply IH. lia.
Qed.

Lemma dropWhiteSpace_white (w l : list ascii) :
  dropWhiteSpace w = [] -> dropWhiteSpace (w ++ l) = dropWhiteSpace l.
Proof.
  revert l. induction w as [w IH] using length_strong_ind. intros l Hw.
  destruct (dropWhiteSpace_step w) as [H|(g & r & -> & Hg & Hne & Hd)].
  - rewrite Hw in H. now subst w.
  - rewrite <- app_assoc, (dropWhiteSpace_group g _ Hg). apply IH.
    + rewrite length_app. destruct g; [contradiction|simpl; lia].
    + now rewrite <- Hd.
Qed.

Lemma dropWhiteSpace_split (l : list ascii) :
  exists w, l = w ++ dropWhiteSpace l /\ dropWhiteSpace w = [].
Proof.
  induction l as [l IH] using length_strong_ind.
  destruct (dropWhiteSpace_step l) as [H|(g & r & -> & Hg & Hne & Hd)].
  - exists []. rewrite H. auto.
  - destruct (IH r) as (w & Hr & Hw).
    + rewrite length_app. destruct g; [contradiction|simpl; lia].
    + exists (g ++ w). rewrite Hd, <- app_assoc, <- Hr. split; [reflexivity|].
      rewrite <- (app_nil_r (g ++ w)), <- app_assoc.
      rewrite (dropWhiteSpace_group g _ Hg), app_nil_r. exact Hw.
Qed.

Lemma dropWhiteSpaceEnd_split (l : list ascii) :
  exists w, l = rev w ++ dropWhiteSpaceEnd l /\ dropWhiteSpace w = [].
Proof.
  induction l as [l IH] using length_strong_ind.
  destruct (dropWhiteSpaceEnd_step l) as [H|(g & r & -> & Hg & Hne & Hd)].
  - exists []. rewrite H. auto.
  - destruct (IH r) as (w & Hr & Hw).
    + rewrite length_app, length_rev. destruct g; [contradiction|simpl; lia].
    + exists (w ++ g). rewrite Hd, rev_app_distr, <- app_assoc, <- Hr.
      split; [reflexivity|].
      rewrite (dropWhiteSpace_white w g Hw).
      rewrite <- (app_nil_r g), (dropWhiteSpace_group g _ Hg). reflexivity.
Qed.

Lemma dropWhiteSpace_again (l : list ascii) :
  dropWhiteSpace (dropWhiteSpace l) = dropWhiteSpace l.
Proof.
  induction l as [l IH] using length_strong_ind.
  destruct (dropWhiteSpace_step l) as [H|(g & r & -> & Hg & Hne & Hd)].
  - now rewrite !H.
  - rewrite Hd. apply IH.
    rewrite length_app. destruct g; [contradiction|simpl; lia].
Qed.

Lemma dropWhiteSpaceEnd_again (l : list ascii) :
  dropWhiteSpaceEnd (dropWhiteSpaceEnd l) = dropWhiteSpaceEnd l.
Proof.
  induction l as [l IH] using length_strong_ind.
  destruct (dropWhiteSpaceEnd_step l) as [H|(g & r & -> & Hg & Hne & Hd)].
  - now rewrite !H.
  - rewrite Hd. apply IH.
    rewrite length_app, length_rev. destruct g; [contradiction|simpl; lia].
Qed.

(** What starts with white space is changed by dropping it. *)
Lemma dropWhiteSpace_prefix (x w : list ascii) :
  dropWhiteSpace (x ++ w) = x ++ w -> dropWhiteSpace x = x.
Proof.
  intros H.
  destruct (dropWhiteSpace_step x) as [Hx|(g & r & -> & Hg & Hne & Hd)];
    [exact Hx|].
  exfalso. rewrite <- app_assoc, (dropWhiteSpace_group g _ Hg) in H.
  destruct (dropWhiteSpace_split (r ++ w)) as (w' & Hs & _).
  apply (f_equal (@length ascii)) in H, Hs.
  rewrite !length_app in *. destruct g; [contradiction|simpl in *; lia].
Qed.

(** The bytes of [trim s]: the bytes of [s] between the white space it
    starts with and the white space it ends with. *)
Lemma trim_chars (s : string) :
  exists before after,
    list_ascii_of_string s
    = before ++ list_ascii_of_string (trim s) ++ after /\
    dropWhiteSpace before = [] /\
    dropWhiteSpace after = [] /\
    dropWhiteSpace (list_ascii_of_string (trim s))
    = list_ascii_of_string (trim s) /\
    dropWhiteSpaceEnd (rev (list_ascii_of_string (trim s)))
    = rev (list_ascii_of_string (trim s)).
Proof.
  unfold trim. rewrite list_ascii_of_string_of_list_ascii.
  set (l := list_ascii_of_string s).
  destruct (dropWhiteSpace_split l) as (w1 & Hl & Hw1).
  set (l1 := dropWhiteSpace l) in *.
  destruct (dropWhiteSpaceEnd_split (rev l1)) as (w2 & Hr & Hw2).
  set (d := dropWhiteSpaceEnd (rev l1)) in *.
  assert (Hl1 : l1 = rev d ++ w2).
  { rewrite <- (rev_involutive l1), Hr, rev_app_distr.
    now rewrite rev_involutive. }
  exists w1, w2. rewrite rev_involutive.
  split; [|split; [|split; [|split]]].
  - now rewrite <- Hl1.
  - exact Hw1.
  - exact Hw2.
  - apply (dropWhiteSpace_prefix (rev d) w2). rewrite <- Hl1.
    apply dropWhiteSpace_again.
  - apply dropWhiteSpaceEnd_again.
Qed.

Lemma trim_blank (s : string) : trim s = ""%string <-> blank s = true.
Proof.
  unfold blank. split.
  - intros H. destruct (trim_chars s) as (b & a & Hs & Hb & Ha & _).
    rewrite H in Hs. cbn [list_ascii_of_string app] in Hs.
    rewrite Hs, (dropWhiteSpace_white b a Hb), Ha. reflexivity.
  - intros H. unfold trim.
    destruct (dropWhiteSpace (list_ascii_of_string s)); [reflexivity|].
    discriminate.
Qed.

Lemma list_ascii_of_string_app (a b : string) :
  list_ascii_of_string (a ++ b)
  = list_ascii_of_string a ++ list_ascii_of_string b.
Proof. induction a as [|c a IH]; simpl; [reflexivity|now rewrite IH]. Qed.

Lemma string_of_list_ascii_app (a b : list ascii) :
  string_of_list_ascii (a ++ b)
  = (string_of_list_ascii a ++ string_of_list_ascii b)%string.
Proof. induction a as [|c a IH]; simpl; [reflexivity|now rewrite IH]. Qed.

(** The text [handleSubmit] sends is the input without the white space
    around it: [trim] removes white space only, from both ends; what it
    returns neither starts nor ends with white space; trimming again
    changes nothing; and the result is empty exactly for a blank
    input. *)
Theorem trim_removes_surrounding_white_space (s : string) :
  (exists before after : string,
      s = (before ++ trim s ++ after)%string /\
      blank before = true /\ blank after = true) /\
  skipWhiteSpace (trim s) = trim s /\
  dropWhiteSpaceEnd (rev (list_ascii_of_string (trim s)))
  = rev (list_ascii_of_string (trim s)) /\
  trim (trim s) = trim s /\
  (trim s = ""%string <-> blank s = true).
Proof.
  destruct (trim_chars s) as (b & a & Hs & Hb & Ha & Hfront & Hback).
  split; [|split; [|split; [|split]]].
  - exists (string_of_list_ascii b), (string_of_list_ascii a).
    unfold blank. rewrite !list_ascii_of_string_of_list_ascii, Hb, Ha.
    split; [|auto].
    rewrite <- (string_of_list_ascii_of_string (trim s)) at 1.
    rewrite <- !string_of_list_ascii_app, <- Hs.
    symmetry. apply string_of_list_ascii_of_string.
  - unfold skipWhiteSpace. rewrite Hfront.
    apply string_of_list_ascii_of_string.
  - exact Hback.
  - unfold trim at 1. rewrite Hfront, Hback, rev_involutive.
    apply string_of_list_ascii_of_string.
  - apply trim_blank.
Qed.

Lemma handleSubmit_begin_None (st : state) (t : nat) :
  (snd (fst (handleSubmit_begin st t)) = None <->
   isAuthenticated st = false \/ blank (inputValue st) = true \/
   isLoading st = true) /\
  (snd (fst (handleSubmit_begin st t)) = None ->
   handleSubmit_begin st t = ((st, None), t)).
Proof.
  unfold handleSubmit_begin.
  destruct (isAuthenticated st); cbn [negb];
    [|split; [split; [auto|reflexivity]|reflexivity]].
  destruct (String.eqb_spec (trim (inputValue st)) ""%string) as [Hb|Hb].
  - cbn [orb]. split; [split; [|reflexivity]|reflexivity].
    intros _. right. left. now apply trim_blank.
  - cbn [orb].
    destruct (isLoading st);
      [split; [split; [auto|reflexivity]|reflexivity]|].
    unfold bind, ret, new_Date, Date_now. cbv beta iota zeta.
    destruct (upsertMessages _ false (messages st) _) as [ms1 t1].
    cbv beta iota zeta.
    destruct (upsertMessages _ false _ _) as [ms2 t2].
    cbn [fst snd]. split; [|discriminate].
    split; [discriminate|].
    intros [H|[H|H]]; try discriminate.
    apply trim_blank in H. contradiction.
Qed.

(** [handleSubmit] returns at its guards, changing nothing, reading no
    clock and sending nothing, exactly when the user is not authenticated,
    the input is blank, or a submission is in flight. *)
Theorem handleSubmit_guards (st : state) (t : nat) :
  (snd (fst (handleSubmit_begin st t)) = None <->
   isAuthenticated st = false \/ blank (inputValue st) = true \/
   isLoading st = true) /\
  (snd (fst (handleSubmit_begin st t)) = None ->
   handleSubmit_begin st t = ((st, None), t)).
Proof. exact (handleSubmit_begin_None st t). Qed.

Lemma mergeIncoming_plain_ticks (msg : option message) (map : Map)
    (t : nat) :
  clockFree msg = true -> snd (mergeIncoming false msg map t) = t.
Proof.
  unfold clockFree, mergeIncoming. destruct msg as [m|]; [|reflexivity].
  destruct (nullish (id m)); [reflexivity|]. cbn [orb]. intros Hct.
  unfold bind, ret. rewrite (carriesTime_ensureDate _ t Hct). reflexivity.
Qed.

(** Without [restampNew] a batch whose stored elements all carry a time is
    merged without a reading of the clock. *)
Lemma upsertMessages_plain_ticks (incoming : list (option message))
    (prev : list message) (t : nat) :
  Forall (fun x => clockFree x = true) incoming ->
  snd (upsertMessages incoming false prev t) = t.
Proof.
  intros Hcf. destruct incoming as [|x rest]; [reflexivity|].
  rewrite upsertMessages_nonempty by discriminate. cbn [snd].
  unfold mergedMap. generalize (Map_new (entries prev)).
  revert Hcf. generalize (x :: rest). clear.
  induction l as [|y l IH]; intros Hcf map; [reflexivity|].
  inversion_clear Hcf as [|? ? Hy Hl]. cbn [forEach]. unfold bind.
  pose proof (mergeIncoming_plain_ticks y map t Hy) as H.
  destruct (mergeIncoming false y map t) as [map1 t1]. cbn [snd] in H.
  subst t1. now apply IH.
Qed.

Lemma handleSubmit_begin_eq (st : state) (t : nat) :
  isAuthenticated st = true ->
  blank (inputValue st) = false ->
  isLoading st = false ->
  let u := new_userMessage (clock (S t)) (trim (inputValue st))
             (Date (clock (S (S t)))) in
  let th := new_thinkingMessage (clock (S (S (S t))))
              (Date (clock (S (S (S (S t)))))) in
  let ms1 := fst (upsertMessages [Some u] false (messages st)
                    (S (S (S t)))) in
  let ms2 := fst (upsertMessages [Some th] false ms1
                    (S (S (S (S (S t)))))) in
  handleSubmit_begin st t
  = ((setMessages (fun _ => ms2)
        (setIsLoading true
           (setInputValue ""%string (setMessages (fun _ => ms1) st))),
      Some u),
     S (S (S (S (S t))))).
Proof.
  intros Ha Hb Hl u th ms1 ms2. unfold handleSubmit_begin.
  rewrite Ha, Hl. cbn [negb].
  destruct (String.eqb_spec (trim (inputValue st)) ""%string) as [He|He];
    [apply trim_blank in He; congruence|].
  cbn [orb]. unfold bind, ret, new_Date, Date_now. cbv beta iota zeta.
  fold u.
  assert (H1 : upsertMessages [Some u] false (messages st) (S (S (S t)))
               = (ms1, S (S (S t)))).
  { subst ms1.
    pose proof (upsertMessages_plain_ticks [Some u] (messages st)
                  (S (S (S t)))) as Ht.
    destruct (upsertMessages [Some u] false (messages st) (S (S (S t)))).
    cbn [fst snd] in *. rewrite Ht; [reflexivity|]. repeat constructor. }
  rewrite H1. cbv beta iota zeta.
  cbn [messages setIsLoading setInputValue setMessages]. fold th.
  assert (H2 : upsertMessages [Some th] false ms1 (S (S (S (S (S t)))))
               = (ms2, S (S (S (S (S t)))))).
  { subst ms2.
    pose proof (upsertMessages_plain_ticks [Some th] ms1
                  (S (S (S (S (S t)))))) as Ht.
    destruct (upsertMessages [Some th] false ms1 (S (S (S (S (S t)))))).
    cbn [fst snd] in *. rewrite Ht; [reflexivity|]. repeat constructor. }
  rewrite H2. reflexivity.
Qed.

Lemma upsert_one_other (msg : message) (prev : list message) (t : nat)
    (m : message) :
  NoDup (List.map id prev) ->
  (length prev < 50)%nat ->
  nullish (id msg) = false ->
  id msg <> id m ->
  In m prev ->
  In m (fst (upsertMessages [Some msg] false prev t)).
Proof.
  intros Hnd Hlen Hn Hne Hin.
  rewrite upsertMessages_nonempty by discriminate. cbn [fst].
  pose proof (mergedMap_singleton_length msg false prev t) as Hl.
  rewrite slice_last_all by (rewrite sortedMessages_length; lia).
  rewrite sortedMessages_by_key. apply sort_In.
  apply (map_get_In_values (id m)).
  pose proof (forEach_last_with_id false [Some msg]
                (Map_new (entries prev)) t (id m)) as H.
  cbv zeta in H. cbn [last_with_id] in H. rewrite Hn in H. cbn [negb andb] in H.
  destruct (strict_eq_spec (id msg) (id m)); [contradiction|].
  unfold mergedMap. rewrite H. now apply map_get_entries.
Qed.

(** A submission that passes the guards reads the clock five times; the
    optimistic message carries the trimmed input, an id made of the second
    reading and the third reading as its time; the input is cleared and
    the in-flight flag set; and while the store has fewer than 49 events
    both the optimistic message and the placeholder are in it
    afterwards. *)
Theorem handleSubmit_begin_effects (st : state) (t : nat) :
  isAuthenticated st = true ->
  blank (inputValue st) = false ->
  isLoading st = false ->
  let u := new_userMessage (clock (S t)) (trim (inputValue st))
             (Date (clock (S (S t)))) in
  let th := new_thinkingMessage (clock (S (S (S t))))
              (Date (clock (S (S (S (S t)))))) in
  let st1 := fst (fst (handleSubmit_begin st t)) in
  snd (fst (handleSubmit_begin st t)) = Some u /\
  snd (handleSubmit_begin st t) = (t + 5)%nat /\
  inputValue st1 = ""%string /\
  isLoading st1 = true /\
  ((length (messages st) < 49)%nat ->
   In u (messages st1) /\ In th (messages st1)).
Proof.
  intros Ha Hb Hl u th st1. subst st1.
  rewrite (handleSubmit_begin_eq st t Ha Hb Hl). cbv zeta. cbn [fst snd].
  fold u. fold th.
  split; [reflexivity|]. split; [lia|]. split; [reflexivity|].
  split; [reflexivity|].
  intros Hlen. cbn [messages setMessages].
  set (ms1 := fst (upsertMessages [Some u] false (messages st)
                     (S (S (S t))))).
  assert (Hu1 : In u ms1).
  { destruct (upsert_one_keeps u (messages st) (S (S (S t)))) as [_ H];
      [lia|]. now apply (H eq_refl (clock (S (S t)))). }
  assert (Hlen1 : (length ms1 < 50)%nat).
  { subst ms1. rewrite upsertMessages_nonempty by discriminate. cbn [fst].
    pose proof (slice_last_length 50
                  (sortedMessages (fst (mergedMap [Some u] false
                                          (messages st) (S (S (S t))))))).
    pose proof (mergedMap_singleton_length u false (messages st)
                  (S (S (S t)))).
    unfold slice_last. rewrite length_skipn, sortedMessages_length. lia. }
  split.
  - apply upsert_one_other; auto.
    + subst ms1. apply upsertMessages_NoDup.
    + discriminate.
  - destruct (upsert_one_keeps th ms1 (S (S (S (S (S t)))))) as [_ H];
      [exact Hlen1|].
    now apply (H eq_refl (clock (S (S (S (S t)))))).
Qed.

(** While a submission is in flight a second submit is ignored, whatever
    has been typed meanwhile. *)
Theorem second_submit_is_ignored (st : state) (t : nat) (typed : string) :
  snd (fst (handleSubmit_begin st t)) <> None ->
  let st1 := setInputValue typed (fst (fst (handleSubmit_begin st t))) in
  forall t1, handleSubmit_begin st1 t1 = ((st1, None), t1).
Proof.
  intros Hsome st1 t1.
  destruct (handleSubmit_begin_None st t) as [Hg _].
  assert (Ha : isAuthenticated st = true)
    by (destruct (isAuthenticated st); [reflexivity|exfalso; apply Hsome, Hg; auto]).
  assert (Hb : blank (inputValue st) = false)
    by (destruct (blank (inputValue st)); [exfalso; apply Hsome, Hg; auto|reflexivity]).
  assert (Hl : isLoading st = false)
    by (destruct (isLoading st); [exfalso; apply Hsome, Hg; auto|reflexivity]).
  apply handleSubmit_begin_None. apply handleSubmit_begin_None.
  right. right. subst st1.
  rewrite (handleSubmit_begin_eq st t Ha Hb Hl). reflexivity.
Qed.

(** When the request of a submission settles, with whatever response, the
    in-flight flag is cleared and no placeholder is left in the store. *)
Theorem handleSubmit_resume_settles
    (userMessage : message) (response : fetched send_data) (st : state)
    (t : nat) :
  let st' := fst (handleSubmit_resume userMessage response st t) in
  isLoading st' = false /\
  forall m, In m (messages st') -> truthy (isThinking m) = false.
Proof.
  intros st'. subst st'. rewrite handleSubmit_resume_eq.
  pose proof (handleSubmit_try_messages userMessage response st) as Ht.
  cbv zeta in Ht.
  destruct (handleSubmit_try userMessage response st) as [st1 thrown] eqn:Htry.
  cbn [fst] in Ht. destruct thrown as [error|]; cbn [fst].
  - split; [reflexivity|]. rewrite handleSubmit_catch_eq. cbv zeta.
    cbn [fst messages setIsLoading setMessages].
    intros m Hm. apply upsertMessages_origin in Hm.
    destruct Hm as [Hm|(msg & [[= <-]|[]] & ->)].
    + now apply dropThinking_In in Hm.
    + reflexivity.
  - split; [reflexivity|]. cbn [messages setIsLoading].
    assert (Hack : exists data,
               messages st1 = acknowledge userMessage data (messages st)).
    { unfold handleSubmit_try in Htry.
      destruct response as [e|contentTypeJson ok body]; [discriminate|].
      destruct contentTypeJson; [|discriminate].
      destruct body as [e|data]; [discriminate|].
      destruct ok; [|discriminate].
      injection Htry as <-. now exists data. }
    destruct Hack as [data ->]. intros m Hm. unfold acknowledge in Hm.
    apply in_map_iff in Hm. destruct Hm as (m0 & <- & Hm0).
    apply dropThinking_In in Hm0.
    now destruct (strict_eq (id m0) (id userMessage)).
Qed.

(** A submission never touches what belongs to polling: the cursor, the
    error indicator, the loading state and the abort flag are the same
    after [handleSubmit] has begun and after it has settled; nor does it
    change the authentication. *)
Theorem submission_keeps_poll_state
    (userMessage : message) (response : fetched send_data) (st : state)
    (t : nat) :
  let unchanged (st' : state) :=
    lastFetchTimeRef st' = lastFetchTimeRef st /\
    historyError st' = historyError st /\
    historyLoading st' = historyLoading st /\
    abortRef st' = abortRef st /\
    isAuthenticated st' = isAuthenticated st in
  unchanged (fst (fst (handleSubmit_begin st t))) /\
  unchanged (fst (handleSubmit_resume userMessage response st t)).
Proof.
  intros unchanged. subst unchanged. cbv beta. split.
  - unfold handleSubmit_begin.
    destruct (isAuthenticated st) eqn:Ha; cbn [negb]; [|simpl; auto].
    destruct (String.eqb (trim (inputValue st)) "" || isLoading st);
      [simpl; auto|].
    unfold bind, ret, new_Date, Date_now. cbv beta iota zeta.
    destruct (upsertMessages _ false (messages st) _) as [ms1 t1].
    cbv beta iota zeta.
    destruct (upsertMessages _ false _ _) as [ms2 t2].
    cbn. auto.
  - rewrite handleSubmit_resume_eq. unfold handleSubmit_try.
    destruct response as [e|contentTypeJson ok body].
    + rewrite handleSubmit_catch_eq. cbn. auto.
    + destruct contentTypeJson; cbn [negb];
        [|rewrite handleSubmit_catch_eq; cbn; auto].
      destruct body as [e|data]; [rewrite handleSubmit_catch_eq; cbn; auto|].
      destruct ok; cbn [negb]; [cbn; auto|].
      rewrite handleSubmit_catch_eq. cbn. auto.
Qed.

Lemma with_id_same (m : message) : with_id m (id m) = m.
Proof. now destruct m. Qed.

(** Acknowledging changes ids only, and changes none when the answer of
    the server carries no id or when the optimistic message is no longer
    in the store: the state update is then the removal of the
    placeholders. *)
Theorem acknowledge_changes_ids_only
    (userMessage : message) (data : send_data) (prev : list message) :
  List.map (fun m => with_id m Undefined)
    (acknowledge userMessage data prev)
  = List.map (fun m => with_id m Undefined) (dropThinking prev) /\
  (truthy (message_id data) = false ->
   acknowledge userMessage data prev = dropThinking prev) /\
  ((forall m, In m prev -> id m <> id userMessage) ->
   acknowledge userMessage data prev = dropThinking prev).
Proof.
  unfold acknowledge. split; [|split].
  - rewrite map_map. apply map_ext. intros m.
    now destruct (strict_eq (id m) (id userMessage)).
  - intros Hf. rewrite <- (map_id (dropThinking prev)) at 2.
    apply map_ext. intros m. unfold js_or. rewrite Hf.
    destruct (strict_eq (id m) (id userMessage)); [apply with_id_same|auto].
  - intros Habsent. rewrite <- (map_id (dropThinking prev)) at 2.
    apply map_ext_in. intros m Hm. apply dropThinking_In in Hm.
    destruct (strict_eq_spec (id m) (id userMessage)) as [Heq|]; [|reflexivity].
    exfalso. now apply (Habsent m).
Qed.

(** ** [handlePasswordSubmit] *)

(** The password gate: after any number of attempts the component state
    is the one it was, authenticated in addition exactly when one of the
    attempts was the password; an attempt never revokes the
    authentication; and each attempt clears the field, leaving the error
    message exactly when it was wrong. *)
Theorem password_gate
    (attempts : list string) (form : password_form) (st : state) :
  let r := attemptPasswords attempts (form, st) in
  snd r = (if existsb (String.eqb "jubilee") attempts
           then setIsAuthenticated true st else st) /\
  (isAuthenticated st = true -> isAuthenticated (snd r) = true) /\
  (forall earlier typed, attempts = earlier ++ [typed] ->
     fst r = mkForm "" (if String.eqb typed "jubilee" then ""
                        else "Incorrect password. Please try again.")).
Proof.
  intros r. subst r.
  assert (Hstate : forall form0 st0,
             snd (attemptPasswords attempts (form0, st0))
             = if existsb (String.eqb "jubilee") attempts
               then setIsAuthenticated true st0 else st0).
  { induction attempts as [|a rest IH]; intros form0 st0; [reflexivity|].
    unfold attemptPasswords in *. cbn [fold_left existsb].
    unfold attemptPassword at 2, handlePasswordSubmit. cbn [fst snd passwordInput].
    rewrite String.eqb_sym.
    destruct (String.eqb "jubilee" a); cbn [orb].
    - rewrite IH. now destruct (existsb (String.eqb "jubilee") rest).
    - apply IH. }
  split; [apply Hstate|]. split.
  - intros Ha. rewrite Hstate.
    now destruct (existsb (String.eqb "jubilee") attempts).
  - intros earlier typed ->. unfold attemptPasswords.
    rewrite fold_left_app. cbn [fold_left].
    unfold attemptPassword at 1, handlePasswordSubmit. cbn [passwordInput].
    now destruct (String.eqb typed "jubilee").
Qed.

(** ** [normalizePercent] and [formatPercentLabel] *)

Lemma clamp_in_range (num : number) :
  exists q, Math_max (Finite 0) (Math_min (Finite 100) num) = Finite q /\
            (0 <= q)%Q /\ (q <= 100)%Q.
Proof.
  unfold Math_max, Math_min.
  destruct num as [q| |]; cbn [number_leb].
  - destruct (Qle_bool 100 q) eqn:H100; cbn [number_leb].
    + exists 100%Q. split; [reflexivity|]. split; [discriminate|apply Qle_refl].
    + destruct (Qle_bool 0 q) eqn:H0.
      * exists q. split; [reflexivity|]. split; [now apply Qle_bool_iff|].
        apply Qnot_lt_le. intros Hlt. apply Qlt_le_weak in Hlt.
        apply Qle_bool_iff in Hlt. congruence.
      * exists 0%Q. split; [reflexivity|]. split; [apply Qle_refl|discriminate].
  - exists 100%Q. split; [reflexivity|]. split; [discriminate|apply Qle_refl].
  - exists 0%Q. split; [reflexivity|]. split; [apply Qle_refl|discriminate].
Qed.

(** A percentage is shown as an integer between 0 and 100: whatever comes
    in, [normalizePercent] returns [null] or a number from 0 to 100, and
    [formatPercentLabel] returns [null] in the same cases and otherwise
    the label of an integer from 0 to 100.  [null] comes out for [null],
    [undefined], the empty string and what [parseFloat] does not read. *)
Theorem percent_label_in_range (val : value) :
  (forall p, normalizePercent val = Some p ->
             exists q, p = Finite q /\ (0 <= q)%Q /\ (q <= 100)%Q) /\
  (forall label, formatPercentLabel val = Some label ->
                 exists k, 0 <= k <= 100 /\
                           label = (numeral k ++ "%")%string) /\
  (formatPercentLabel val = None <-> normalizePercent val = None) /\
  (normalizePercent val = None <->
   nullish val = true \/ val = Str "" \/ parseFloat val = None).
Proof.
  assert (Hnone : normalizePercent val = None <->
                  nullish val = true \/ val = Str "" \/ parseFloat val = None).
  { unfold normalizePercent.
    destruct (nullish val) eqn:Hn; cbn [orb]; [tauto|].
    destruct (strict_eq_spec val (Str "")) as [->|Hne]; [tauto|].
    destruct (parseFloat val) as [num|]; [|tauto].
    split; [discriminate|]. intros [H|[H|H]]; congruence. }
  assert (Hrange : forall p, normalizePercent val = Some p ->
                     exists q, p = Finite q /\ (0 <= q)%Q /\ (q <= 100)%Q).
  { unfold normalizePercent. intros p.
    destruct (nullish val || strict_eq val (Str "")); [discriminate|].
    destruct (parseFloat val) as [num|]; [|discriminate].
    intros [= <-]. apply clamp_in_range. }
  split; [exact Hrange|]. split; [|split; [|exact Hnone]].
  - unfold formatPercentLabel. intros label.
    destruct (normalizePercent val) as [p|]; [|discriminate].
    destruct (Hrange p eq_refl) as (q & -> & H0 & H100).
    intros [= <-]. cbn [Math_round integral_toString].
    exists (Qfloor (q + (1 # 2))). split; [|reflexivity].
    split.
    + change 0 with (Qfloor 0). apply Qfloor_resp_le.
      apply Qle_trans with q; [exact H0|].
      rewrite <- (Qplus_0_r q) at 1. apply Qplus_le_r. discriminate.
    + assert (H : (Qfloor (q + (1 # 2)) <= Qfloor (100 + (1 # 2)))).
      { apply Qfloor_resp_le. now apply Qplus_le_l. }
      exact H.
  - unfold formatPercentLabel.
    destruct (normalizePercent val); split; (discriminate || reflexivity).
Qed.

Lemma Qfloor_half (n : Z) : Qfloor (inject_Z n + (1 # 2)) = n.
Proof.
  unfold Qfloor, inject_Z, Qplus. cbn [Qnum Qden].
  rewrite Z.mul_1_l. change (Z.pos (1 * 2)) with 2.
  rewrite Z.add_comm, Z.div_add by discriminate. reflexivity.
Qed.

(** For an integer the label is the integer clamped to the range from 0 to
    100, followed by the percent sign. *)
Theorem percent_label_of_integer (n : Z) :
  formatPercentLabel (Num n)
  = Some (numeral (Z.max 0 (Z.min 100 n)) ++ "%")%string.
Proof.
  unfold formatPercentLabel, normalizePercent, parseFloat.
  cbn [nullish orb]. unfold strict_eq.
  destruct (value_eq_dec (Num n) (Str "")) as [H|_]; [discriminate|].
  unfold Math_max, Math_min. cbn [number_leb].
  destruct (Qle_bool 100 (inject_Z n)) eqn:H100; cbn [number_leb].
  - apply Qle_bool_iff in H100. change 100%Q with (inject_Z 100) in H100.
    rewrite <- Zle_Qle in H100. cbn [Math_round integral_toString].
    change (Qfloor (100 + (1 # 2))) with 100.
    replace (Z.max 0 (Z.min 100 n)) with 100 by lia. reflexivity.
  - assert (Hlt : n < 100).
    { apply Z.lt_nge. intros Hge. rewrite (Zle_Qle 100 n) in Hge.
      apply Qle_bool_iff in Hge. change (inject_Z 100) with 100%Q in Hge.
      congruence. }
    destruct (Qle_bool 0 (inject_Z n)) eqn:H0;
      cbn [Math_round integral_toString].
    + apply Qle_bool_iff in H0. change 0%Q with (inject_Z 0) in H0.
      rewrite <- Zle_Qle in H0. rewrite Qfloor_half.
      replace (Z.max 0 (Z.min 100 n)) with n by lia. reflexivity.
    + assert (Hneg : n < 0).
      { apply Z.lt_nge. intros Hge. rewrite (Zle_Qle 0 n) in Hge.
        apply Qle_bool_iff in Hge. change (inject_Z 0) with 0%Q in Hge.
        congruence. }
      change (Qfloor (0 + (1 # 2))) with 0.
      replace (Z.max 0 (Z.min 100 n)) with 0 by lia. reflexivity.
Qed.

(** ** Task ids that arrive as text *)

Lemma readDigits_acc (d : Decimal.uint) (acc : positive) :
  readDigits 10 (NilEmpty.string_of_uint d) (Some (Z.pos acc))
  = Some (Z.pos (Pos.of_uint_acc d acc)).
Proof.
  revert acc.
  induction d as [|d IH|d IH|d IH|d IH|d IH|d IH|d IH|d IH|d IH|d IH];
    intros acc; [reflexivity|..];
    cbn [NilEmpty.string_of_uint readDigits Pos.of_uint_acc];
    match goal with
    | |- context [digitValue ?c] =>
        let v := eval vm_compute in (digitValue c) in
        change (digitValue c) with v
    end; cbv beta iota;
    match goal with
    | |- context [?k <? 10] =>
        let v := eval vm_compute in (k <? 10) in
        change (k <? 10) with v
    end; cbv beta iota;
    match goal with
    | |- readDigits 10 _ (Some ?z) = Some (Z.pos (Pos.of_uint_acc d ?p)) =>
        replace z with (Z.pos p) by lia
    end; apply IH.
Qed.

Lemma readDigits_zero (d : Decimal.uint) :
  readDigits 10 (NilEmpty.string_of_uint d) (Some 0)
  = Some (Z.of_N (Pos.of_uint d)).
Proof.
  induction d as [|d IH|d IH|d IH|d IH|d IH|d IH|d IH|d IH|d IH|d IH];
    [reflexivity|exact IH|..];
    cbn [NilEmpty.string_of_uint readDigits Pos.of_uint];
    match goal with
    | |- context [digitValue ?c] =>
        let v := eval vm_compute in (digitValue c) in
        change (digitValue c) with v
    end; cbv beta iota;
    match goal with
    | |- context [?k <? 10] =>
        let v := eval vm_compute in (k <? 10) in
        change (k <? 10) with v
    end; cbv beta iota; cbn [Z.mul Z.add Z.of_N]; apply readDigits_acc.
Qed.

Lemma readDigits_numeral (d : Decimal.uint) :
  d <> Decimal.Nil ->
  readDigits 10 (NilEmpty.string_of_uint d) None
  = Some (Z.of_N (Pos.of_uint d)).
Proof.
  intros Hd.
  destruct d as [|d|d|d|d|d|d|d|d|d|d]; [congruence|..];
    cbn [NilEmpty.string_of_uint readDigits Pos.of_uint];
    match goal with
    | |- context [digitValue ?c] =>
        let v := eval vm_compute in (digitValue c) in
        change (digitValue c) with v
    end; cbv beta iota;
    match goal with
    | |- context [?k <? 10] =>
        let v := eval vm_compute in (k <? 10) in
        change (k <? 10) with v
    end; cbv beta iota;
    [apply readDigits_zero|apply readDigits_acc..].
Qed.

(** A numeral has no sign and no [0x] prefix to read. *)
Lemma skipWhiteSpace_ascii (c : ascii) (rest : string) :
  (N_of_ascii c <? 128)%N = true ->
  isWhiteSpace [c] = false ->
  skipWhiteSpace (String c rest) = String c rest.
Proof.
  intros Hc Hw. unfold skipWhiteSpace.
  cbn [list_ascii_of_string dropWhiteSpace]. rewrite Hw.
  assert (H2 : forall c2, isWhiteSpace [c; c2] = false).
  { intros c2. destruct (isWhiteSpace [c; c2]) eqn:H; [|reflexivity].
    unfold isWhiteSpace, utf8_codePoint in H. cbn [List.map] in H.
    apply N.ltb_lt in Hc.
    destruct (N.leb_spec 194 (N_of_ascii c)); [lia|discriminate H]. }
  assert (H3 : forall c2 c3, isWhiteSpace [c; c2; c3] = false).
  { intros c2 c3. destruct (isWhiteSpace [c; c2; c3]) eqn:H; [|reflexivity].
    unfold isWhiteSpace, utf8_codePoint in H. cbn [List.map] in H.
    apply N.ltb_lt in Hc.
    destruct (N.leb_spec 224 (N_of_ascii c)); [lia|discriminate H]. }
  destruct (list_ascii_of_string rest) as [|c2 [|c3 r3]] eqn:Hr;
    rewrite ?H2, ?H3, <- Hr;
    exact (string_of_list_ascii_of_string (String c rest)).
Qed.

Lemma parseIntString_numeral (d : Decimal.uint) :
  d <> Decimal.Nil ->
  parseIntString (NilEmpty.string_of_uint d)
  = match readDigits 10 (NilEmpty.string_of_uint d) None with
    | Some n => Some (toNumber n)
    | None => None
    end /\
  parseIntString (String "-" (NilEmpty.string_of_uint d))
  = match readDigits 10 (NilEmpty.string_of_uint d) None with
    | Some n => Some (-1 * toNumber n)
    | None => None
    end.
Proof.
  intros Hd.
  destruct d as [|d|d|d|d|d|d|d|d|d|d]; [congruence|..];
    destruct d as [|d|d|d|d|d|d|d|d|d|d];
    (split;
     [unfold parseIntString; cbn [NilEmpty.string_of_uint];
      rewrite skipWhiteSpace_ascii by reflexivity; cbv beta iota zeta;
      destruct (readDigits 10 _ None) as [n|];
      [f_equal; destruct (toNumber n); reflexivity|reflexivity]
     |unfold parseIntString; cbn [NilEmpty.string_of_uint];
      rewrite skipWhiteSpace_ascii by reflexivity; cbv beta iota zeta;
      reflexivity]).
Qed.

Lemma toNumber_opp (z : Z) : toNumber (- z) = - toNumber z.
Proof.
  unfold toNumber. rewrite Z.abs_opp, Z.sgn_opp. cbv zeta.
  destruct (Z.log2 (Z.abs z) - 52 <=? 0); [reflexivity|]. lia.
Qed.

(** Reading the decimal numeral of an integer gives its Number value. *)
Lemma parseInt_numeral (n : Z) :
  parseInt (Str (numeral n)) = Some (toNumber n).
Proof.
  unfold parseInt, numeral. destruct n as [|p|p].
  - reflexivity.
  - cbn [Z.to_int NilZero.string_of_int].
    pose proof (DecimalPos.Unsigned.to_uint_nonnil p) as Hd.
    unfold NilZero.string_of_uint.
    destruct (Pos.to_uint p) as [|d|d|d|d|d|d|d|d|d|d] eqn:Hp;
      [congruence|..];
      rewrite <- Hp; rewrite <- Hp in Hd;
      rewrite (proj1 (parseIntString_numeral _ Hd)),
        (readDigits_numeral _ Hd), DecimalPos.Unsigned.of_to; reflexivity.
  - cbn [Z.to_int NilZero.string_of_int].
    pose proof (DecimalPos.Unsigned.to_uint_nonnil p) as Hd.
    unfold NilZero.string_of_uint.
    destruct (Pos.to_uint p) as [|d|d|d|d|d|d|d|d|d|d] eqn:Hp;
      [congruence|..];
      rewrite <- Hp; rewrite <- Hp in Hd;
      rewrite (proj2 (parseIntString_numeral _ Hd)),
        (readDigits_numeral _ Hd), DecimalPos.Unsigned.of_to;
      change (Z.neg p) with (- Z.pos p); rewrite toNumber_opp;
      cbn [Z.of_N]; f_equal; lia.
Qed.

(** A safe integer is its own Number value. *)
Lemma toNumber_safe (n : Z) : isSafeInteger n = true -> toNumber n = n.
Proof.
  unfold isSafeInteger, toNumber. intros H. apply Z.ltb_lt in H.
  cbv zeta.
  destruct (Z.leb_spec (Z.log2 (Z.abs n) - 52) 0) as [|He]; [reflexivity|].
  exfalso. assert (Hpos : 0 < Z.abs n).
  { destruct (Z.eq_dec (Z.abs n) 0) as [E|]; [|lia].
    rewrite E in He. cbn in He. lia. }
  apply (Z.log2_lt_pow2 _ 53 Hpos) in H. lia.
Qed.

Lemma parseInt_safe (v : value) (n : Z) :
  isSafeInteger n = true ->
  v = Num n \/ v = Str (numeral n) ->
  parseInt v = Some n.
Proof.
  intros Hn [-> | ->].
  - unfold parseInt. rewrite (toNumber_safe n Hn). cbv zeta.
    unfold isSafeInteger in Hn. apply Z.ltb_lt in Hn.
    assert (H53 : 2 ^ 53 < 10 ^ 21) by reflexivity.
    assert (H1024 : 10 ^ 21 < 2 ^ 1024) by reflexivity.
    destruct (Z.leb_spec (2 ^ 1024) (Z.abs n)); [lia|].
    destruct (Z.ltb_spec (Z.abs n) (10 ^ 21)); [reflexivity|lia].
  - now rewrite parseInt_numeral, toNumber_safe.
Qed.

(** The sort does not tell a task id that arrives as a decimal string
    from the same id as a number: for safe integers whose difference is
    a safe integer, the comparator returns the difference of the two
    integers whichever way each of them is written. *)
Theorem compareTaskId_reads_decimal_strings (a b : message) (n m : Z) :
  isSafeInteger n = true ->
  isSafeInteger m = true ->
  isSafeInteger (n - m) = true ->
  taskId a = Num n \/ taskId a = Str (numeral n) ->
  taskId b = Num m \/ taskId b = Str (numeral m) ->
  compareTaskId a b = n - m.
Proof.
  intros Hn Hm _ Ha Hb. unfold compareTaskId. cbv zeta.
  now rewrite (parseInt_safe _ n Hn Ha), (parseInt_safe _ m Hm Hb).
Qed.

End Client.

(** * Worked cases

    The theorems above at concrete inputs, and the concrete inputs at
    which the specification and the code part.  The clock is [wall] and
    no string parses as a date. *)

(** C1, a case: a poll re-delivers id 1 with another time and task; the
    stored time stays. *)
Lemma upsert_restamp_keeps_timestamp_case :
  let old := agentMsg (Num 1) (Date 10) Undefined in
  let new := agentMsg (Num 1) (Date 10) (Num 7) in
  let incoming := [Some (agentMsg (Num 1) (Date 20) (Num 7))] in
  In new (fst (upsertMessages wall no_parse incoming true [old] 0%nat)) /\
  timestamp new = timestamp old.
Proof.
  intros old new incoming.
  assert (Hin : In new (fst (upsertMessages wall no_parse incoming true
                               [old] 0%nat)))
    by (vm_compute; left; reflexivity).
  split; [exact Hin|].
  apply (upsert_restamp_keeps_timestamp wall no_parse incoming [old] 0%nat
           old new).
  - simpl. repeat constructor. simpl. tauto.
  - simpl. left. reflexivity.
  - exact Hin.
  - reflexivity.
Defined.

(** C1 fails without [restampNew]: the store holds id 1 with time 10, the
    batch carries id 1 with time 20, and the stored time becomes 20. *)
Lemma upsert_plain_overwrites_timestamp :
  let old := agentMsg (Num 1) (Date 10) Undefined in
  let new := agentMsg (Num 1) (Date 20) Undefined in
  NoDup (map id [old]) /\
  In old [old] /\
  In new (fst (upsertMessages wall no_parse [Some new] false [old] 0%nat)) /\
  id new = id old /\
  timestamp new <> timestamp old.
Proof.
  intros old new. split; [|split; [|split; [|split]]].
  - simpl. repeat constructor. simpl. tauto.
  - left. reflexivity.
  - vm_compute. left. reflexivity.
  - reflexivity.
  - discriminate.
Qed.

(** C2 fails: two events without a task id, ["a"] at 20 ms and ["b"] at
    10 ms.  The specification's policy puts ["b"] first; the code's view
    keeps the order of arrival, whichever it was.  The earlier revision,
    which sorted by time alone, departs from the policy too: it breaks no
    tie by id and lets the time override the task ordinal. *)
Lemma view_follows_arrival_not_time :
  spec_precedes early_b late_a = true /\
  spec_precedes late_a early_b = false /\
  fst (upsertMessages wall no_parse [Some late_a; Some early_b] false []
         0%nat)
  = [late_a; early_b] /\
  fst (upsertMessages wall no_parse [Some early_b; Some late_a] false []
         0%nat)
  = [early_b; late_a] /\
  sortedMessages (entries [late_a; early_b]) = [late_a; early_b] /\
  sortedMessages (entries [early_b; late_a]) = [early_b; late_a] /\
  spec_precedes same_time_a same_time_b = true /\
  sort compareTimestamp [same_time_b; same_time_a]
  = [same_time_b; same_time_a] /\
  spec_precedes task1_at_20 task2_at_10 = true /\
  sort compareTimestamp [task2_at_10; task1_at_20]
  = [task2_at_10; task1_at_20].
Proof. repeat split; vm_compute; reflexivity. Qed.

(** C3, a case: the store is full, with the ids 0 to 49 of task 5, and
    the batch brings one event of task 9 under the new id 100.  The
    first call evicts id 0 and keeps the event of the batch; the second
    call changes nothing. *)
Lemma upsert_again_is_noop_case :
  let incoming := [Some (agentMsg (Num 100) (Date 2) (Num 9))] in
  let once := upsertMessages wall no_parse incoming true store50 0%nat in
  map id (fst once)
  = map (fun i => Num (Z.of_nat i)) (seq 1 49) ++ [Num 100] /\
  fst (upsertMessages wall no_parse incoming true (fst once) (snd once))
  = fst once.
Proof.
  intros incoming once.
  assert (Hids : map id (fst once)
                 = map (fun i => Num (Z.of_nat i)) (seq 1 49) ++ [Num 100])
    by (vm_compute; reflexivity).
  split; [exact Hids|].
  apply (upsert_again_is_noop wall no_parse incoming true store50 0%nat).
  - intros m [[= <-]|[]] _. fold once. rewrite Hids.
    apply in_or_app. right. left. reflexivity.
  - discriminate.
Defined.

(** C3 fails when the first call evicts an element of the batch: 49
    events of task 5 in the store and a batch of two events without a
    task id.  The first call drops id 100 and keeps id 101; the second
    call finds 100 new again, sorts it behind 101 and drops 101.  It
    also fails, without [restampNew], for a record that carries no time:
    each call stamps it anew. *)
Lemma upsert_again_differs :
  (forall restampNew,
      let once :=
        upsertMessages wall no_parse batch2 restampNew store49 0%nat in
      fst (upsertMessages wall no_parse batch2 restampNew (fst once)
             (snd once))
      <> fst once) /\
  (let incoming := [Some (agentMsg (Num 1) Undefined Undefined)] in
   let once := upsertMessages wall no_parse incoming false [] 0%nat in
   fst (upsertMessages wall no_parse incoming false (fst once) (snd once))
   <> fst once).
Proof.
  split.
  - intros restampNew once H.
    apply (f_equal (fun l => hd Undefined (map id l))) in H.
    subst once. destruct restampNew; vm_compute in H; discriminate H.
  - intros incoming once H.
    apply (f_equal (map timestamp)) in H. vm_compute in H. discriminate H.
Qed.

(** The acknowledged branch, a case: the store holds the optimistic
    message and the placeholder; the server answers with id ["m-500"]. *)
Lemma acknowledge_replaces_temporary_id_case :
  let prev :=
    messages (fst (run wall no_parse submit_hi initial_state 0%nat)) in
  let store := acknowledge optimistic_hi ack_m500 prev in
  (forall m, In m store -> id m <> id optimistic_hi) /\
  NoDup (map id store).
Proof.
  intros prev store.
  destruct (acknowledge_replaces_temporary_id wall no_parse optimistic_hi
              ack_m500 prev) as (_ & Hgone & _ & Hnd).
  - reflexivity.
  - discriminate.
  - split; [exact Hgone|]. apply Hnd.
    + vm_compute. repeat constructor; simpl; intuition discriminate.
    + vm_compute. intuition discriminate.
Defined.

(** C4.  The race of the claim, run on the code: the user submits, a
    poll delivers an event under the server's id ["m-500"], and then the
    answer to the submission arrives with that id.  The acknowledged
    branch renames the optimistic message without looking for the id in
    the store, and the store ends with two events under ["m-500"], where
    the claim has at most one. *)
Lemma poll_before_acknowledge_duplicates_id :
  let session :=
    submit_hi
    ++ [Poll false (Responded true true (JsonData poll_m500));
        SubmitResume optimistic_hi
          (Responded true true (JsonData ack_m500))] in
  let store := messages (fst (run wall no_parse session initial_state 0%nat)) in
  map id store = [Str "m-500"; Str "m-500"] /\ ~ NoDup (map id store).
Proof.
  intros session store.
  assert (H : map id store = [Str "m-500"; Str "m-500"])
    by (vm_compute; reflexivity).
  split; [exact H|]. rewrite H. intros Hnd.
  inversion_clear Hnd as [|? ? Hnotin _]. apply Hnotin. left. reflexivity.
Qed.

(** C6, a case: id 3 is new and carries the time 5. *)
Lemma upsert_restamp_stamps_new_id_case :
  let incoming := [Some (agentMsg (Num 3) (Date 5) Undefined)] in
  let new := agentMsg (Num 3) (Date 1000) Undefined in
  exists n,
    (0 <= n < snd (upsertMessages wall no_parse incoming true [] 0%nat))%nat /\
    timestamp new = Date (wall n).
Proof.
  intros incoming new.
  apply (upsert_restamp_stamps_new_id wall no_parse incoming [] 0%nat new).
  - vm_compute. left. reflexivity.
  - simpl. tauto.
Defined.

(** C6 fails: with [restampNew], the new id 3 carries the time 5 and is
    stored with the reading 1000 of the client's clock. *)
Lemma carried_time_is_not_used :
  let msg := agentMsg (Num 3) (Date 5) Undefined in
  carriesTime no_parse (timestamp msg) = true /\
  fst (upsertMessages wall no_parse [Some msg] true [] 0%nat)
  = [with_timestamp msg (Date (wall 0))] /\
  Date (wall 0) <> timestamp msg.
Proof. repeat split; try (vm_compute; reflexivity). discriminate. Qed.


(** C8, a case: the request of the submission of ["hi"] is rejected by
    the network. *)
Lemma failed_submission_reports_error_case :
  let st := fst (run wall no_parse submit_hi initial_state 0%nat) in
  let st' := fst (handleSubmit_resume wall no_parse optimistic_hi
                    (Rejected failed_to_fetch) st 5%nat) in
  (forall m, In m (messages st') -> truthy (isThinking m) = false) /\
  In (new_errorMessage 1005 failed_to_fetch (Date 1006)) (messages st').
Proof.
  intros st st'.
  destruct (failed_submission_reports_error wall no_parse optimistic_hi
              (Rejected failed_to_fetch) st 5%nat eq_refl)
    as (error & Herror & Hnone & _ & Hroom & _).
  injection Herror as <-.
  split; [exact Hnone|]. apply Hroom. vm_compute. lia.
Defined.

(** C8 fails: after the rejected request the optimistic message is still
    in the store, next to the error event. *)
Lemma failed_submission_keeps_optimistic_message :
  let session := submit_hi
                 ++ [SubmitResume optimistic_hi (Rejected failed_to_fetch)] in
  let st := fst (run wall no_parse session initial_state 0%nat) in
  In optimistic_hi (messages st) /\
  map id (messages st) = [Str "user-1001"; Str "error-1005"].
Proof. split; vm_compute; [left|]; reflexivity. Qed.

(** A case of it: the first poll delivers two items, the older first. *)
Lemma cursor_is_first_of_batch_case :
  let st' := fst (fetchAgentResponses wall no_parse true
                    (Responded true true (JsonData poll_10_20))
                    initial_state 0%nat) in
  exists ms,
    timestamp (agentMsg (Num 1) (Date 10) Undefined) = Date ms /\
    lastFetchTimeRef st' = Some ms /\
    since_parameter false st' = Some ms.
Proof.
  intros st'.
  destruct (cursor_is_first_of_batch wall no_parse true poll_10_20
              initial_state 0%nat
              (mkMessage (Num 1) (Str "unknown") (Str "agent") (Str "one")
                 (Date 10) Undefined Undefined Undefined Undefined Undefined
                 Undefined)
              [mkMessage (Num 2) (Str "unknown") (Str "agent") (Str "two")
                 (Date 20) Undefined Undefined Undefined Undefined Undefined
                 Undefined])
    as (ms & Hts & Hc & Hs).
  - reflexivity.
  - vm_compute. reflexivity.
  - exists ms. repeat split; assumption.
Defined.

(** C9.  The cursor is not the highest key observed.  The server lists
    a batch in ascending order of time, and [fetchAgentResponses] takes
    the timestamp of the first event of the batch for the most recent
    one.  A first poll delivers two events, of the times 10 and 20 in
    that order: both are stored, the cursor is 10, the oldest time of
    the batch, and the next incremental fetch asks with [since] 10,
    below the time 20 of an event the client holds. *)
Theorem cursor_is_oldest_of_ascending_batch :
  let st := fst (fetchAgentResponses wall no_parse true
                   (Responded true true (JsonData poll_10_20))
                   initial_state 0%nat) in
  map timestamp (messages st) = [Date 10; Date 20] /\
  lastFetchTimeRef st = Some 10 /\
  since_parameter false st = Some 10 /\
  (exists m ms, In m (messages st) /\ timestamp m = Date ms /\ 10 < ms).
Proof.
  intros st.
  assert (Hts : map timestamp (messages st) = [Date 10; Date 20])
    by (vm_compute; reflexivity).
  split; [exact Hts|]. split; [vm_compute; reflexivity|].
  split; [vm_compute; reflexivity|].
  exists (mkMessage (Num 2) (Str "unknown") (Str "agent") (Str "two")
            (Date 20) Undefined Undefined Undefined Undefined Undefined
            Undefined), 20.
  split; [vm_compute; right; left; reflexivity|].
  split; [reflexivity|lia].
Qed.

(** C10, a case: the store is full of events of task 5 and the user
    submits ["hi"]; the optimistic message has key 0, sorts first and is
    evicted by the upsert that was to add it. *)
Lemma unparsed_taskId_sorts_first_case :
  let store := fst (upsertMessages wall no_parse [Some optimistic_hi] false
                      store50 0%nat) in
  taskKey optimistic_hi = 0 /\
  length store = 50%nat /\
  ~ In optimistic_hi store.
Proof.
  intros store.
  destruct (unparsed_taskId_sorts_first wall no_parse)
    as (Hkey & _ & _ & _ & Hcut & Hevict).
  assert (H0 : taskKey optimistic_hi = 0) by (apply Hkey; reflexivity).
  split; [exact H0|]. split.
  - apply (Hcut (Some optimistic_hi) [] false store50 0%nat).
    vm_compute. lia.
  - apply (Hevict (Some optimistic_hi) [] false store50 0%nat optimistic_hi);
      [exact H0|].
    vm_compute. lia.
Defined.


(** ** Worked cases of the further properties *)

(** The store holds id 1 and the batch brings id 2: id 2 is in the store
    afterwards. *)
Lemma upsert_ids_are_the_union_case :
  let incoming := [Some (agentMsg (Num 2) (Date 20) Undefined)] in
  let prev := [agentMsg (Num 1) (Date 10) Undefined] in
  In (Num 2)
    (map id (fst (upsertMessages wall no_parse incoming true prev 0%nat))).
Proof.
  intros incoming prev.
  apply (upsert_ids_are_the_union wall no_parse incoming true prev 0%nat
           (Num 2)).
  - vm_compute. lia.
  - right. left. reflexivity.
Defined.

(** A batch names the new id 1 twice, for task 3 and then for task 4,
    with [restampNew]: the stored event is the second record, under the
    time of the clock. *)
Lemma upsert_last_record_wins_case :
  let first := agentMsg (Num 1) (Date 10) (Num 3) in
  let last := agentMsg (Num 1) (Date 12) (Num 4) in
  let m := agentMsg (Num 1) (Date 1000) (Num 4) in
  m = with_timestamp last (timestamp m).
Proof.
  intros first last m.
  apply (upsert_last_record_wins wall no_parse [Some first] [] last true []
           0%nat m).
  - reflexivity.
  - intros m' [].
  - vm_compute. left. reflexivity.
  - reflexivity.
Defined.

(** The store holds id 1 with the time 10; a plain upsert brings id 1
    with the number 990 as its time, and the stored event has the date
    990. *)
Lemma upsert_plain_stores_carried_time_case :
  let msg := agentMsg (Num 1) (Num 990) Undefined in
  let prev := [agentMsg (Num 1) (Date 10) Undefined] in
  let m := agentMsg (Num 1) (Date 990) Undefined in
  In m (fst (upsertMessages wall no_parse [Some msg] false prev 0%nat)) /\
  m = with_timestamp msg (Date 990).
Proof.
  intros msg prev m.
  assert (Hin : In m (fst (upsertMessages wall no_parse [Some msg] false
                             prev 0%nat)))
    by (vm_compute; left; reflexivity).
  split; [exact Hin|].
  apply (upsert_plain_stores_carried_time wall no_parse [] [] msg prev
           0%nat m).
  - reflexivity.
  - reflexivity.
  - intros m' [].
  - exact Hin.
  - reflexivity.
Defined.

(** The batch brings id 2; the event with id 1 stays in the store. *)
Lemma upsert_leaves_other_events_case :
  let incoming := [Some (agentMsg (Num 2) (Date 20) Undefined)] in
  let m := agentMsg (Num 1) (Date 10) Undefined in
  In m (fst (upsertMessages wall no_parse incoming true [m] 0%nat)).
Proof.
  intros incoming m.
  apply (upsert_leaves_other_events wall no_parse incoming true [m] 0%nat m).
  - intros msg [<-|[]]. discriminate.
  - repeat constructor. simpl. tauto.
  - vm_compute. lia.
  - left. reflexivity.
Defined.

(** A batch of a [null] and a message without id. *)
Lemma upsert_unusable_batch_changes_nothing_case :
  let incoming := [None; Some (agentMsg Undefined (Date 1) (Num 9))] in
  let prev := [agentMsg (Num 1) (Date 10) Undefined] in
  upsertMessages wall no_parse incoming true prev 0%nat = (prev, 0%nat).
Proof.
  intros incoming prev.
  apply (upsert_unusable_batch_changes_nothing wall no_parse incoming true
           prev 0%nat).
  - repeat constructor.
  - repeat constructor. simpl. tauto.
  - repeat constructor.
  - simpl. lia.
Defined.

(** The message built from an item with id 1 and the time 10. *)
Lemma buildAgentMessage_fit_for_store_case :
  let item := mkItem (Num 1) Undefined (Str "one") (Num 10) Undefined None
                Undefined in
  let m := mkMessage (Num 1) (Str "unknown") (Str "agent") (Str "one")
             (Date 10) Undefined Undefined Undefined Undefined Undefined
             Undefined in
  fst (buildAgentMessage wall no_parse (Some item) 0%nat) = Some m /\
  stored (Some m) = Some m /\
  clockFree no_parse (Some m) = true.
Proof.
  intros item m.
  assert (Hm : fst (buildAgentMessage wall no_parse (Some item) 0%nat)
               = Some m) by reflexivity.
  split; [exact Hm|].
  destruct (buildAgentMessage_fit_for_store wall no_parse (Some item) 0%nat
              m Hm) as (_ & Hs & Hc & _).
  split; [exact Hs|exact Hc].
Defined.

(** The component is unmounted; a poll with two items settles. *)
Lemma poll_after_teardown_is_inert_case :
  let st := set_abortRef true initial_state in
  fetchAgentResponses wall no_parse true
    (Responded true true (JsonData poll_10_20)) st 0%nat
  = (st, 0%nat).
Proof.
  intros st.
  apply (poll_after_teardown_is_inert wall no_parse true
           (Responded true true (JsonData poll_10_20)) st 0%nat).
  reflexivity.
Defined.

(** A poll settles while the submission of ["hi"] is in flight: the
    loading state ends and the in-flight flag stays set. *)
Lemma poll_ends_loading_and_keeps_form_case :
  let st := fst (run wall no_parse submit_hi initial_state 0%nat) in
  let st' := fst (fetchAgentResponses wall no_parse true
                    (Responded true true (JsonData poll_10_20)) st 5%nat) in
  historyLoading st' = false /\
  abortRef st' = false /\
  isLoading st' = true /\
  isAuthenticated st' = true /\
  inputValue st' = ""%string.
Proof.
  intros st st'.
  apply (poll_ends_loading_and_keeps_form wall no_parse true
           (Responded true true (JsonData poll_10_20)) st 5%nat).
  reflexivity.
Defined.

(** The first poll of a fresh component brings a [null] and an item
    without id. *)
Lemma poll_without_usable_items_case :
  fetchAgentResponses wall no_parse true
    (Responded true true (JsonData poll_unusable)) initial_state 0%nat
  = (setHistoryLoading false (setHistoryError None initial_state), 0%nat).
Proof.
  apply (poll_without_usable_items wall no_parse true poll_unusable
           initial_state 0%nat).
  - reflexivity.
  - reflexivity.
Defined.

(** The same response with two items is delivered to two incremental
    polls of a fresh component. *)
Lemma redelivered_poll_is_absorbed_case :
  let response := Responded true true (JsonData poll_10_20) in
  let st1 := fst (fetchAgentResponses wall no_parse false response
                    initial_state 0%nat) in
  let st2 := fst (fetchAgentResponses wall no_parse false response st1
                    7%nat) in
  messages st2 = messages st1 /\
  lastFetchTimeRef st2 = lastFetchTimeRef st1.
Proof.
  intros response st1 st2.
  apply (redelivered_poll_is_absorbed wall no_parse false poll_10_20
           initial_state 0%nat 7%nat).
  - reflexivity.
  - repeat constructor.
  - vm_compute. lia.
Defined.

(** The user has signed in; an input of a space, a no-break space and a
    line separator is stopped at the guard, and the input ["hi"] between
    a no-break space and a space is not. *)
Lemma handleSubmit_guards_case :
  let blank_st := fst (run wall no_parse typed_blank initial_state 0%nat) in
  let st := fst (run wall no_parse typed_hi initial_state 0%nat) in
  handleSubmit_begin wall no_parse blank_st 0%nat = ((blank_st, None), 0%nat)
  /\ snd (fst (handleSubmit_begin wall no_parse st 0%nat)) <> None.
Proof.
  intros blank_st st. split.
  - apply (proj2 (handleSubmit_guards wall no_parse blank_st 0%nat)).
    apply (proj1 (handleSubmit_guards wall no_parse blank_st 0%nat)).
    right. left. reflexivity.
  - intros H.
    apply (proj1 (handleSubmit_guards wall no_parse st 0%nat)) in H.
    destruct H as [H|[H|H]]; vm_compute in H; discriminate H.
Defined.

(** The user has signed in and typed ["hi"] between a no-break space and
    a space: the optimistic message carries ["hi"], and both it and the
    placeholder are in the store. *)
Lemma handleSubmit_begin_effects_case :
  let st := fst (run wall no_parse typed_hi initial_state 0%nat) in
  let st1 := fst (fst (handleSubmit_begin wall no_parse st 0%nat)) in
  snd (fst (handleSubmit_begin wall no_parse st 0%nat)) = Some optimistic_hi
  /\ snd (handleSubmit_begin wall no_parse st 0%nat) = 5%nat
  /\ inputValue st1 = ""%string
  /\ isLoading st1 = true
  /\ In optimistic_hi (messages st1)
  /\ In (new_thinkingMessage 1003 (Date 1004)) (messages st1).
Proof.
  intros st st1.
  destruct (handleSubmit_begin_effects wall no_parse st 0%nat eq_refl
              eq_refl eq_refl) as (Hu & Ht & Hi & Hl & Hin).
  destruct Hin as [Hin1 Hin2]; [vm_compute; lia|].
  split; [exact Hu|]. split; [exact Ht|]. split; [exact Hi|].
  split; [exact Hl|]. split; [exact Hin1|exact Hin2].
Defined.

(** While ["hi"] is in flight the user types ["again"] and submits. *)
Lemma second_submit_is_ignored_case :
  let st := fst (run wall no_parse typed_hi initial_state 0%nat) in
  let st1 :=
    setInputValue "again"
      (fst (fst (handleSubmit_begin wall no_parse st 0%nat))) in
  handleSubmit_begin wall no_parse st1 5%nat = ((st1, None), 5%nat).
Proof.
  intros st st1.
  apply (second_submit_is_ignored wall no_parse st 0%nat "again").
  vm_compute. discriminate.
Defined.

(** The server answers without an id: the store loses the placeholder
    and nothing else changes. *)
Lemma acknowledge_changes_ids_only_case :
  let prev :=
    messages (fst (run wall no_parse submit_hi initial_state 0%nat)) in
  acknowledge optimistic_hi (mkSendData None Undefined) prev
  = [optimistic_hi].
Proof.
  intros prev.
  rewrite (proj1 (proj2 (acknowledge_changes_ids_only optimistic_hi
                           (mkSendData None Undefined) prev)) eq_refl).
  reflexivity.
Defined.

(** A wrong password, then the right one, then a wrong one again. *)
Lemma password_gate_case :
  let r := attemptPasswords ["guess"; "jubilee"; "Jubilee"]%string
             (mkForm "" "", initial_state) in
  isAuthenticated (snd r) = true /\
  fst r = mkForm "" "Incorrect password. Please try again.".
Proof.
  intros r.
  destruct (password_gate ["guess"; "jubilee"; "Jubilee"]%string
              (mkForm "" "") initial_state) as (Hs & _ & Hf).
  split.
  - fold r in Hs. rewrite Hs. reflexivity.
  - apply (Hf ["guess"; "jubilee"]%string "Jubilee"%string). reflexivity.
Defined.

(** The progress ["45.5"] is shown as ["46%"]. *)
Lemma percent_label_in_range_case :
  formatPercentLabel reads_45_5 (Str "45.5") = Some "46%"%string /\
  exists k, 0 <= k <= 100 /\ "46%"%string = (numeral k ++ "%")%string.
Proof.
  assert (H : formatPercentLabel reads_45_5 (Str "45.5")
              = Some "46%"%string) by reflexivity.
  split; [exact H|].
  apply (proj1 (proj2 (percent_label_in_range reads_45_5 (Str "45.5")))).
  exact H.
Defined.

(** [trim] at work: a no-break space, ["hi"], a line separator and a
    space. *)
Lemma trim_removes_surrounding_white_space_case :
  trim (nbsp ++ "hi" ++ line_separator ++ " ") = "hi"%string /\
  (exists before after : string,
      (nbsp ++ "hi" ++ line_separator ++ " ")%string
      = (before ++ "hi" ++ after)%string /\
      blank before = true /\ blank after = true).
Proof.
  assert (H : trim (nbsp ++ "hi" ++ line_separator ++ " ") = "hi"%string)
    by reflexivity.
  split; [exact H|].
  destruct (trim_removes_surrounding_white_space
              (nbsp ++ "hi" ++ line_separator ++ " "))
    as ((before & after & Hs & Hb & Ha) & _).
  rewrite H in Hs. exists before, after. auto.
Defined.

(** [parseInt] at work: white space and a sign before the digits, text
    after them, a numeral beyond the safe integers, which is rounded to
    a double, and a Number that prints in exponent notation. *)
Lemma parseInt_reads_as_the_platform :
  parseInt (Str (nbsp ++ " -12abc")) = Some (-12) /\
  parseInt (Str "0x1F") = Some 31 /\
  parseInt (Str "task-7") = None /\
  parseInt (Str "9007199254740993") = Some 9007199254740992 /\
  parseInt (Num 9007199254740993) = Some 9007199254740992 /\
  parseInt (Num (10 ^ 21)) = Some 1 /\
  parseInt (Num 99999999999999991611392) = Some 1.
Proof. repeat split; vm_compute; reflexivity. Qed.

(** The task id ["12"] against the task id 7. *)
Lemma compareTaskId_reads_decimal_strings_case :
  compareTaskId (agentMsg (Num 1) (Date 1) (Str "12"))
    (agentMsg (Num 2) (Date 1) (Num 7))
  = 5.
Proof.
  apply (compareTaskId_reads_decimal_strings
           (agentMsg (Num 1) (Date 1) (Str "12"))
           (agentMsg (Num 2) (Date 1) (Num 7)) 12 7).
  - reflexivity.
  - reflexivity.
  - reflexivity.
  - right. reflexivity.
  - left. reflexivity.
Defined.
